(** * Causal-estimation and robustness core: a shallow embedding

    The estimators of [research_assistant_ai.models] and the sweeps of
    [research_assistant_ai.assistant.robustness] are translated function by
    function, together with the frames that the orchestrators build for
    them and the q-value adjustment of [research_assistant_ai.utils].  Data frames are lists of row records; Python dictionaries are
    association lists kept in insertion order; Python exceptions are the
    [Raise] constructor of [result].

    Numbers.  The source computes in IEEE binary64.  The embedding computes
    in the real numbers: every [float] that the source obtains by arithmetic
    is an [R], and the three special values the source writes down itself
    ([float("nan")], [float("inf")]) are constructors of [pyfloat].  Rounding,
    overflow and NaN propagation through arithmetic are therefore outside the
    model; all statements below are statements about the exact-arithmetic
    reading of the code.

    External libraries.  [statsmodels] (least squares and its inference) and
    [scipy.stats.chi2] are not part of the repository.  They enter through
    the interface [RegressionBackbone] and through a function parameter. *)

From Stdlib Require Import String Ascii.
From Stdlib Require Import Reals Lra Lia List ZArith Bool.
From Stdlib Require Import Permutation Sorted DecimalString DecimalN.
Import ListNotations.

Open Scope string_scope.
Open Scope list_scope.
Open Scope R_scope.

(* ================================================================= *)
(** * Part I: the embedding                                           *)
(* ================================================================= *)

(** ** Python results and floats *)

Inductive result (A : Type) : Type :=
| Return (a : A)
| Raise (msg : string).
Arguments Return {A} a.
Arguments Raise {A} msg.

Definition bind {A B} (m : result A) (k : A -> result B) : result B :=
  match m with
  | Return a => k a
  | Raise e => Raise e
  end.

Notation "x <- m ;; k" := (bind m (fun x => k))
  (at level 61, m at next level, right associativity).

Definition result_map {A B} (f : A -> B) (m : result A) : result B :=
  match m with
  | Return a => Return (f a)
  | Raise e => Raise e
  end.

(** A Python [float]: a real number obtained by arithmetic, or one of the
    special values the source constructs explicitly. *)
Inductive pyfloat : Type :=
| Fin (x : R)
| PInf
| NInf
| NaN.

Definition Rltb (x y : R) : bool := if Rlt_dec x y then true else false.
Definition Rleb (x y : R) : bool := if Rle_dec x y then true else false.

(** [a < b] on Python floats; every comparison with NaN is [False]. *)
Definition flt (a b : pyfloat) : bool :=
  match a, b with
  | Fin x, Fin y => Rltb x y
  | Fin _, PInf => true
  | NInf, Fin _ => true
  | NInf, PInf => true
  | _, _ => false
  end.

Definition fsub (a b : pyfloat) : pyfloat :=
  match a, b with
  | Fin x, Fin y => Fin (x - y)
  | NaN, _ | _, NaN => NaN
  | PInf, PInf | NInf, NInf => NaN
  | PInf, _ | _, NInf => PInf
  | NInf, _ | _, PInf => NInf
  end.

Definition fabs (a : pyfloat) : pyfloat :=
  match a with
  | Fin x => Fin (Rabs x)
  | PInf | NInf => PInf
  | NaN => NaN
  end.

(** ** Vectors and matrices (numpy) *)

Definition Rsum (l : list R) : R := fold_right Rplus 0 l.

Definition mean (l : list R) : R := Rsum l / INR (length l).

Definition vsub (a b : list R) : list R :=
  map (fun p => fst p - snd p) (combine a b).

Definition vscale (c : R) (a : list R) : list R := map (Rmult c) a.

Definition dot (a b : list R) : R :=
  Rsum (map (fun p => fst p * snd p) (combine a b)).

(** [M @ v] for a matrix given as the list of its rows. *)
Definition matvec (M : list (list R)) (v : list R) : list R :=
  map (fun row => dot row v) M.

(** [M.T] for a matrix with [ncols] columns given as the list of its rows. *)
Definition transpose (ncols : nat) (M : list (list R)) : list (list R) :=
  map (fun t => map (fun row => nth t row 0) M) (seq 0 ncols).

Definition std (l : list R) : R :=
  sqrt (mean (map (fun x => (x - mean l) * (x - mean l)) l)).

(** [np.corrcoef(a, b)[0, 1]]. *)
Definition corrcoef (a b : list R) : R :=
  let da := map (fun x => x - mean a) a in
  let db := map (fun x => x - mean b) b in
  dot da db / sqrt (dot da da * dot db db).

(** ** Sorting, [unique], dictionaries *)

Section Sorting.
Context {A : Type} (le : A -> A -> bool).

Fixpoint insert_sorted (x : A) (l : list A) : list A :=
  match l with
  | [] => [x]
  | y :: l' => if le x y then x :: y :: l' else y :: insert_sorted x l'
  end.

(** Python's [sorted]: stable, so an element is placed before the first
    later element that does not precede it. *)
Definition sorted (l : list A) : list A := fold_right insert_sorted [] l.

End Sorting.

Definition str_mem (s : string) (l : list string) : bool :=
  existsb (String.eqb s) l.

(** [Series.unique()]: distinct values in order of first appearance. *)
Fixpoint unique_from (seen : list string) (l : list string) : list string :=
  match l with
  | [] => []
  | x :: l' =>
      if str_mem x seen then unique_from seen l'
      else x :: unique_from (x :: seen) l'
  end.

Definition unique (l : list string) : list string := unique_from [] l.

Section Dict.
Context {K V : Type} (eqb : K -> K -> bool).

(** [d[k] = v] on an insertion-ordered dictionary. *)
Fixpoint dict_set (k : K) (v : V) (d : list (K * V)) : list (K * V) :=
  match d with
  | [] => [(k, v)]
  | (k', v') :: d' =>
      if eqb k k' then (k, v) :: d' else (k', v') :: dict_set k v d'
  end.

Fixpoint dict_get (k : K) (d : list (K * V)) : option V :=
  match d with
  | [] => None
  | (k', v') :: d' => if eqb k k' then Some v' else dict_get k d'
  end.

(** A dictionary comprehension over a list of key/value pairs. *)
Definition dict_of (kvs : list (K * V)) : list (K * V) :=
  fold_left (fun d kv => dict_set (fst kv) (snd kv) d) kvs [].

End Dict.

Definition keys {K V} (d : list (K * V)) : list K := map fst d.
Definition values {K V} (d : list (K * V)) : list V := map snd d.

(** ** The panel (pandas frame) read by the synthetic-control engine *)

Record PanelRow : Type := {
  p_unit : string;
  p_time : string;
  p_y : option R   (* [None]: a missing (NaN) outcome *)
}.

Definition Panel : Type := list PanelRow.

(** The panel is keyed by (unit, period): no key occurs twice. *)
Definition keyed (d : Panel) : Prop :=
  NoDup (map (fun r => (p_unit r, p_time r)) d).

(** The outcome of unit [u] in period [t]: the entry that
    [d[d[unit_col] == u].set_index(time_col)[y_col].reindex(times)] holds at
    [t] for a unit whose periods are distinct; missing when the unit has no
    row for [t].  For a unit with a repeated period [reindex] raises (see
    [duplicate_labels]), and the functions that read series test for this
    before they use [lookup_y]. *)
Definition lookup_y (d : Panel) (u t : string) : option R :=
  match find (fun r => String.eqb (p_unit r) u && String.eqb (p_time r) t) d with
  | Some r => p_y r
  | None => None
  end.

Fixpoint ffill (last : option R) (l : list (option R)) : list (option R) :=
  match l with
  | [] => []
  | Some x :: l' => Some x :: ffill (Some x) l'
  | None :: l' => last :: ffill last l'
  end.

Definition fillna (c : R) (l : list (option R)) : list R :=
  map (fun o => match o with Some x => x | None => c end) l.

(** [s.reindex(times)] needs unique labels: when the unit has two rows for
    one period it raises [ValueError], whatever [times] is ([times] is
    duplicate-free, so it never equals the index of such a unit).  The
    message is the one of pandas 1.4 and later. *)
Fixpoint has_duplicates (l : list string) : bool :=
  match l with
  | [] => false
  | x :: l' => str_mem x l' || has_duplicates l'
  end.

Definition duplicate_labels (d : Panel) (u : string) : bool :=
  has_duplicates
    (map p_time (filter (fun r => String.eqb (p_unit r) u) d)).

(** [_series(u, times)] for a unit whose labels are unique: the unit's
    outcomes reindexed on [times], forward-filled, remaining gaps set to 0.
    The callers raise the error of [reindex] before they read the series of
    a unit with a repeated period. *)
Definition _series (d : Panel) (u : string) (times : list string) : list R :=
  fillna 0 (ffill None (map (lookup_y d u) times)).

(** ** models/causal_plus.py: synthetic_control *)

Record SyntheticControlResult : Type := {
  sc_treated_unit : string;
  sc_donor_units : list string;
  sc_weights : list (string * R);
  sc_pre_rmse : pyfloat;
  sc_post_gap_mean : pyfloat;
  sc_n_pre : nat;
  sc_n_post : nat
}.

Definition lr : R := 0.05.

(** One pass of the projected-gradient loop.  [XpreT] is [Xpre.T], the
    stacked donor series; [Xpre] is its transpose. *)
Definition sc_step (XpreT Xpre : list (list R)) (Yt_pre : list R)
    (w : list R) : list R :=
  let grad :=
    map (fun g => g / INR (Nat.max 1 (length Yt_pre)))
        (matvec (map (vscale (-2)) XpreT) (vsub Yt_pre (matvec Xpre w))) in
  let w := vsub w (vscale lr grad) in
  let w := map (Rmax 0) w in
  let s := Rsum w in
  if Rlt_dec 0 s then map (fun x => x / s) w else w.

Definition sc_donors (d : Panel) (treated_unit : string)
    (donor_units : option (list string)) : list string :=
  match donor_units with
  | Some (u :: us) => u :: us
  | _ => sorted String.leb
           (filter (fun u => negb (String.eqb u treated_unit))
                   (unique (map p_unit d)))
  end.

Definition all_times (d : Panel) : list string :=
  sorted String.leb (unique (map p_time d)).

Definition sc_fit_weights (d : Panel) (treated_unit intervention_time : string)
    (donors : list string) : list R :=
  let pre_times := filter (fun t => String.ltb t intervention_time) (all_times d) in
  let Yt_pre := _series d treated_unit pre_times in
  let XpreT := map (fun u => _series d u pre_times) donors in
  let Xpre := transpose (length pre_times) XpreT in
  let w0 := repeat (1 / INR (length donors)) (length donors) in
  N.iter 4000 (sc_step XpreT Xpre Yt_pre) w0.

Definition synthetic_control (d : Panel) (treated_unit intervention_time : string)
    (donor_units : option (list string)) : result SyntheticControlResult :=
  let donors := sc_donors d treated_unit donor_units in
  let pre_times := filter (fun t => String.ltb t intervention_time) (all_times d) in
  let post_times := filter (fun t => String.leb intervention_time t) (all_times d) in
  if duplicate_labels d treated_unit || existsb (duplicate_labels d) donors
  then
    (* [_series] of the treated unit, then of the donors in turn *)
    Raise "cannot reindex on an axis with duplicate labels"
  else
  match donors with
  | [] => Raise "need at least one array to concatenate"
  | _ :: _ =>
      let Yt_pre := _series d treated_unit pre_times in
      let XpreT := map (fun u => _series d u pre_times) donors in
      let Xpre := transpose (length pre_times) XpreT in
      let w := sc_fit_weights d treated_unit intervention_time donors in
      let yhat_pre := matvec Xpre w in
      let pre_rmse :=
        match Yt_pre with
        | [] => NaN
        | _ => Fin (sqrt (mean (map (fun e => e * e) (vsub Yt_pre yhat_pre))))
        end in
      let post_gap_mean :=
        match post_times with
        | [] => NaN
        | _ =>
            let Yt_post := _series d treated_unit post_times in
            let Xpost :=
              transpose (length post_times)
                        (map (fun u => _series d u post_times) donors) in
            Fin (mean (vsub Yt_post (matvec Xpost w)))
        end in
      Return {| sc_treated_unit := treated_unit;
                sc_donor_units := donors;
                sc_weights := dict_of String.eqb (combine donors w);
                sc_pre_rmse := pre_rmse;
                sc_post_gap_mean := post_gap_mean;
                sc_n_pre := length pre_times;
                sc_n_post := length post_times |}
  end.

(** ** The regression backbone (statsmodels) *)

(** Covariance estimators selectable on a fitted model. *)
Inductive cov_type : Type :=
| nonrobust
| HAC (maxlags : Z)
| cluster (groups : list string).

(** What the embedding needs from the least-squares library.  The library
    receives the design as the source builds it, row by row in the order of
    the frame, together with the response: coefficients, p-values and the
    reported statistics are functions of both.  Nothing is assumed about how
    the coefficients depend on the order of the rows; the binary64 routine
    of the source is sensitive to it in the last digits.  The two laws say
    that the library reports one coefficient and one p-value per design
    column. *)
Class RegressionBackbone : Type := {
  sm_params : nat -> list (list R) -> list R -> list R;
  sm_pvalues : cov_type -> nat -> list (list R) -> list R -> list R;
  sm_rsquared : list (list R) -> list R -> R;
  sm_aic : list (list R) -> list R -> R;
  sm_bic : list (list R) -> list R -> R;
  sm_params_length : forall p X y, length (sm_params p X y) = p;
  sm_pvalues_length : forall c p X y, length (sm_pvalues c p X y) = p
}.

Record OLSResults : Type := {
  exog_names : list string;
  exog : list (list R);
  endog : list R;
  params : list R;
  pvalues : list R;
  nobs : nat;
  rsquared : R;
  aic : R;
  bic : R
}.

(** The normal equations: [X.T @ X] and [X.T @ y] for a design with [p]
    columns given by rows.  Both are sums over the rows. *)
Definition XtX (p : nat) (X : list (list R)) : list (list R) :=
  map (fun i =>
         map (fun j => Rsum (map (fun x => nth i x 0 * nth j x 0) X)) (seq 0 p))
      (seq 0 p).

Definition Xty (p : nat) (X : list (list R)) (y : list R) : list R :=
  map (fun i => Rsum (map (fun xy => nth i (fst xy) 0 * snd xy) (combine X y)))
      (seq 0 p).

(** [OLS(y, X).fit()]. *)
Definition OLS_fit `{RegressionBackbone} (names : list string)
    (X : list (list R)) (y : list R) : OLSResults :=
  let p := length names in
  {| exog_names := names;
     exog := X;
     endog := y;
     params := sm_params p X y;
     pvalues := sm_pvalues nonrobust p X y;
     nobs := length y;
     rsquared := sm_rsquared X y;
     aic := sm_aic X y;
     bic := sm_bic X y |}.

(** [m.get_robustcov_results(cov_type=...)]: same coefficients, p-values
    recomputed under the requested covariance estimator. *)
Definition get_robustcov_results `{RegressionBackbone} (m : OLSResults)
    (c : cov_type) : OLSResults :=
  {| exog_names := exog_names m;
     exog := exog m;
     endog := endog m;
     params := params m;
     pvalues := sm_pvalues c (length (exog_names m)) (exog m) (endog m);
     nobs := nobs m;
     rsquared := rsquared m;
     aic := aic m;
     bic := bic m |}.

(** [names.index(name)]. *)
Fixpoint index_of (name : string) (names : list string) : result nat :=
  match names with
  | [] => Raise "ValueError: not in list"
  | n :: names' =>
      if String.eqb n name then Return 0%nat
      else i <- index_of name names' ;; Return (S i)
  end.

(** [l[i]]. *)
Definition getitem (l : list R) (i : nat) : result R :=
  match nth_error l i with
  | Some x => Return x
  | None => Raise "IndexError"
  end.

Definition b2r (b : bool) : R := if b then 1 else 0.

(** ** models/causal_estimators.py *)

(** A row of the single-series frame.  [ts_cov] reads a covariate column
    by name; covariate columns are the frame's own columns and are distinct
    from the scratch columns ([_t], [_post], ...) the estimators add. *)
Record TSRow : Type := {
  ts_time : string;
  ts_y : R;
  ts_cov : string -> R
}.

Record ITSResult : Type := {
  level_change : R;
  slope_change : R;
  p_level : R;
  p_slope : R;
  its_n : nat;
  its_r2 : R;
  its_aic : R;
  its_bic : R
}.

(** [np.where(mask)[0][0]] for a mask known to contain [True]. *)
Fixpoint first_true (mask : list bool) : nat :=
  match mask with
  | [] => 0
  | true :: _ => 0
  | false :: mask' => S (first_true mask')
  end.

Definition its_columns (x_cols : list string) : list string :=
  "const" :: ["_t"; "_post"; "_t_post"] ++ x_cols.

(** The fitted model of [interrupted_time_series] for the sorted frame [d]
    and the position [t0] of the intervention period. *)
Definition its_model `{RegressionBackbone} (d : list TSRow) (t0 : nat)
    (x_cols : list string) (hac_lags : option Z) : OLSResults :=
  let _t := seq 0 (length d) in
  let X :=
    map (fun tr =>
           let t := fst tr in
           let _post := b2r (Nat.leb t0 t) in
           1 :: INR t :: _post :: (INR t - INR t0) * _post
             :: map (ts_cov (snd tr)) x_cols)
        (combine _t d) in
  let y := map ts_y d in
  let model := OLS_fit (its_columns x_cols) X y in
  match hac_lags with
  | Some lags =>
      if (0 <? lags)%Z then get_robustcov_results model (HAC lags)
      else model
  | None => model
  end.

Definition interrupted_time_series `{RegressionBackbone} (df : list TSRow)
    (intervention_time : string) (x_cols : list string)
    (hac_lags : option Z) : result ITSResult :=
  let d := sorted (fun a b => String.leb (ts_time a) (ts_time b)) df in
  let tmask := map (fun r => String.leb intervention_time (ts_time r)) d in
  if negb (existsb (fun b => b) tmask) then
    Raise "intervention_time is after all observations."
  else
    let t0 := first_true tmask in
    let model := its_model d t0 x_cols hac_lags in
    i_post <- index_of "_post" (its_columns x_cols) ;;
    i_t_post <- index_of "_t_post" (its_columns x_cols) ;;
    lc <- getitem (params model) i_post ;;
    sc <- getitem (params model) i_t_post ;;
    pl <- getitem (pvalues model) i_post ;;
    ps <- getitem (pvalues model) i_t_post ;;
    Return {| level_change := lc;
              slope_change := sc;
              p_level := pl;
              p_slope := ps;
              its_n := nobs model;
              its_r2 := rsquared model;
              its_aic := aic model;
              its_bic := bic model |}.

Record RDRow : Type := {
  rd_running : R;
  rd_y : R;
  rd_cov : string -> R
}.

Record RDDResult : Type := {
  discontinuity : R;
  rdd_p_value : R;
  rdd_bandwidth : R;
  rdd_n : nat;
  rdd_r2 : R;
  rdd_aic : R;
  rdd_bic : R
}.

Definition rdd_columns (x_cols : list string) : list string :=
  "const" :: ["_r"; "_treat"; "_r_treat"] ++ x_cols.

(** The rows kept by the bandwidth filter, paired with the centred
    running variable [_r]. *)
Definition rdd_window (df : list RDRow) (cutoff bandwidth : R)
  : list (R * RDRow) :=
  filter (fun rr => Rleb (Rabs (fst rr)) bandwidth)
         (map (fun r => (rd_running r - cutoff, r)) df).

Definition rdd_model `{RegressionBackbone} (d : list (R * RDRow))
    (x_cols : list string) : OLSResults :=
  let X :=
    map (fun rr =>
           let _r := fst rr in
           let _treat := b2r (Rleb 0 _r) in
           1 :: _r :: _treat :: _r * _treat :: map (rd_cov (snd rr)) x_cols)
        d in
  let y := map (fun rr => rd_y (snd rr)) d in
  OLS_fit (rdd_columns x_cols) X y.

Definition regression_discontinuity `{RegressionBackbone} (df : list RDRow)
    (cutoff bandwidth : R) (x_cols : list string) : result RDDResult :=
  let d := rdd_window df cutoff bandwidth in
  if (length d <? 20)%nat then
    Raise "Not enough observations in bandwidth to fit RDD."
  else
    let model := rdd_model d x_cols in
    i_treat <- index_of "_treat" (rdd_columns x_cols) ;;
    disc <- getitem (params model) i_treat ;;
    pv <- getitem (pvalues model) i_treat ;;
    Return {| discontinuity := disc;
              rdd_p_value := pv;
              rdd_bandwidth := bandwidth;
              rdd_n := nobs model;
              rdd_r2 := rsquared model;
              rdd_aic := aic model;
              rdd_bic := bic model |}.

(** ** models/causal_plus.py: difference_in_differences and event_study *)

(** A row of the unit-by-period frame of the DiD family.  The column-name
    arguments of the source ([unit_col], [time_col], [y_col], ...) select
    the fields of this record; [d_cov] reads a covariate column by name. *)
Record DidRow : Type := {
  d_unit : string;
  d_time : string;
  d_y : R;
  d_treated : bool;
  d_post : bool;
  d_event_time : Z;
  d_cov : string -> R
}.

(** [astype("category")]: the categories are the sorted distinct values. *)
Definition categories (l : list string) : list string :=
  sorted String.leb (unique l).

(** Columns of a categorical term [C(col)] in a formula with intercept:
    one indicator per category except the first (the reference level). *)
Definition C_names (col : string) (levels : list string) : list string :=
  map (fun v => "C(" ++ col ++ ")[T." ++ v ++ "]")%string (tl levels).

Definition C_dummies (levels : list string) (v : string) : list R :=
  map (fun l => b2r (String.eqb v l)) (tl levels).

(** [smf.ols(formula, data).fit()] for the formulas of this module: an
    intercept, the unit and time fixed effects, then the numeric terms
    [numeric] in the order written. *)
Definition ols_fixed_effects `{RegressionBackbone} (d : list DidRow)
    (numeric : list (string * (DidRow -> R))) : OLSResults :=
  let units := categories (map d_unit d) in
  let times := categories (map d_time d) in
  let names :=
    "Intercept" :: C_names "unit" units ++ C_names "time" times
      ++ map fst numeric in
  let X :=
    map (fun r =>
           1 :: C_dummies units (d_unit r) ++ C_dummies times (d_time r)
             ++ map (fun c => snd c r) numeric)
        d in
  OLS_fit names X (map d_y d).

Definition with_cluster `{RegressionBackbone} (d : list DidRow)
    (cluster_col : option (DidRow -> string)) (m : OLSResults) : OLSResults :=
  match cluster_col with
  | Some g => get_robustcov_results m (cluster (map g d))
  | None => m
  end.

Definition covariates (x_cols : list string) : list (string * (DidRow -> R)) :=
  map (fun x => (x, fun r => d_cov r x)) x_cols.

Record DiDResult : Type := {
  att : R;
  did_p_value : R;
  did_model_summary : list (string * R)
}.

Definition difference_in_differences `{RegressionBackbone} (df : list DidRow)
    (x_cols : list string) (cluster_col : option (DidRow -> string))
  : result DiDResult :=
  let _int := fun r => b2r (d_treated r) * b2r (d_post r) in
  let rhs :=
    [("treated", fun r => b2r (d_treated r));
     ("post", fun r => b2r (d_post r));
     ("_int", _int)] ++ covariates x_cols in
  let m := ols_fixed_effects df rhs in
  let m := with_cluster df cluster_col m in
  idx <- index_of "_int" (exog_names m) ;;
  a <- getitem (params m) idx ;;
  p <- getitem (pvalues m) idx ;;
  Return {| att := a;
            did_p_value := p;
            did_model_summary := [("n", INR (nobs m)); ("r2", rsquared m)] |}.

Record EventStudyResult : Type := {
  coef_by_k : list (Z * R);
  p_by_k : list (Z * R);
  es_model_summary : list (string * R)
}.

(** Decimal rendering of a non-negative integer, as an f-string does. *)
Definition str_of_N (n : N) : string :=
  NilEmpty.string_of_uint (N.to_uint n).

Definition _kname (k : Z) : string :=
  if (k <? 0)%Z then ("k_m" ++ str_of_N (Z.abs_N k))%string
  else if (0 <? k)%Z then ("k_p" ++ str_of_N (Z.abs_N k))%string
  else "k_0".

(** [range(a, b)]. *)
Definition range (a b : Z) : list Z :=
  map (fun i => (a + Z.of_nat i)%Z) (seq 0 (Z.to_nat (b - a))).

(** The loop that fills [coef_by_k] and [p_by_k]. *)
Fixpoint es_collect (m : OLSResults) (ks : list Z)
    (acc : list (Z * R) * list (Z * R)) : result (list (Z * R) * list (Z * R)) :=
  match ks with
  | [] => Return acc
  | k :: ks' =>
      idx <- index_of (_kname k) (exog_names m) ;;
      c <- getitem (params m) idx ;;
      p <- getitem (pvalues m) idx ;;
      es_collect m ks' (dict_set Z.eqb k c (fst acc), dict_set Z.eqb k p (snd acc))
  end.

Definition event_study `{RegressionBackbone} (df : list DidRow)
    (k_min k_max omit_k : Z) (x_cols : list string)
    (cluster_col : option (DidRow -> string)) : result EventStudyResult :=
  let ks := filter (fun k => negb (k =? omit_k)%Z) (range k_min (k_max + 1)) in
  let k_terms :=
    map (fun k =>
           (_kname k,
            fun r => b2r (d_event_time r =? k)%Z * b2r (d_treated r)))
        ks in
  let rhs :=
    [("treated", fun r => b2r (d_treated r))] ++ k_terms ++ covariates x_cols in
  let m := ols_fixed_effects df rhs in
  let m := with_cluster df cluster_col m in
  cp <- es_collect m ks ([], []) ;;
  Return {| coef_by_k := fst cp;
            p_by_k := snd cp;
            es_model_summary :=
              [("n", INR (nobs m)); ("r2", rsquared m); ("k_min", IZR k_min);
               ("k_max", IZR k_max); ("omit_k", IZR omit_k)] |}.

(** ** models/model_comparison.py *)

Record ModelScore : Type := {
  ms_name : string;
  ms_bic : R;
  ms_n : R;
  ms_k : R;
  ms_weight : R;
  ms_att : R;
  ms_p_value : R
}.

(** Python's [min] on a list. *)
Definition py_min (l : list R) : result R :=
  match l with
  | [] => Raise "min() arg is an empty sequence"
  | x :: l' => Return (fold_left (fun m y => if Rlt_dec y m then y else m) l' x)
  end.

Definition bic_weights (bics : list R) : result (list R) :=
  bmin <- py_min bics ;;
  let deltas := map (fun b => b - bmin) bics in
  let w := map (fun d => exp (-0.5 * d)) deltas in
  let s := if Req_dec_T (Rsum w) 0 then 1 else Rsum w in
  Return (map (fun wi => wi / s) w).

(** [summary.get(key, default)]. *)
Definition dict_get_default (key : string) (default : R)
    (summary : list (string * R)) : R :=
  match dict_get String.eqb key summary with
  | Some v => v
  | None => default
  end.

(** The fitting loop of [compare_did_models]: one DiD fit per candidate
    covariate set, numbered from [i]. *)
Fixpoint fit_candidates `{RegressionBackbone} (df : list DidRow)
    (cluster_col : option (DidRow -> string)) (i : nat)
    (candidate_covariates : list (list string))
  : result (list (string * R * DiDResult)) :=
  match candidate_covariates with
  | [] => Return []
  | covs :: rest =>
      res <- difference_in_differences df covs cluster_col ;;
      let bic :=
        match dict_get String.eqb "bic" (did_model_summary res) with
        | Some b => b
        | None =>
            (* the summary carries no BIC: fall back to the AIC entry *)
            dict_get_default "aic" 0 (did_model_summary res)
        end in
      tmp <- fit_candidates df cluster_col (S i) rest ;;
      Return ((("did_spec_" ++ str_of_N (N.of_nat (S i)))%string, bic, res) :: tmp)
  end.

Definition compare_did_models `{RegressionBackbone} (df : list DidRow)
    (candidate_covariates : list (list string))
    (cluster_col : option (DidRow -> string)) : result (list ModelScore) :=
  tmp <- fit_candidates df cluster_col 0 candidate_covariates ;;
  let bics := map (fun t => snd (fst t)) tmp in
  ws <- bic_weights bics ;;
  let scores :=
    map (fun tw =>
           let '(name, bic, res, w) := tw in
           {| ms_name := name;
              ms_bic := bic;
              ms_n := dict_get_default "n" 0 (did_model_summary res);
              ms_k := dict_get_default "k" 0 (did_model_summary res);
              ms_weight := w;
              ms_att := att res;
              ms_p_value := did_p_value res |})
        (combine tmp ws) in
  Return (sorted (fun a b => Rleb (ms_weight b) (ms_weight a)) scores).

(** ** models/did_diagnostics.py: event_study_preperiod_joint_test *)

Record PrePeriodJointTestResult : Type := {
  k_values : list Z;
  f_stat : R;
  jt_p_value : R;
  df_denom : pyfloat;
  df_num : R
}.

(** [[max(1e-12, min(1.0, float(p_by_k[k]))) for k in ks]]; a missing key
    raises [KeyError]. *)
Fixpoint clamped_pvalues (p_by_k : list (Z * R)) (ks : list Z)
  : result (list R) :=
  match ks with
  | [] => Return []
  | k :: ks' =>
      match dict_get Z.eqb k p_by_k with
      | None => Raise "KeyError"
      | Some p =>
          ps <- clamped_pvalues p_by_k ks' ;;
          Return (Rmax 1e-12 (Rmin 1 p) :: ps)
      end
  end.

(** [chi2_cdf x df] stands for [scipy.stats.chi2.cdf(x, df=df)]. *)
Definition event_study_preperiod_joint_test (chi2_cdf : R -> R -> R)
    (coef_by_k p_by_k : list (Z * R)) (k_pre_max : Z)
  : result PrePeriodJointTestResult :=
  let ks :=
    sorted Z.leb (filter (fun k => (k <=? k_pre_max)%Z) (keys coef_by_k)) in
  match ks with
  | [] => Raise "No pre-period coefficients available for joint test."
  | _ :: _ =>
      ps <- clamped_pvalues p_by_k ks ;;
      let stat := -2 * Rsum (map ln ps) in
      let df_num := 2 * INR (length ps) in
      let p := 1 - chi2_cdf stat df_num in
      Return {| k_values := ks;
                f_stat := stat;
                jt_p_value := p;
                df_denom := NaN;
                df_num := df_num |}
  end.

(** ** assistant/robustness.py: synthetic_control_placebos *)

(** One record of the placebo sweep: a result or a per-trial error. *)
Inductive PlaceboRecord : Type :=
| PlaceboResult (placebo_treated : string) (pre_rmse post_gap_mean : pyfloat)
| PlaceboError (placebo_treated : string) (error : string).

Definition placebo_unit (rec : PlaceboRecord) : string :=
  match rec with
  | PlaceboResult u _ _ => u
  | PlaceboError u _ => u
  end.

Definition synthetic_control_placebos (df : Panel)
    (intervention_time treated_unit : string) : list PlaceboRecord :=
  let units := sorted String.leb (unique (map p_unit df)) in
  map (fun u =>
         match synthetic_control df u intervention_time None with
         | Return r => PlaceboResult u (sc_pre_rmse r) (sc_post_gap_mean r)
         | Raise e => PlaceboError u e
         end)
      units.

(** ** models/synth_opt.py: donor_pool_search *)

Inductive TrialRecord : Type :=
| Trial (step donors_n : nat) (candidate_added : string)
        (pre_rmse post_gap_mean : pyfloat)
| FallbackSmallPrePeriod (pre_times_n : nat).

Record DonorSearchResult : Type := {
  best : SyntheticControlResult;
  tried : list TrialRecord
}.

(** State of one greedy step while it scans the candidates:
    [best_step], [best_step_rmse], [best_step_res] and the trial log. *)
Definition StepState : Type :=
  (option string * pyfloat * option SyntheticControlResult * list TrialRecord)%type.

(** State of the greedy loop: [selected], [best_res], [best_rmse] and the
    trial log. *)
Definition SearchState : Type :=
  (list string * option SyntheticControlResult * pyfloat * list TrialRecord)%type.

Section DonorSearch.
Variable d : Panel.
Variables treated_unit intervention_time : string.
Variable candidates : list string.

(** The inner loop [for u in candidates] of greedy step [step]. *)
Fixpoint try_candidates (cands : list string) (selected : list string)
    (step : nat) (st : StepState) : result StepState :=
  match cands with
  | [] => Return st
  | u :: rest =>
      if str_mem u selected then try_candidates rest selected step st
      else
        let '(best_step, best_step_rmse, best_step_res, tried) := st in
        let donors := selected ++ [u] in
        res <- synthetic_control d treated_unit intervention_time (Some donors) ;;
        let tried :=
          tried ++ [Trial (step + 1) (length donors) u
                          (sc_pre_rmse res) (sc_post_gap_mean res)] in
        if flt (sc_pre_rmse res) best_step_rmse then
          try_candidates rest selected step
            (Some u, sc_pre_rmse res, Some res, tried)
        else
          try_candidates rest selected step
            (best_step, best_step_rmse, best_step_res, tried)
  end.

(** The outer loop [for step in range(...)]; returning before the list of
    steps is exhausted is a [break]. *)
Fixpoint greedy (steps : list nat) (st : SearchState) : result SearchState :=
  match steps with
  | [] => Return st
  | step :: rest =>
      let '(selected, best_res, best_rmse, tried) := st in
      sst <- try_candidates candidates selected step (None, PInf, None, tried) ;;
      let '(best_step, best_step_rmse, best_step_res, tried) := sst in
      match best_step with
      | None => Return (selected, best_res, best_rmse, tried)
      | Some u =>
          let selected := selected ++ [u] in
          let '(best_rmse, best_res) :=
            if flt best_step_rmse best_rmse then (best_step_rmse, best_step_res)
            else (best_rmse, best_res) in
          (* Early stop if improvement is tiny *)
          if (2 <=? step)%nat
             && flt (fabs (fsub best_step_rmse best_rmse)) (Fin 1e-6)
          then Return (selected, best_res, best_rmse, tried)
          else greedy rest (selected, best_res, best_rmse, tried)
      end
  end.

End DonorSearch.

(** [range(n)] for a Python integer [n]. *)
Definition range0 (n : Z) : list nat := seq 0 (Z.to_nat n).

Definition donor_pool_search (df : Panel) (treated_unit intervention_time : string)
    (max_donors top_k_candidates : Z) : result DonorSearchResult :=
  let all_donors :=
    sorted String.leb
      (filter (fun u => negb (String.eqb u treated_unit))
              (unique (map p_unit df))) in
  let pre_times :=
    filter (fun t => String.ltb t intervention_time) (all_times df) in
  if (length pre_times <? 6)%nat then
    base <- synthetic_control df treated_unit intervention_time None ;;
    Return {| best := base;
              tried := [FallbackSmallPrePeriod (length pre_times)] |}
  else if duplicate_labels df treated_unit
          || existsb (duplicate_labels df) all_donors
  then
    (* [series] of the treated unit, then of every donor in turn *)
    Raise "cannot reindex on an axis with duplicate labels"
  else
    let series := fun u => _series df u pre_times in
    let yt := series treated_unit in
    let scored :=
      map (fun u =>
             let xu := series u in
             let c :=
               if Rltb (std xu) 1e-9 || Rltb (std yt) 1e-9 then 0
               else corrcoef yt xu in
             (u, c))
          all_donors in
    let scored := sorted (fun a b => Rleb (snd b) (snd a)) scored in
    let n_keep :=
      Z.to_nat (Z.max 1 (Z.min top_k_candidates (Z.of_nat (length scored)))) in
    let candidates := map fst (firstn n_keep scored) in
    let steps :=
      range0 (Z.min max_donors (Z.of_nat (length candidates))) in
    st <- greedy df treated_unit intervention_time candidates steps
                 ([], None, PInf, []) ;;
    let '(selected, best_res, best_rmse, tried) := st in
    match best_res with
    | Some res => Return {| best := res; tried := tried |}
    | None =>
        let n5 :=
          Z.to_nat (Z.max 1 (Z.min 5 (Z.of_nat (length candidates)))) in
        res <- synthetic_control df treated_unit intervention_time
                 (Some (firstn n5 candidates)) ;;
        Return {| best := res; tried := tried |}
    end.

(* ================================================================= *)
(** * Part I, continued: the remaining functions of the core          *)
(* ================================================================= *)

(** ** assistant/robustness.py: the bandwidth and cutoff sweeps *)

Inductive BandwidthRecord : Type :=
| BandwidthResult (bandwidth discontinuity p_value : R) (n : nat)
| BandwidthError (bandwidth : R) (error : string).

Definition rdd_bandwidth_sensitivity `{RegressionBackbone} (df : list RDRow)
    (cutoff : R) (bandwidths : list R) (x_cols : list string)
  : list BandwidthRecord :=
  map (fun bw =>
         match regression_discontinuity df cutoff bw x_cols with
         | Return r =>
             BandwidthResult bw (discontinuity r) (rdd_p_value r) (rdd_n r)
         | Raise e => BandwidthError bw e
         end)
      bandwidths.

Inductive CutoffRecord : Type :=
| CutoffResult (cutoff : string) (level_change p_level slope_change p_slope : R)
| CutoffError (cutoff : string) (error : string).

Definition placebo_its_cutoffs `{RegressionBackbone} (ts : list TSRow)
    (cutoffs : list string) : list CutoffRecord :=
  map (fun c =>
         match interrupted_time_series ts c [] (Some 3%Z) with
         | Return r =>
             CutoffResult c (level_change r) (p_level r)
                          (slope_change r) (p_slope r)
         | Raise e => CutoffError c e
         end)
      cutoffs.

(** ** models/did_diagnostics.py: parallel_trends_pretest *)

Record ParallelTrendsResult : Type := {
  pt_coef : R;
  pt_p_value : R;
  pt_n : nat;
  pt_r2 : R
}.

(** [{m: i for i, m in enumerate(months)}]. *)
Definition enumerate_index (months : list string) : list (string * nat) :=
  dict_of String.eqb (combine months (seq 0 (length months))).

(** [pre[time_col].map(idx).astype(float)] for one row; a month without
    entry would map to NaN, which cannot happen for a row of [pre]. *)
Definition trend_of (idx : list (string * nat)) (r : DidRow) : R :=
  match dict_get String.eqb (d_time r) idx with
  | Some i => INR i
  | None => 0
  end.

(** The trend column is modelled under its default name [_trend]. *)
Definition parallel_trends_pretest `{RegressionBackbone} (df : list DidRow)
    (intervention_time : string) (x_cols : list string)
    (cluster_col : option (DidRow -> string)) : result ParallelTrendsResult :=
  let pre := filter (fun r => String.ltb (d_time r) intervention_time) df in
  if (length pre <? 10)%nat then
    Raise "Not enough pre-period observations for parallel trends test."
  else
    let months := sorted String.leb (unique (map d_time pre)) in
    let idx := enumerate_index months in
    let rhs :=
      [("treated", fun r => b2r (d_treated r));
       ("_trend", trend_of idx);
       ("_int", fun r => b2r (d_treated r) * trend_of idx r)]
        ++ covariates x_cols in
    let m := ols_fixed_effects pre rhs in
    let m := with_cluster pre cluster_col m in
    idx_int <- index_of "_int" (exog_names m) ;;
    c <- getitem (params m) idx_int ;;
    p <- getitem (pvalues m) idx_int ;;
    Return {| pt_coef := c;
              pt_p_value := p;
              pt_n := nobs m;
              pt_r2 := rsquared m |}.

(** ** models/sensitivity.py: covariate_set_sensitivity *)

Record SensitivityRun : Type := {
  run_covariates : list string;
  run_att : R;
  run_p_value : R;
  run_summary : list (string * R)
}.

Record CovariateSensitivityResult : Type := {
  base_covariates : list string;
  runs : list SensitivityRun
}.

(** [itertools.combinations(l, r)], in the order the iterator yields. *)
Fixpoint combinations (l : list string) (r : nat) : list (list string) :=
  match r with
  | O => [[]]
  | S r' =>
      match l with
      | [] => []
      | x :: l' => map (cons x) (combinations l' r') ++ combinations l' r
      end
  end.

(** The inner loop [for comb in combinations(base, r)]: append, and stop
    as soon as the budget is reached. *)
Fixpoint append_until (combs : list (list string))
    (cov_sets : list (list string)) (max_models : Z) : list (list string) :=
  match combs with
  | [] => cov_sets
  | comb :: rest =>
      let cov_sets := cov_sets ++ [comb] in
      if (max_models <=? Z.of_nat (length cov_sets))%Z then cov_sets
      else append_until rest cov_sets max_models
  end.

(** The outer loop [for r in range(1, min(3, len(base)) + 1)]. *)
Fixpoint append_sizes (sizes : list nat) (base : list string)
    (cov_sets : list (list string)) (max_models : Z) : list (list string) :=
  match sizes with
  | [] => cov_sets
  | r :: rest =>
      let cov_sets := append_until (combinations base r) cov_sets max_models in
      if (max_models <=? Z.of_nat (length cov_sets))%Z then cov_sets
      else append_sizes rest base cov_sets max_models
  end.

Definition list_string_eqb (a b : list string) : bool :=
  if list_eq_dec string_dec a b then true else false.

(** The de-duplication loop; [seen] holds the keys [tuple(sorted(cs))]. *)
Fixpoint uniq_cov_sets (seen : list (list string))
    (cov_sets : list (list string)) : list (list string) :=
  match cov_sets with
  | [] => []
  | cs :: rest =>
      let key := sorted String.leb cs in
      if existsb (list_string_eqb key) seen then uniq_cov_sets seen rest
      else cs :: uniq_cov_sets (key :: seen) rest
  end.

(** [l[:n]] for a Python integer [n]. *)
Definition slice_to {A} (n : Z) (l : list A) : list A :=
  if (0 <=? n)%Z then firstn (Z.to_nat n) l
  else firstn (length l - Z.to_nat (- n)) l.

Definition candidate_cov_sets (base_covariates : list string) (max_models : Z)
  : list (list string) :=
  let base := unique base_covariates in
  let cov_sets :=
    [[]; base]
      ++ map (fun drop => filter (fun c => negb (String.eqb c drop)) base) base in
  let cov_sets :=
    if (Z.of_nat (length cov_sets) <? max_models)%Z then
      append_sizes (seq 1 (Nat.min 3 (length base))) base cov_sets max_models
    else cov_sets in
  slice_to max_models (uniq_cov_sets [] cov_sets).

(** The fitting loop over the retained covariate sets. *)
Fixpoint sensitivity_runs `{RegressionBackbone} (df : list DidRow)
    (cluster_col : option (DidRow -> string)) (cov_sets : list (list string))
  : result (list SensitivityRun) :=
  match cov_sets with
  | [] => Return []
  | cs :: rest =>
      res <- difference_in_differences df cs cluster_col ;;
      rs <- sensitivity_runs df cluster_col rest ;;
      Return ({| run_covariates := cs;
                 run_att := att res;
                 run_p_value := did_p_value res;
                 run_summary := did_model_summary res |} :: rs)
  end.

Definition covariate_set_sensitivity `{RegressionBackbone} (df : list DidRow)
    (base_covariates : list string) (cluster_col : option (DidRow -> string))
    (max_models : Z) : result CovariateSensitivityResult :=
  rs <- sensitivity_runs df cluster_col
          (candidate_cov_sets base_covariates max_models) ;;
  Return {| base_covariates := unique base_covariates; runs := rs |}.

(** ** assistant/orchestrator.py: the bandwidth sweep of the causal suite *)

(** [ts.assign(_t=np.arange(len(ts)))] read with [running_col="_t"]: the
    running variable of a row is its position in the frame. *)
Definition assign_t (ts : list RDRow) : list RDRow :=
  map (fun ir => {| rd_running := INR (fst ir);
                    rd_y := rd_y (snd ir);
                    rd_cov := rd_cov (snd ir) |})
      (combine (seq 0 (length ts)) ts).

(** The entry [rdd_bandwidth_sweep] of the robustness block: the cutoff is
    the middle position; the bandwidths and the covariates are fixed. *)
Definition rdd_bandwidth_sweep `{RegressionBackbone} (ts : list RDRow)
  : list BandwidthRecord :=
  rdd_bandwidth_sensitivity (assign_t ts) (INR (length ts / 2))
                            [3; 6; 9; 12]
                            ["unrest_count"; "unrest_intensity"].

(** ** assistant/orchestrator_phase6.py, orchestrator_phase8.py: the DiD frame *)

(** [{m: i for i, m in enumerate(sorted(months))}]. *)
Definition _month_index (months : list string) : list (string * nat) :=
  enumerate_index (sorted String.leb months).

(** [col.map(idx).astype(int)]: a value without an index becomes NaN, which
    the cast to [int] rejects. *)
Fixpoint map_index (idx : list (string * nat)) (col : list string)
  : result (list nat) :=
  match col with
  | [] => Return []
  | m :: rest =>
      match dict_get String.eqb m idx with
      | None => Raise "ValueError: cannot convert float NaN to integer"
      | Some i =>
          ks <- map_index idx rest ;;
          Return (i :: ks)
      end
  end.

(** The frame [did_df] of [run_phase8_rigor]: the columns [treated], [post]
    and [event_k] are assigned on a copy of the panel. *)
Definition did_df (d : list DidRow) (treated_country intervention_month : string)
  : result (list DidRow) :=
  let months := sorted String.leb (unique (map d_time d)) in
  let idx := enumerate_index months in
  ks <- map_index idx (map d_time d) ;;
  match dict_get String.eqb intervention_month idx with
  | None => Raise "KeyError"
  | Some i0 =>
      Return
        (map (fun rk =>
                {| d_unit := d_unit (fst rk);
                   d_time := d_time (fst rk);
                   d_y := d_y (fst rk);
                   d_treated := String.eqb (d_unit (fst rk)) treated_country;
                   d_post := String.leb intervention_month (d_time (fst rk));
                   d_event_time := (Z.of_nat (snd rk) - Z.of_nat i0)%Z;
                   d_cov := d_cov (fst rk) |})
             (combine d ks))
  end.

(** ** utils/stats_utils.py: benjamini_hochberg *)

(** [np.minimum.accumulate(q)]. *)
Fixpoint minimum_accumulate_from (m : R) (q : list R) : list R :=
  match q with
  | [] => []
  | x :: q' => Rmin m x :: minimum_accumulate_from (Rmin m x) q'
  end.

Definition minimum_accumulate (q : list R) : list R :=
  match q with
  | [] => []
  | x :: q' => x :: minimum_accumulate_from x q'
  end.

(** [np.clip(x, lo, hi)]. *)
Definition clip (lo hi x : R) : R := Rmin hi (Rmax lo x).

(** [out[i] = v]. *)
Fixpoint list_set (out : list R) (i : nat) (v : R) : list R :=
  match out, i with
  | [], _ => []
  | _ :: out', O => v :: out'
  | x :: out', S i' => x :: list_set out' i' v
  end.

(** [out[order] = q]: the assignments are made position by position. *)
Definition scatter (out : list R) (order : list nat) (q : list R) : list R :=
  fold_left (fun o iv => list_set o (fst iv) (snd iv)) (combine order q) out.

(** [argsort] stands for [np.argsort]; the initial content of
    [np.empty_like(q)] is arbitrary and written as zeros. *)
Definition benjamini_hochberg (argsort : list R -> list nat)
    (pvals : list R) : list R :=
  let p := pvals in
  let n := length p in
  if (n =? 0)%nat then []
  else
    let order := argsort p in
    let ranked := map (fun i => nth i p 0) order in
    let q :=
      map (fun rk => fst rk * INR n / INR (snd rk))
          (combine ranked (seq 1 n)) in
    let q := rev (minimum_accumulate (rev q)) in
    let q := map (clip 0 1) q in
    scatter (repeat 0 n) order q.

(** ** Vocabulary of the statements *)

(** Every observed period is at or after the intervention time. *)
Definition no_pre_period (d : Panel) (intervention_time : string) : Prop :=
  forall r, In r d -> String.leb intervention_time (p_time r) = true.

(** The offsets that receive a dummy regressor in [event_study]. *)
Definition es_offsets (k_min k_max omit_k : Z) : list Z :=
  filter (fun k => negb (k =? omit_k)%Z) (range k_min (k_max + 1)).

(** The unnormalised weight of a model with BIC [b]. *)
Definition raw_weight (bmin b : R) : R := exp (-0.5 * (b - bmin)).

(** A p-value as it enters the Fisher statistic. *)
Definition clamp_p (p : R) : R := Rmax 1e-12 (Rmin 1 p).

(** The least-squares routine does not depend on the order of the
    observations: permuting the rows of the design together with the
    response leaves the coefficients unchanged.  Least squares in exact
    arithmetic has this property; a binary64 routine has it only up to
    rounding. *)
Definition row_order_independent `{RegressionBackbone} : Prop :=
  forall p (obs obs' : list (list R * R)),
    Permutation obs obs' ->
    sm_params p (map fst obs) (map snd obs)
    = sm_params p (map fst obs') (map snd obs').

(** The observations of a fitted model: design rows with their response. *)
Definition observations (m : OLSResults) : list (list R * R) :=
  combine (exog m) (endog m).

(** The numeric terms of the formula of [difference_in_differences]. *)
Definition did_terms (x_cols : list string) : list (string * (DidRow -> R)) :=
  [("treated", fun r => b2r (d_treated r));
   ("post", fun r => b2r (d_post r));
   ("_int", fun r => b2r (d_treated r) * b2r (d_post r))]
    ++ covariates x_cols.

(** The scores [compare_did_models] builds, one per fitted candidate and in
    the order of the candidates, before it sorts them. *)
Definition candidate_scores (tmp : list (string * R * DiDResult))
    (ws : list R) : list ModelScore :=
  map (fun tw =>
         let '(name, bic, res, w) := tw in
         {| ms_name := name;
            ms_bic := bic;
            ms_n := dict_get_default "n" 0 (did_model_summary res);
            ms_k := dict_get_default "k" 0 (did_model_summary res);
            ms_weight := w;
            ms_att := att res;
            ms_p_value := did_p_value res |})
      (combine tmp ws).

(** The score has weight [w]. *)
Definition has_weight (w : R) (s : ModelScore) : bool :=
  if Req_dec_T (ms_weight s) w then true else false.

(** The rows of the frame strictly before the intervention period. *)
Definition pre_period (df : list DidRow) (intervention_time : string)
  : list DidRow :=
  filter (fun r => String.ltb (d_time r) intervention_time) df.

(** The numeric terms of the pre-trend regression on the frame [pre]. *)
Definition pretest_rhs (pre : list DidRow) (x_cols : list string)
  : list (string * (DidRow -> R)) :=
  let idx := enumerate_index (sorted String.leb (unique (map d_time pre))) in
  [("treated", fun r => b2r (d_treated r)); ("_trend", trend_of idx);
   ("_int", fun r => b2r (d_treated r) * trend_of idx r)] ++ covariates x_cols.


(** The sets that are always offered: the empty set, the full set and the
    leave-one-out sets. *)
Definition core_cov_sets (base : list string) : list (list string) :=
  [[]; base]
    ++ map (fun drop => filter (fun c => negb (String.eqb c drop)) base) base.

(** The frame with the running variable measured from another origin. *)
Definition shift_running (c : R) (r : RDRow) : RDRow :=
  {| rd_running := rd_running r + c; rd_y := rd_y r; rd_cov := rd_cov r |}.

(** Invariant of the inner loop of the donor search at a step that started
    from [selected]: a recorded best candidate is a candidate outside
    [selected], and its fit used [selected] plus that candidate. *)
Definition step_ok (has_pre : Prop) (allc selected : list string)
    (st : StepState) : Prop :=
  let '(best_step, best_step_rmse, best_step_res, _) := st in
  match best_step, best_step_res with
  | None, None => True
  | Some u, Some r =>
      In u allc /\ ~ In u selected /\
      sc_donor_units r = selected ++ [u] /\
      (has_pre -> exists x, best_step_rmse = Fin x)
  | _, _ => False
  end.

(** Invariant of the greedy loop after at most [k] steps. *)
Definition search_ok (has_pre : Prop) (allc : list string) (k : nat)
    (st : SearchState) : Prop :=
  let '(selected, best_res, best_rmse, tried) := st in
  NoDup selected /\ incl selected allc /\
  (length selected <= k)%nat /\
  (length tried <= k * length allc)%nat /\
  match best_res with
  | None => best_rmse = PInf /\ (has_pre -> selected = [])
  | Some r =>
      NoDup (sc_donor_units r) /\ incl (sc_donor_units r) allc /\
      sc_donor_units r <> [] /\ (length (sc_donor_units r) <= k)%nat
  end.

(** The numeric terms of the event-study regression: the treatment
    indicator, one interaction per kept offset, and the covariates. *)
Definition event_terms (k_min k_max omit_k : Z) (x_cols : list string)
  : list (string * (DidRow -> R)) :=
  let ks := filter (fun k => negb (k =? omit_k)%Z) (range k_min (k_max + 1)) in
  [("treated", fun r => b2r (d_treated r))]
    ++ map (fun k =>
              (_kname k,
               fun r => b2r (d_event_time r =? k)%Z * b2r (d_treated r)))
           ks
    ++ covariates x_cols.

(** The number of entries of [months] strictly before [m]. *)
Definition rank (months : list string) (m : string) : nat :=
  length (filter (fun x => String.ltb x m) months).

(** What [np.argsort] promises for the vector [p]: a rearrangement of the
    positions of [p] along which the values ascend.  The order among equal
    values is left open. *)
Definition argsorts (argsort : list R -> list nat) (p : list R) : Prop :=
  Permutation (argsort p) (seq 0 (length p)) /\
  Sorted Rle (map (fun i => nth i p 0) (argsort p)).

(** The q-values of [benjamini_hochberg] in sorted order, as a function of
    the sorted p-values [ranked]. *)
Definition bh_sorted_q (ranked : list R) : list R :=
  map (clip 0 1)
      (rev (minimum_accumulate
              (rev (map (fun rk =>
                           fst rk * INR (length ranked) / INR (snd rk))
                        (combine ranked (seq 1 (length ranked))))))).

(** ** Example data *)

(** A two-unit, two-period panel with constant outcomes [ya] and [yb]. *)
Definition demo_panel (ya yb : R) : Panel :=
  [ {| p_unit := "A"; p_time := "2020-01"; p_y := Some ya |};
    {| p_unit := "B"; p_time := "2020-01"; p_y := Some yb |};
    {| p_unit := "A"; p_time := "2020-02"; p_y := Some ya |};
    {| p_unit := "B"; p_time := "2020-02"; p_y := Some yb |} ]%string.



(** Least squares through the normal equations for a design whose Gram
    matrix is diagonal: coefficient [i] is [b_i / G_ii].  Inference is not
    modelled: every p-value is reported as 1 and the summary statistics as
    0.  The instance is used only to run the estimators on concrete
    frames. *)
Definition diagonal_solve (G : list (list R)) (b : list R) : list R :=
  map (fun ib => snd ib / nth (fst ib) (nth (fst ib) G []) 0)
      (combine (seq 0 (length b)) b).

Definition diagonal_params (p : nat) (X : list (list R)) (y : list R)
  : list R :=
  diagonal_solve (XtX p X) (Xty p X y).

Lemma diagonal_solve_length G b : length (diagonal_solve G b) = length b.
Proof.
  unfold diagonal_solve.
  rewrite length_map, length_combine, length_seq. apply Nat.min_id.
Qed.

Lemma diagonal_params_length p X y : length (diagonal_params p X y) = p.
Proof.
  unfold diagonal_params. rewrite diagonal_solve_length.
  unfold Xty. now rewrite length_map, length_seq.
Qed.

Instance diagonal_backbone : RegressionBackbone := {|
  sm_params := diagonal_params;
  sm_pvalues := fun _ p _ _ => repeat 1 p;
  sm_rsquared := fun _ _ => 0;
  sm_aic := fun _ _ => 0;
  sm_bic := fun _ _ => 0;
  sm_params_length := diagonal_params_length;
  sm_pvalues_length := fun _ p _ _ => repeat_length 1 p
|}.





Definition demo_ts : list TSRow :=
  [ {| ts_time := "2020-01"; ts_y := 1; ts_cov := fun _ => 0 |};
    {| ts_time := "2020-02"; ts_y := 2; ts_cov := fun _ => 0 |};
    {| ts_time := "2020-03"; ts_y := 4; ts_cov := fun _ => 0 |} ].

(** Twenty observations at running value 1 and one at running value 9. *)
Definition demo_rd : list RDRow :=
  repeat {| rd_running := 1; rd_y := 1; rd_cov := fun _ => 0 |} 20
  ++ [ {| rd_running := 9; rd_y := 1; rd_cov := fun _ => 0 |} ].

Definition demo_did : list DidRow :=
  [ {| d_unit := "A"; d_time := "2020-01"; d_y := 1; d_treated := true;
       d_post := false; d_event_time := (-1)%Z; d_cov := fun _ => 0 |};
    {| d_unit := "B"; d_time := "2020-01"; d_y := 1; d_treated := false;
       d_post := false; d_event_time := (-1)%Z; d_cov := fun _ => 0 |};
    {| d_unit := "A"; d_time := "2020-02"; d_y := 6; d_treated := true;
       d_post := true; d_event_time := 0%Z; d_cov := fun _ => 0 |};
    {| d_unit := "B"; d_time := "2020-02"; d_y := 1; d_treated := false;
       d_post := true; d_event_time := 0%Z; d_cov := fun _ => 0 |} ].

(** The chi-squared distribution function for two degrees of freedom,
    [1 - exp(-x/2)]; it stands in for [scipy.stats.chi2.cdf] on inputs with
    a single combined p-value. *)
Definition chi2_cdf_df2 (x df : R) : R := 1 - exp (- x / 2).

(** A treated unit [T] with constant outcome 1 and four donors [D1..D4];
    donor [Dj] has outcome 6 in the [j]-th month and 0 otherwise.  Six
    months precede the intervention month 2020-07. *)
Definition spike_months : list string :=
  ["2020-01"; "2020-02"; "2020-03"; "2020-04"; "2020-05"; "2020-06";
   "2020-07"].

Definition spike_donors : list (nat * string) :=
  [(1%nat, "D1"); (2%nat, "D2"); (3%nat, "D3"); (4%nat, "D4")].

Definition spike_panel : Panel :=
  flat_map
    (fun im =>
       {| p_unit := "T"; p_time := snd im; p_y := Some 1 |}
       :: map (fun ju =>
                 {| p_unit := snd ju; p_time := snd im;
                    p_y := Some (if Nat.eqb (fst im) (fst ju) then 6 else 0) |})
              spike_donors)
    (combine (seq 1 7) spike_months).

(** On the spike panel the fit on [L] returns with pre-period RMSE
    [sqrt q]. *)
Definition spike_fit (L : list string) (q : R) : Prop :=
  exists r,
    synthetic_control spike_panel "T" "2020-07" (Some L) = Return r /\
    sc_pre_rmse r = Fin (sqrt q) /\ sc_donor_units r = L.

(** Two units over six pre-intervention months and one later month. *)
Definition pretrend_months : list string :=
  ["2020-01"; "2020-02"; "2020-03"; "2020-04"; "2020-05"; "2020-06";
   "2020-07"].

Definition pretrend_did : list DidRow :=
  flat_map
    (fun m =>
       [ {| d_unit := "A"; d_time := m; d_y := 1; d_treated := true;
            d_post := String.leb "2020-07" m; d_event_time := 0%Z;
            d_cov := fun _ => 0 |};
         {| d_unit := "B"; d_time := m; d_y := 2; d_treated := false;
            d_post := String.leb "2020-07" m; d_event_time := 0%Z;
            d_cov := fun _ => 0 |} ])
    pretrend_months.

(** The row of unit [u] in month [m] of the frame [pretrend_did]. *)
Definition pretrend_row (u m : string) : DidRow :=
  {| d_unit := u; d_time := m; d_y := if String.eqb u "A" then 1 else 2;
     d_treated := String.eqb u "A";
     d_post := String.leb "2020-07" m; d_event_time := 0%Z;
     d_cov := fun _ => 0 |}.

(** A stable argsort: positions in ascending order of value, equal values
    in order of position. *)
Definition stable_argsort (p : list R) : list nat :=
  map fst (sorted (fun a b => Rleb (snd a) (snd b))
                  (combine (seq 0 (length p)) p)).
(* ================================================================= *)
(** * Part II: properties                                             *)
(* ================================================================= *)

(** ** Lists, sums and dictionaries *)

Lemma Rltb_true x y : Rltb x y = true <-> x < y.
Proof. unfold Rltb; destruct (Rlt_dec x y); split; intros; try easy. Qed.

Lemma Rltb_false x y : Rltb x y = false <-> y <= x.
Proof.
  unfold Rltb; destruct (Rlt_dec x y); split; intros; try easy; lra.
Qed.

Lemma Rleb_true x y : Rleb x y = true <-> x <= y.
Proof. unfold Rleb; destruct (Rle_dec x y); split; intros; try easy. Qed.

Lemma Rsum_nonneg l : Forall (fun x => 0 <= x) l -> 0 <= Rsum l.
Proof. induction 1; simpl; lra. Qed.

Lemma Rsum_scale c l : Rsum (map (fun x => x / c) l) = Rsum l / c.
Proof.
  induction l as [|x l IH]; simpl.
  - unfold Rdiv; lra.
  - rewrite IH; unfold Rdiv; lra.
Qed.

Lemma Rsum_repeat x n : Rsum (repeat x n) = INR n * x.
Proof.
  induction n as [|n IH].
  - simpl; lra.
  - rewrite S_INR; simpl repeat; simpl Rsum; rewrite IH; lra.
Qed.

Lemma Rsum_perm l l' : Permutation l l' -> Rsum l = Rsum l'.
Proof. induction 1; simpl; lra. Qed.

Section DictFacts.
Context {K V : Type} (eqb : K -> K -> bool).
Hypothesis eqb_spec : forall x y, reflect (x = y) (eqb x y).

Lemma dict_set_keys k (v : V) d :
  forall k', In k' (keys (dict_set eqb k v d)) <-> k' = k \/ In k' (keys d).
Proof.
  induction d as [|[k0 v0] d IH]; simpl; intros k'.
  - intuition.
  - destruct (eqb_spec k k0) as [->|Hne]; simpl.
    + intuition.
    + rewrite IH. intuition.
Qed.

Lemma dict_set_In k (v : V) d k' v' :
  In (k', v') (dict_set eqb k v d) -> (k', v') = (k, v) \/ In (k', v') d.
Proof.
  induction d as [|[k0 v0] d IH]; simpl.
  - intuition.
  - destruct (eqb_spec k k0) as [->|Hne]; simpl; intuition.
Qed.

Lemma dict_set_fresh k (v : V) d :
  ~ In k (keys d) -> dict_set eqb k v d = d ++ [(k, v)].
Proof.
  induction d as [|[k0 v0] d IH]; simpl; intros Hn; [reflexivity|].
  destruct (eqb_spec k k0) as [->|Hne]; [tauto|].
  rewrite IH; tauto.
Qed.

Lemma dict_fold_keys (kvs acc : list (K * V)) k :
  In k (keys (fold_left (fun d kv => dict_set eqb (fst kv) (snd kv) d) kvs acc))
  <-> In k (keys acc) \/ In k (map fst kvs).
Proof.
  revert acc; induction kvs as [|[k0 v0] kvs IH]; simpl; intros acc.
  - tauto.
  - rewrite IH, dict_set_keys. intuition.
Qed.

Lemma dict_fold_In (kvs acc : list (K * V)) kv :
  In kv (fold_left (fun d kv => dict_set eqb (fst kv) (snd kv) d) kvs acc)
  -> In kv acc \/ In kv kvs.
Proof.
  revert acc; induction kvs as [|[k0 v0] kvs IH]; simpl; intros acc H.
  - tauto.
  - apply IH in H. destruct H as [H|H]; [|tauto].
    destruct kv as [k' v']. apply dict_set_In in H. intuition.
Qed.

Lemma dict_fold_nodup (kvs acc : list (K * V)) :
  NoDup (map fst kvs) ->
  (forall k, In k (map fst kvs) -> ~ In k (keys acc)) ->
  fold_left (fun d kv => dict_set eqb (fst kv) (snd kv) d) kvs acc
  = acc ++ kvs.
Proof.
  revert acc; induction kvs as [|[k0 v0] kvs IH]; simpl; intros acc Hnd Hdis.
  - now rewrite app_nil_r.
  - inversion Hnd as [|? ? Hk0 Hnd']; subst.
    rewrite dict_set_fresh by (apply Hdis; now left).
    rewrite IH; auto.
    + now rewrite <- app_assoc.
    + intros k Hk Hin. unfold keys in Hin. rewrite map_app in Hin.
      apply in_app_or in Hin. destruct Hin as [Hin|Hin].
      * apply (Hdis k); auto.
      * simpl in Hin. destruct Hin as [<-|[]]. contradiction.
Qed.

Lemma dict_of_keys (kvs : list (K * V)) k :
  In k (keys (dict_of eqb kvs)) <-> In k (map fst kvs).
Proof. unfold dict_of. rewrite dict_fold_keys. simpl. tauto. Qed.

Lemma dict_of_In (kvs : list (K * V)) kv :
  In kv (dict_of eqb kvs) -> In kv kvs.
Proof. unfold dict_of. intros H. apply dict_fold_In in H. simpl in H. tauto. Qed.

Lemma dict_of_nodup (kvs : list (K * V)) :
  NoDup (map fst kvs) -> dict_of eqb kvs = kvs.
Proof. intros H. unfold dict_of. rewrite dict_fold_nodup; auto. Qed.

End DictFacts.

Lemma combine_fst {A B} (l : list A) (l' : list B) :
  length l = length l' -> map fst (combine l l') = l.
Proof.
  revert l'; induction l as [|x l IH]; intros [|y l']; simpl; try easy.
  intros H. f_equal. apply IH. lia.
Qed.

Lemma combine_snd {A B} (l : list A) (l' : list B) :
  length l = length l' -> map snd (combine l l') = l'.
Proof.
  revert l'; induction l as [|x l IH]; intros [|y l']; simpl; try easy.
  intros H. f_equal. apply IH. lia.
Qed.

(** ** [sorted] and [unique] *)

Section SortingFacts.
Context {A : Type} (le : A -> A -> bool).

Lemma insert_sorted_perm x l : Permutation (insert_sorted le x l) (x :: l).
Proof.
  induction l as [|y l IH]; simpl; [reflexivity|].
  destruct (le x y); [reflexivity|].
  rewrite IH. apply perm_swap.
Qed.

Lemma sorted_perm l : Permutation (sorted le l) l.
Proof.
  induction l as [|x l IH]; simpl; [reflexivity|].
  rewrite insert_sorted_perm. now constructor.
Qed.

Lemma sorted_In l x : In x (sorted le l) <-> In x l.
Proof.
  split; apply Permutation_in; [|symmetry]; apply sorted_perm.
Qed.

Lemma sorted_nodup l : NoDup l -> NoDup (sorted le l).
Proof. apply Permutation_NoDup. symmetry. apply sorted_perm. Qed.

Hypothesis le_total : forall x y, le x y = true \/ le y x = true.

Lemma insert_sorted_Sorted x l :
  Sorted (fun a b => le a b = true) l ->
  Sorted (fun a b => le a b = true) (insert_sorted le x l).
Proof.
  induction 1 as [|y l Hs IH Hhd]; simpl.
  - repeat constructor.
  - destruct (le x y) eqn:E.
    + repeat constructor; auto.
    + constructor; auto.
      destruct l as [|z l]; simpl in *.
      * constructor. destruct (le_total x y); congruence.
      * destruct (le x z); constructor.
        -- destruct (le_total x y); congruence.
        -- now inversion Hhd.
Qed.

Lemma sorted_Sorted l : Sorted (fun a b => le a b = true) (sorted le l).
Proof.
  induction l as [|x l IH]; simpl; [constructor|].
  now apply insert_sorted_Sorted.
Qed.

End SortingFacts.

Lemma str_mem_In s l : str_mem s l = true <-> In s l.
Proof.
  unfold str_mem. rewrite existsb_exists. split.
  - intros [x [Hx He]]. apply String.eqb_eq in He. now subst.
  - intros H. exists s. split; [assumption | apply String.eqb_refl].
Qed.

Lemma unique_from_In seen l x :
  In x (unique_from seen l) <-> In x l /\ ~ In x seen.
Proof.
  revert seen; induction l as [|y l IH]; simpl; intros seen.
  - tauto.
  - destruct (str_mem y seen) eqn:E.
    + apply str_mem_In in E. rewrite IH. split.
      * tauto.
      * intros [[->|H] Hn]; tauto.
    + assert (Hy : ~ In y seen).
      { intros H. apply str_mem_In in H. congruence. }
      simpl. rewrite IH. simpl. split.
      * intros [->|[H Hn]]; tauto.
      * intros [[->|H] Hn]; [tauto|].
        destruct (string_dec y x) as [->|Hne]; [tauto|]. right. tauto.
Qed.

Lemma unique_from_nodup seen l : NoDup (unique_from seen l).
Proof.
  revert seen; induction l as [|y l IH]; simpl; intros seen.
  - constructor.
  - destruct (str_mem y seen); [apply IH|].
    constructor; [|apply IH].
    rewrite unique_from_In. simpl. tauto.
Qed.

Lemma unique_In l x : In x (unique l) <-> In x l.
Proof. unfold unique. rewrite unique_from_In. simpl. tauto. Qed.

Lemma unique_nodup l : NoDup (unique l).
Proof. apply unique_from_nodup. Qed.

(** ** The projected-gradient loop *)

Lemma vsub_length a b : length (vsub a b) = Nat.min (length a) (length b).
Proof. unfold vsub. now rewrite length_map, length_combine. Qed.

Lemma sc_step_length XpreT Xpre Y w :
  length w = length XpreT -> length (sc_step XpreT Xpre Y w) = length XpreT.
Proof.
  intros H. unfold sc_step.
  destruct (Rlt_dec _ _); repeat rewrite length_map;
    rewrite vsub_length; unfold vscale, matvec; repeat rewrite length_map; lia.
Qed.

Lemma sc_step_nonneg XpreT Xpre Y w :
  Forall (fun x => 0 <= x) (sc_step XpreT Xpre Y w).
Proof.
  unfold sc_step.
  set (w1 := vsub w _).
  assert (Hc : Forall (fun x => 0 <= x) (map (Rmax 0) w1)).
  { apply Forall_forall. intros x Hx. apply in_map_iff in Hx.
    destruct Hx as [z [<- _]]. apply Rmax_l. }
  destruct (Rlt_dec 0 (Rsum (map (Rmax 0) w1))) as [Hs|Hs]; [|exact Hc].
  apply Forall_forall. intros x Hx. apply in_map_iff in Hx.
  destruct Hx as [z [<- Hz]].
  rewrite Forall_forall in Hc. specialize (Hc z Hz).
  apply Rmult_le_pos; [assumption|].
  left. now apply Rinv_0_lt_compat.
Qed.

Lemma sc_step_simplex XpreT Xpre Y w :
  0 < Rsum (sc_step XpreT Xpre Y w) -> Rsum (sc_step XpreT Xpre Y w) = 1.
Proof.
  unfold sc_step.
  set (w2 := map (Rmax 0) _).
  destruct (Rlt_dec 0 (Rsum w2)) as [Hs|Hs]; [|tauto].
  intros _. rewrite Rsum_scale. field. lra.
Qed.

Lemma iter_length {A} (f : list A -> list A) (n : N) (k : nat) (w : list A) :
  (forall v, length v = k -> length (f v) = k) ->
  length w = k -> length (N.iter n f w) = k.
Proof. intros Hf Hw. apply N.iter_invariant; auto. Qed.

Lemma sc_fit_weights_unfold d tu it donors :
  sc_fit_weights d tu it donors =
  let pre_times := filter (fun t => String.ltb t it) (all_times d) in
  let XpreT := map (fun u => _series d u pre_times) donors in
  sc_step XpreT (transpose (length pre_times) XpreT) (_series d tu pre_times)
    (N.iter 3999 (sc_step XpreT (transpose (length pre_times) XpreT)
                    (_series d tu pre_times))
       (repeat (1 / INR (length donors)) (length donors))).
Proof.
  unfold sc_fit_weights. cbv zeta.
  change 4000%N with (N.succ 3999). now rewrite N.iter_succ.
Qed.

Lemma sc_fit_weights_length d tu it donors :
  length (sc_fit_weights d tu it donors) = length donors.
Proof.
  unfold sc_fit_weights.
  set (XpreT := map _ donors).
  replace (length donors) with (length XpreT) at 3
    by (unfold XpreT; now rewrite length_map).
  apply iter_length.
  - intros v Hv. now apply sc_step_length.
  - unfold XpreT. now rewrite repeat_length, length_map.
Qed.

Lemma sc_fit_weights_nonneg d tu it donors :
  Forall (fun x => 0 <= x) (sc_fit_weights d tu it donors).
Proof. rewrite sc_fit_weights_unfold. apply sc_step_nonneg. Qed.

Lemma sc_fit_weights_simplex d tu it donors :
  0 < Rsum (sc_fit_weights d tu it donors) ->
  Rsum (sc_fit_weights d tu it donors) = 1.
Proof. rewrite sc_fit_weights_unfold. apply sc_step_simplex. Qed.

Lemma sc_donors_default_nodup d tu : NoDup (sc_donors d tu None).
Proof.
  unfold sc_donors. apply sorted_nodup, NoDup_filter, unique_nodup.
Qed.

Lemma sc_donors_default_excludes d tu : ~ In tu (sc_donors d tu None).
Proof.
  unfold sc_donors. rewrite sorted_In, filter_In.
  intros [_ H]. now rewrite String.eqb_refl in H.
Qed.

Lemma synthetic_control_inv d tu it du r :
  synthetic_control d tu it du = Return r ->
  sc_donors d tu du <> [] /\
  sc_donor_units r = sc_donors d tu du /\
  sc_weights r =
    dict_of String.eqb (combine (sc_donors d tu du)
                                (sc_fit_weights d tu it (sc_donors d tu du))).
Proof.
  unfold synthetic_control.
  destruct (duplicate_labels d tu || existsb (duplicate_labels d)
                                             (sc_donors d tu du))%bool;
    [discriminate|].
  destruct (sc_donors d tu du) as [|u us] eqn:E; [discriminate|].
  intros H.
  assert (Hr : forall x y : SyntheticControlResult, Return x = Return y -> x = y)
    by (intros x y Hxy; congruence).
  apply Hr in H. subst r. cbn [sc_donor_units sc_weights].
  repeat split. discriminate.
Qed.

(** A fit that returns has read no series with a repeated period. *)
Lemma synthetic_control_guard d tu it du r :
  synthetic_control d tu it du = Return r ->
  duplicate_labels d tu = false /\
  forall u, In u (sc_donors d tu du) -> duplicate_labels d u = false.
Proof.
  unfold synthetic_control.
  destruct (duplicate_labels d tu || existsb (duplicate_labels d)
                                             (sc_donors d tu du))%bool eqn:G;
    [discriminate|].
  intros _. apply orb_false_iff in G. destruct G as [G1 G2].
  split; [exact G1|]. intros u Hu.
  destruct (duplicate_labels d u) eqn:E; [|reflexivity].
  assert (Ht : existsb (duplicate_labels d) (sc_donors d tu du) = true)
    by (apply existsb_exists; now exists u).
  congruence.
Qed.

Lemma has_duplicates_NoDup l : has_duplicates l = false <-> NoDup l.
Proof.
  induction l as [|x l IH]; simpl.
  - split; [constructor | reflexivity].
  - rewrite orb_false_iff, IH. split.
    + intros [Hx Hl]. constructor; [|exact Hl].
      intros Hin. apply (proj2 (str_mem_In x l)) in Hin. congruence.
    + intros Hnd. inversion Hnd as [|? ? Hx Hl]; subst. split; [|exact Hl].
      destruct (str_mem x l) eqn:E; [|reflexivity].
      apply str_mem_In in E. contradiction.
Qed.

(** A panel is keyed exactly when no unit has a repeated period. *)
Lemma keyed_duplicate_labels d :
  keyed d <-> forall u, duplicate_labels d u = false.
Proof.
  unfold keyed, duplicate_labels. split.
  - intros Hk u. apply has_duplicates_NoDup.
    induction d as [|r d IH]; [constructor|].
    cbn [map] in Hk. inversion Hk as [|? ? Hr Hd]; subst.
    cbn [filter]. destruct (String.eqb_spec (p_unit r) u) as [Hu|Hu];
      [|now apply IH].
    cbn [map]. constructor; [|now apply IH].
    intros Hin. apply Hr. apply in_map_iff in Hin.
    destruct Hin as [r' [Ht Hin']]. apply filter_In in Hin'.
    destruct Hin' as [Hin' Hu']. apply String.eqb_eq in Hu'.
    apply in_map_iff. exists r'. split; [|exact Hin']. congruence.
  - intros Hall.
    induction d as [|r d IH]; [constructor|].
    cbn [map]. constructor.
    + intros Hin. apply in_map_iff in Hin. destruct Hin as [r' [Hk Hin']].
      inversion Hk as [[Hu Ht]].
      pose proof (proj1 (has_duplicates_NoDup _) (Hall (p_unit r))) as Hnd.
      cbn [filter] in Hnd. rewrite String.eqb_refl in Hnd. cbn [map] in Hnd.
      inversion Hnd as [|? ? Hnot _]; subst. apply Hnot.
      apply in_map_iff. exists r'. split; [exact Ht|].
      apply filter_In. split; [exact Hin'|]. now apply String.eqb_eq.
    + apply IH. intros u.
      pose proof (proj1 (has_duplicates_NoDup _) (Hall u)) as Hnd.
      apply has_duplicates_NoDup.
      cbn [filter] in Hnd. destruct (String.eqb (p_unit r) u); [|exact Hnd].
      cbn [map] in Hnd. now inversion Hnd.
Qed.

Lemma keyed_reindex d tu donors :
  keyed d ->
  (duplicate_labels d tu || existsb (duplicate_labels d) donors)%bool = false.
Proof.
  intros Hk. pose proof (proj1 (keyed_duplicate_labels d) Hk) as Hall.
  rewrite Hall. cbn [orb].
  induction donors as [|u us IH]; [reflexivity|].
  cbn [existsb]. now rewrite Hall, IH.
Qed.

Lemma sc_weights_keys d tu it du r :
  synthetic_control d tu it du = Return r ->
  forall u, In u (keys (sc_weights r)) <-> In u (sc_donors d tu du).
Proof.
  intros H u. apply synthetic_control_inv in H. destruct H as [_ [_ ->]].
  rewrite (dict_of_keys _ String.eqb_spec), combine_fst; [tauto|].
  now rewrite sc_fit_weights_length.
Qed.

Lemma sc_weights_nodup d tu it du r :
  synthetic_control d tu it du = Return r ->
  NoDup (sc_donors d tu du) ->
  sc_weights r = combine (sc_donors d tu du)
                         (sc_fit_weights d tu it (sc_donors d tu du)).
Proof.
  intros H Hnd. apply synthetic_control_inv in H. destruct H as [_ [_ ->]].
  apply (dict_of_nodup _ String.eqb_spec). rewrite combine_fst; [assumption|].
  now rewrite sc_fit_weights_length.
Qed.

(** C1 (as amended).  Whenever [synthetic_control] returns, every weight is
    non-negative and the keys of the weight mapping are exactly the donors
    used; the treated unit is a key only if the caller listed it in
    [donor_units]; and the weights sum to 1 whenever the donor list has no
    repeated unit (which the default donor list never has) and the weights
    are not all zero. *)
Theorem synthetic_control_weights_simplex d tu it du r :
  synthetic_control d tu it du = Return r ->
  (forall u v, In (u, v) (sc_weights r) -> 0 <= v) /\
  (forall u, In u (keys (sc_weights r)) <-> In u (sc_donor_units r)) /\
  (In tu (keys (sc_weights r)) -> exists us, du = Some us /\ In tu us) /\
  (du = None -> NoDup (sc_donor_units r)) /\
  (NoDup (sc_donor_units r) -> 0 < Rsum (values (sc_weights r)) ->
   Rsum (values (sc_weights r)) = 1).
Proof.
  intros H.
  pose proof (synthetic_control_inv _ _ _ _ _ H) as [Hne [Hd Hw]].
  repeat split.
  - intros u v Hin. rewrite Hw in Hin. apply (dict_of_In _ String.eqb_spec) in Hin.
    apply in_combine_r in Hin.
    pose proof (sc_fit_weights_nonneg d tu it (sc_donors d tu du)) as Hnn.
    rewrite Forall_forall in Hnn. now apply Hnn.
  - rewrite Hd. now apply (sc_weights_keys d tu it du r).
  - rewrite Hd. now apply (sc_weights_keys d tu it du r).
  - intros Hk. apply (sc_weights_keys d tu it du r H) in Hk.
    destruct du as [[|u us]|].
    + exfalso. now apply (sc_donors_default_excludes d tu).
    + exists (u :: us). split; [reflexivity | exact Hk].
    + exfalso. now apply (sc_donors_default_excludes d tu).
  - intros ->. rewrite Hd. apply sc_donors_default_nodup.
  - rewrite Hd. intros Hnd.
    rewrite (sc_weights_nodup d tu it du r H Hnd).
    unfold values. rewrite combine_snd by (now rewrite sc_fit_weights_length).
    apply sc_fit_weights_simplex.
Qed.


(** ** Evaluating the fit on concrete panels *)

Lemma N_iter_fixed {A} (f : A -> A) z n : f z = z -> N.iter n f z = z.
Proof. intros H. apply N.iter_invariant; congruence. Qed.

Lemma N_iter_enter {A} (f : A -> A) x z n :
  f x = z -> f z = z -> N.iter (N.succ n) f x = z.
Proof. intros H1 H2. rewrite N.iter_succ_r, H1. now apply N_iter_fixed. Qed.

(** If the first pass maps the uniform start to [z] and [z] is a fixed
    point of a pass, the 4000 passes end in [z]. *)
Lemma sc_fit_weights_eval d tu it donors pre XT Y z :
  filter (fun t => String.ltb t it) (all_times d) = pre ->
  map (fun u => _series d u pre) donors = XT ->
  _series d tu pre = Y ->
  sc_step XT (transpose (length pre) XT) Y
    (repeat (1 / INR (length donors)) (length donors)) = z ->
  sc_step XT (transpose (length pre) XT) Y z = z ->
  sc_fit_weights d tu it donors = z.
Proof.
  intros <- <- <- H1 H2. unfold sc_fit_weights. cbv zeta.
  change 4000%N with (N.succ 3999). now apply N_iter_enter.
Qed.

Ltac Rmax_calc :=
  repeat match goal with
  | |- context [Rmax ?a ?b] =>
      first [ rewrite (Rmax_right a b) by lra | rewrite (Rmax_left a b) by lra ]
  end.

Ltac Rif_calc :=
  repeat match goal with
  | |- context [Rlt_dec ?a ?b] =>
      destruct (Rlt_dec a b); [ try (exfalso; lra) | try (exfalso; lra) ]
  end.

Ltac sc_step_calc :=
  unfold sc_step, transpose, vsub, vscale, matvec, dot, Rsum, lr; cbn;
  Rmax_calc; Rif_calc; cbn; repeat (f_equal; try lra; try field).

(** With one donor whose single pre-period outcome is 4 and a treated unit
    whose outcome is 0, the first gradient step drives the only weight
    below zero; clipping sets it to 0, the guard [s > 0] skips the
    normalisation, and 0 is a fixed point of every later pass. *)
Lemma sc_fit_weights_all_zero :
  sc_fit_weights (demo_panel 0 4) "A" "2020-02" ["B"] = [0].
Proof.
  eapply sc_fit_weights_eval; [reflexivity | reflexivity | reflexivity | |];
    sc_step_calc.
Qed.

Lemma synthetic_control_zero_weights :
  exists r, synthetic_control (demo_panel 0 4) "A" "2020-02" None = Return r /\
            sc_weights r = [("B", 0)].
Proof.
  eexists. split; [reflexivity|].
  cbn [sc_weights].
  change (sc_donors (demo_panel 0 4) "A" None) with ["B"].
  now rewrite sc_fit_weights_all_zero.
Qed.

Lemma sc_fit_weights_single_donor :
  sc_fit_weights (demo_panel 1 1) "A" "2020-02" ["B"] = [1].
Proof.
  eapply sc_fit_weights_eval; [reflexivity | reflexivity | reflexivity | |];
    sc_step_calc.
Qed.

(** C1, witness: the default donor pool on the two-unit panel.  The only
    donor is [B]; its weight is non-negative, the weights sum to 1 and the
    treated unit [A] is not a key. *)
Lemma synthetic_control_weights_simplex_witness :
  exists r,
    synthetic_control (demo_panel 1 1) "A" "2020-02" None = Return r /\
    (forall u v, In (u, v) (sc_weights r) -> 0 <= v) /\
    Rsum (values (sc_weights r)) = 1 /\
    ~ In "A" (keys (sc_weights r)).
Proof.
  eexists. split; [reflexivity|].
  match goal with
  | |- context [sc_weights ?r] =>
      pose proof (synthetic_control_weights_simplex
                    (demo_panel 1 1) "A" "2020-02" None r eq_refl)
        as [Hnn [_ [Hk [Hnd Hsum]]]]
  end.
  split; [exact Hnn|]. split.
  - apply Hsum; [now apply Hnd|].
    cbn [sc_weights].
    change (sc_donors (demo_panel 1 1) "A" None) with ["B"].
    rewrite sc_fit_weights_single_donor. simpl. lra.
  - intros Hin. destruct (Hk Hin) as [us [Hus _]]. discriminate.
Defined.

(** C1, counterexample: a caller-supplied donor list may name the treated
    unit, and then the treated unit is a key of the weight mapping. *)
Lemma synthetic_control_treated_key_counterexample :
  ~ (forall r,
       synthetic_control (demo_panel 1 1) "A" "2020-02" (Some ["A"; "B"])
         = Return r ->
       (forall u v, In (u, v) (sc_weights r) -> 0 <= v) /\
       Rabs (Rsum (values (sc_weights r)) - 1) <= 1e-6 /\
       ~ In "A" (keys (sc_weights r))).
Proof.
  intros H.
  destruct (H _ eq_refl) as [_ [_ Hk]]. apply Hk.
  apply (sc_weights_keys (demo_panel 1 1) "A" "2020-02" (Some ["A"; "B"]) _ eq_refl).
  simpl. now left.
Qed.

(** ** String order *)

Lemma string_leb_ltb a b : String.leb a b = true -> String.ltb b a = false.
Proof.
  unfold String.leb, String.ltb. rewrite (String.compare_antisym b a).
  destruct (String.compare a b); simpl; congruence.
Qed.

Lemma string_ltb_leb a b : String.ltb a b = false -> String.leb b a = true.
Proof.
  unfold String.leb, String.ltb. rewrite (String.compare_antisym b a).
  destruct (String.compare a b); simpl; congruence.
Qed.

Lemma filter_none {A} (f : A -> bool) l :
  (forall x, In x l -> f x = false) -> filter f l = [].
Proof.
  induction l as [|x l IH]; simpl; intros H; [reflexivity|].
  rewrite (H x) by now left. apply IH. intros y Hy. apply H. now right.
Qed.

Lemma filter_all {A} (f : A -> bool) l :
  (forall x, In x l -> f x = true) -> filter f l = l.
Proof.
  induction l as [|x l IH]; simpl; intros H; [reflexivity|].
  rewrite (H x) by now left. f_equal. apply IH. intros y Hy. apply H. now right.
Qed.

Lemma all_times_In d t : In t (all_times d) <-> exists r, In r d /\ p_time r = t.
Proof.
  unfold all_times. rewrite sorted_In, unique_In, in_map_iff.
  split; intros [r [H1 H2]]; exists r; tauto.
Qed.

(** ** The empty pre-period *)

Lemma no_pre_period_pre d it :
  no_pre_period d it -> filter (fun t => String.ltb t it) (all_times d) = [].
Proof.
  intros H. apply filter_none. intros t Ht.
  apply all_times_In in Ht. destruct Ht as [r [Hr <-]].
  apply string_leb_ltb. now apply H.
Qed.

Lemma no_pre_period_post d it :
  no_pre_period d it ->
  filter (fun t => String.leb it t) (all_times d) = all_times d.
Proof.
  intros H. apply filter_all. intros t Ht.
  apply all_times_In in Ht. destruct Ht as [r [Hr <-]]. now apply H.
Qed.

Lemma combine_repeat {A B} (a : A) (b : B) n :
  combine (repeat a n) (repeat b n) = repeat (a, b) n.
Proof. induction n; simpl; congruence. Qed.

Lemma map_const_repeat {A B} (b : B) (l : list A) :
  map (fun _ => b) l = repeat b (length l).
Proof. induction l; simpl; congruence. Qed.

(** With no pre-period the gradient vanishes, so a pass leaves the uniform
    weights unchanged. *)
Lemma sc_step_no_pre n :
  (0 < n)%nat ->
  sc_step (repeat [] n) [] [] (repeat (1 / INR n) n) = repeat (1 / INR n) n.
Proof.
  intros Hn.
  assert (Hpos : 0 < INR n) by (apply lt_0_INR; lia).
  assert (Hu : 0 < 1 / INR n) by (apply Rdiv_lt_0_compat; lra).
  unfold sc_step, matvec, vscale, vsub.
  repeat rewrite map_repeat.
  rewrite combine_repeat. repeat rewrite map_repeat. simpl fst; simpl snd.
  replace (Rmax 0 (1 / INR n - lr * (dot [] [] / 1))) with (1 / INR n).
  2:{ unfold dot, lr. simpl. rewrite Rmax_right; lra. }
  rewrite Rsum_repeat.
  replace (INR n * (1 / INR n)) with 1 by (field; lra).
  destruct (Rlt_dec 0 1); [|lra].
  f_equal. lra.
Qed.

Lemma sc_fit_weights_no_pre d tu it donors :
  no_pre_period d it -> donors <> [] ->
  sc_fit_weights d tu it donors
  = repeat (1 / INR (length donors)) (length donors).
Proof.
  intros Hnp Hne. unfold sc_fit_weights.
  rewrite (no_pre_period_pre d it Hnp). cbv zeta.
  unfold _series at 1 2. cbn [map ffill fillna length].
  rewrite map_const_repeat. unfold transpose. cbn [seq map].
  apply N_iter_fixed. apply sc_step_no_pre.
  destruct donors; [congruence | simpl; lia].
Qed.

(** ** Interrupted time series and regression discontinuity *)

Lemma Xty_length p X y : length (Xty p X y) = p.
Proof. unfold Xty. now rewrite length_map, length_seq. Qed.

Lemma OLS_fit_params_length `{RegressionBackbone} names X y :
  length (params (OLS_fit names X y)) = length names.
Proof. simpl. apply sm_params_length. Qed.

Lemma OLS_fit_pvalues_length `{RegressionBackbone} names X y :
  length (pvalues (OLS_fit names X y)) = length names.
Proof. simpl. now rewrite sm_pvalues_length. Qed.

Lemma robustcov_params `{RegressionBackbone} m c :
  params (get_robustcov_results m c) = params m.
Proof. reflexivity. Qed.

Lemma robustcov_pvalues_length `{RegressionBackbone} m c :
  length (pvalues (get_robustcov_results m c)) = length (exog_names m).
Proof. simpl. now rewrite sm_pvalues_length. Qed.

Lemma existsb_id_false (l : list bool) :
  existsb (fun b => b) l = false <-> forall b, In b l -> b = false.
Proof.
  induction l as [|a l IH]; simpl.
  - split; [intros _ b [] | reflexivity].
  - rewrite orb_false_iff, IH. split.
    + intros [-> H] b [<-|Hb]; auto.
    + intros H. split; [apply H; now left | intros b Hb; apply H; now right].
Qed.

(** The guard of [interrupted_time_series] fires exactly when every row
    lies strictly before the intervention time. *)
Lemma its_guard (df : list TSRow) it :
  existsb (fun b => b)
    (map (fun r => String.leb it (ts_time r))
         (sorted (fun a b => String.leb (ts_time a) (ts_time b)) df)) = false
  <-> forall r, In r df -> String.ltb (ts_time r) it = true.
Proof.
  rewrite existsb_id_false. split.
  - intros H r Hr.
    destruct (String.ltb (ts_time r) it) eqn:E; [reflexivity|].
    apply string_ltb_leb in E. rewrite <- E. symmetry. apply H.
    apply in_map_iff. exists r. split; [reflexivity|].
    now apply sorted_In.
  - intros H b Hb. apply in_map_iff in Hb. destruct Hb as [r [<- Hr]].
    apply sorted_In in Hr. specialize (H r Hr).
    destruct (String.leb it (ts_time r)) eqn:E; [|reflexivity].
    apply string_leb_ltb in E. congruence.
Qed.

Lemma its_model_lengths `{RegressionBackbone} d t0 x_cols hac_lags :
  length (params (its_model d t0 x_cols hac_lags)) = (4 + length x_cols)%nat /\
  length (pvalues (its_model d t0 x_cols hac_lags)) = (4 + length x_cols)%nat.
Proof.
  unfold its_model. cbv zeta.
  destruct hac_lags as [lags|]; [destruct (0 <? lags)%Z|];
    rewrite ?robustcov_params, ?robustcov_pvalues_length,
            ?OLS_fit_params_length, ?OLS_fit_pvalues_length;
    split; reflexivity.
Qed.

Lemma nth_error_nth_total (l : list R) i :
  (i < length l)%nat -> getitem l i = Return (nth i l 0).
Proof.
  intros H. unfold getitem. now rewrite (nth_error_nth' l 0 H).
Qed.

Lemma its_returns `{RegressionBackbone} df it x_cols hac_lags :
  (exists r, In r df /\ String.leb it (ts_time r) = true) ->
  let d := sorted (fun a b => String.leb (ts_time a) (ts_time b)) df in
  let m := its_model d (first_true (map (fun r => String.leb it (ts_time r)) d))
                     x_cols hac_lags in
  interrupted_time_series df it x_cols hac_lags =
  Return {| level_change := nth 2 (params m) 0;
            slope_change := nth 3 (params m) 0;
            p_level := nth 2 (pvalues m) 0;
            p_slope := nth 3 (pvalues m) 0;
            its_n := nobs m;
            its_r2 := rsquared m;
            its_aic := aic m;
            its_bic := bic m |}.
Proof.
  intros [r [Hr Hle]] d m. unfold interrupted_time_series.
  destruct (existsb _ _) eqn:E.
  2:{ pose proof (proj1 (its_guard df it) E r Hr) as E'.
      apply string_leb_ltb in Hle. congruence. }
  cbn [negb]. fold d. fold m.
  destruct (its_model_lengths d
              (first_true (map (fun r => String.leb it (ts_time r)) d))
              x_cols hac_lags) as [Hp Hq].
  fold m in Hp, Hq.
  change (index_of "_post" (its_columns x_cols)) with (@Return nat 2%nat).
  change (index_of "_t_post" (its_columns x_cols)) with (@Return nat 3%nat).
  cbn [bind].
  rewrite !nth_error_nth_total by lia. reflexivity.
Qed.

Lemma its_raises `{RegressionBackbone} df it x_cols hac_lags :
  (forall r, In r df -> String.ltb (ts_time r) it = true) ->
  interrupted_time_series df it x_cols hac_lags
  = Raise "intervention_time is after all observations.".
Proof.
  intros Hall. unfold interrupted_time_series.
  apply (proj2 (its_guard df it)) in Hall. now rewrite Hall.
Qed.

(** C4 (as amended).  [interrupted_time_series] raises exactly when every
    observation lies strictly before the intervention time (no row is at
    or after it; the empty frame included).  As soon as one observed period
    is at or after the intervention time it returns the coefficients and
    p-values of the [_post] (level change) and [_t_post] (slope change)
    columns of the fitted model. *)
Theorem interrupted_time_series_raises_iff `{RegressionBackbone}
    df it x_cols hac_lags :
  ((exists msg, interrupted_time_series df it x_cols hac_lags = Raise msg) <->
   (forall r, In r df -> String.ltb (ts_time r) it = true)) /\
  ((exists r, In r df /\ String.leb it (ts_time r) = true) ->
   let d := sorted (fun a b => String.leb (ts_time a) (ts_time b)) df in
   let m := its_model d (first_true (map (fun r => String.leb it (ts_time r)) d))
                      x_cols hac_lags in
   exists res,
     interrupted_time_series df it x_cols hac_lags = Return res /\
     level_change res = nth 2 (params m) 0 /\
     slope_change res = nth 3 (params m) 0 /\
     p_level res = nth 2 (pvalues m) 0 /\
     p_slope res = nth 3 (pvalues m) 0).
Proof.
  split.
  - split.
    + intros [msg Hm] r Hr.
      destruct (String.ltb (ts_time r) it) eqn:E; [reflexivity|].
      apply string_ltb_leb in E.
      rewrite (its_returns df it x_cols hac_lags) in Hm by eauto.
      discriminate.
    + intros Hall. eexists. now apply its_raises.
  - intros Hex d m. eexists. split; [now apply its_returns|].
    repeat split.
Qed.

(** C4, counterexample: an intervention time equal to the last observed
    period is at or after every observation, yet the call returns. *)
Lemma interrupted_time_series_last_period_counterexample :
  ~ ((exists msg,
        interrupted_time_series demo_ts "2020-03" [] (Some 3%Z) = Raise msg)
     <-> (forall r, In r demo_ts -> String.leb (ts_time r) "2020-03" = true)).
Proof.
  intros [_ Hraise].
  destruct Hraise as [msg Hm].
  - intros r [<-|[<-|[<-|[]]]]; reflexivity.
  - rewrite (its_returns demo_ts "2020-03" [] (Some 3%Z)) in Hm.
    + discriminate.
    + exists {| ts_time := "2020-03"; ts_y := 4; ts_cov := fun _ => 0 |}.
      split; [simpl; tauto | reflexivity].
Qed.

Lemma rdd_window_length df cutoff bandwidth :
  length (rdd_window df cutoff bandwidth)
  = length (filter (fun r => Rleb (Rabs (rd_running r - cutoff)) bandwidth) df).
Proof.
  unfold rdd_window. induction df as [|r df IH]; simpl; [reflexivity|].
  destruct (Rleb _ _); simpl; now rewrite IH.
Qed.

Lemma rdd_model_lengths `{RegressionBackbone} d x_cols :
  length (params (rdd_model d x_cols)) = (4 + length x_cols)%nat /\
  length (pvalues (rdd_model d x_cols)) = (4 + length x_cols)%nat.
Proof.
  unfold rdd_model. cbv zeta.
  rewrite OLS_fit_params_length, OLS_fit_pvalues_length. split; reflexivity.
Qed.

(** C5.  [regression_discontinuity] raises exactly when fewer than 20
    observations have a centred running variable of absolute value at most
    the bandwidth; with at least 20 of them it returns the coefficient and
    the p-value of the [_treat] column of the local linear fit. *)
Theorem regression_discontinuity_min_observations `{RegressionBackbone}
    df cutoff bandwidth x_cols :
  let inside :=
    filter (fun r => Rleb (Rabs (rd_running r - cutoff)) bandwidth) df in
  ((exists msg,
      regression_discontinuity df cutoff bandwidth x_cols = Raise msg)
   <-> (length inside < 20)%nat) /\
  ((20 <= length inside)%nat ->
   let m := rdd_model (rdd_window df cutoff bandwidth) x_cols in
   exists res,
     regression_discontinuity df cutoff bandwidth x_cols = Return res /\
     discontinuity res = nth 2 (params m) 0 /\
     rdd_p_value res = nth 2 (pvalues m) 0).
Proof.
  intros inside.
  assert (Hlen : length (rdd_window df cutoff bandwidth) = length inside)
    by apply rdd_window_length.
  assert (Hret : (20 <= length inside)%nat ->
     let m := rdd_model (rdd_window df cutoff bandwidth) x_cols in
     regression_discontinuity df cutoff bandwidth x_cols =
     Return {| discontinuity := nth 2 (params m) 0;
               rdd_p_value := nth 2 (pvalues m) 0;
               rdd_bandwidth := bandwidth;
               rdd_n := nobs m;
               rdd_r2 := rsquared m;
               rdd_aic := aic m;
               rdd_bic := bic m |}).
  { intros Hge m. unfold regression_discontinuity. cbv zeta.
    destruct (Nat.ltb_spec (length (rdd_window df cutoff bandwidth)) 20);
      [lia|].
    fold m.
    destruct (rdd_model_lengths (rdd_window df cutoff bandwidth) x_cols)
      as [Hp Hq]. fold m in Hp, Hq.
    change (index_of "_treat" (rdd_columns x_cols)) with (@Return nat 2%nat).
    cbn [bind]. rewrite !nth_error_nth_total by lia. reflexivity. }
  split; [split|].
  - intros [msg Hm].
    destruct (Nat.lt_ge_cases (length inside) 20) as [Hlt|Hge]; [exact Hlt|].
    rewrite (Hret Hge) in Hm. discriminate.
  - intros Hlt. unfold regression_discontinuity. cbv zeta.
    destruct (Nat.ltb_spec (length (rdd_window df cutoff bandwidth)) 20);
      [eauto | lia].
  - intros Hge m. eexists. split; [now apply Hret|]. split; reflexivity.
Qed.

Lemma Rleb_Rabs_true x b : - b <= x <= b -> Rleb (Rabs x) b = true.
Proof. intros Hx. apply Rleb_true. apply Rabs_le. lra. Qed.

Lemma Rleb_Rabs_false x b : b < x \/ x < - b -> Rleb (Rabs x) b = false.
Proof.
  intros Hx. unfold Rleb. destruct (Rle_dec (Rabs x) b) as [Hle|]; [|reflexivity].
  exfalso. pose proof (Rle_abs x). pose proof (Rle_abs (- x)) as Hn.
  rewrite Rabs_Ropp in Hn. lra.
Qed.

(** C5, witness: twenty observations inside a bandwidth of 5 are fitted;
    a bandwidth of 1/2 keeps none of them and the call raises. *)
Lemma regression_discontinuity_min_observations_witness :
  (exists res, regression_discontinuity demo_rd 0 5 [] = Return res) /\
  (exists msg, regression_discontinuity demo_rd 0 (1 / 2) [] = Raise msg).
Proof.
  split.
  - destruct (regression_discontinuity_min_observations demo_rd 0 5 [])
      as [_ Hret].
    destruct Hret as [res [Hres _]]; [|exists res; exact Hres].
    unfold demo_rd. rewrite filter_app, length_app.
    rewrite filter_all.
    + rewrite repeat_length. lia.
    + intros r Hr. apply repeat_spec in Hr. subst r. simpl.
      apply Rleb_Rabs_true. lra.
  - apply (proj2 (proj1 (regression_discontinuity_min_observations
                           demo_rd 0 (1 / 2) []))).
    unfold demo_rd. rewrite filter_app, length_app.
    rewrite filter_none.
    + simpl. destruct (Rleb _ _); simpl; lia.
    + intros r Hr. apply repeat_spec in Hr. subst r. simpl.
      apply Rleb_Rabs_false. lra.
Defined.

(** ** The empty pre-period: results *)

Lemma sc_no_pre_result d tu it du :
  keyed d ->
  no_pre_period d it ->
  sc_donors d tu du <> [] ->
  let donors := sc_donors d tu du in
  let w := repeat (1 / INR (length donors)) (length donors) in
  synthetic_control d tu it du =
  Return {| sc_treated_unit := tu;
            sc_donor_units := donors;
            sc_weights := dict_of String.eqb (combine donors w);
            sc_pre_rmse := NaN;
            sc_post_gap_mean :=
              match all_times d with
              | [] => NaN
              | _ =>
                  Fin (mean (vsub (_series d tu (all_times d))
                                  (matvec
                                     (transpose (length (all_times d))
                                        (map (fun u => _series d u (all_times d))
                                             donors))
                                     w)))
              end;
            sc_n_pre := 0;
            sc_n_post := length (all_times d) |}.
Proof.
  intros Hk Hnp Hne donors w. subst donors w. unfold synthetic_control.
  cbv zeta. rewrite (keyed_reindex d tu _ Hk).
  rewrite (sc_fit_weights_no_pre d tu it _ Hnp Hne).
  rewrite (no_pre_period_pre d it Hnp), (no_pre_period_post d it Hnp).
  destruct (sc_donors d tu du) as [|u us]; [congruence|].
  reflexivity.
Qed.

(** C10 (as amended).  On a keyed panel without pre-period and with at
    least one donor, [synthetic_control] returns: every donor carries the
    uniform weight 1/n, [pre_rmse] is NaN and the post-period gap is the
    mean gap under the uniform weights.  The ITS estimator does not raise
    in that situation either: on a non-empty frame whose periods are all
    at or after the intervention time it returns. *)
Theorem synthetic_control_no_pre_period `{RegressionBackbone} d tu it du :
  keyed d ->
  no_pre_period d it ->
  sc_donors d tu du <> [] ->
  let donors := sc_donors d tu du in
  let n := length donors in
  (exists r,
     synthetic_control d tu it du = Return r /\
     (forall u, In u (keys (sc_weights r)) <-> In u donors) /\
     (forall u v, In (u, v) (sc_weights r) -> v = 1 / INR n) /\
     sc_pre_rmse r = NaN /\
     sc_post_gap_mean r =
       match all_times d with
       | [] => NaN
       | _ =>
           Fin (mean (vsub (_series d tu (all_times d))
                           (matvec
                              (transpose (length (all_times d))
                                 (map (fun u => _series d u (all_times d))
                                      donors))
                              (repeat (1 / INR n) n))))
       end) /\
  (forall ts x_cols hac_lags,
     ts <> [] ->
     (forall r, In r ts -> String.leb it (ts_time r) = true) ->
     exists res, interrupted_time_series ts it x_cols hac_lags = Return res).
Proof.
  intros Hk Hnp Hne donors n. split.
  - eexists. split; [now apply sc_no_pre_result|].
    cbn [sc_weights sc_pre_rmse sc_post_gap_mean]. fold donors. fold n.
    split; [|split; [|split; reflexivity]].
    + intros u. rewrite (dict_of_keys _ String.eqb_spec), combine_fst; [tauto|].
      now rewrite repeat_length.
    + intros u v Hin. apply (dict_of_In _ String.eqb_spec), in_combine_r in Hin.
      now apply repeat_spec in Hin.
  - intros ts x_cols hac_lags Hts Hall.
    destruct ts as [|r ts]; [congruence|].
    eexists. apply its_returns. exists r. split; [now left|].
    apply Hall. now left.
Qed.

(** C10, counterexample: on a frame whose periods are all at or after the
    intervention time the ITS estimator does not raise. *)
Lemma interrupted_time_series_no_pre_period_counterexample :
  ~ ((forall r, In r demo_ts -> String.leb "2020-01" (ts_time r) = true) ->
     exists msg,
       interrupted_time_series demo_ts "2020-01" [] (Some 3%Z) = Raise msg).
Proof.
  intros Hclaim. destruct Hclaim as [msg Hm].
  - intros r [<-|[<-|[<-|[]]]]; reflexivity.
  - rewrite (its_returns demo_ts "2020-01" [] (Some 3%Z)) in Hm.
    + discriminate.
    + exists {| ts_time := "2020-01"; ts_y := 1; ts_cov := fun _ => 0 |}.
      split; [simpl; tauto | reflexivity].
Qed.

Lemma demo_panel_keyed ya yb : keyed (demo_panel ya yb).
Proof.
  unfold keyed. simpl.
  repeat constructor; simpl; intuition congruence.
Qed.

(** C10, witness: the two-unit panel with the intervention at its first
    period. *)
Lemma synthetic_control_no_pre_period_witness :
  exists r,
    synthetic_control (demo_panel 1 1) "A" "2020-01" None = Return r /\
    (forall u v, In (u, v) (sc_weights r) -> v = 1 / INR 1) /\
    sc_pre_rmse r = NaN.
Proof.
  destruct (synthetic_control_no_pre_period (demo_panel 1 1) "A" "2020-01" None)
    as [[r [Hr [_ [Hw [Hrmse _]]]]] _].
  - apply demo_panel_keyed.
  - intros r [<-|[<-|[<-|[<-|[]]]]]; reflexivity.
  - discriminate.
  - exists r. repeat split; assumption.
Defined.

(** ** Event study *)

Lemma range_In a b k : In k (range a b) <-> (a <= k < b)%Z.
Proof.
  unfold range. rewrite in_map_iff. split.
  - intros [i [<- Hi]]. apply in_seq in Hi. lia.
  - intros Hk. exists (Z.to_nat (k - a)). split; [lia|].
    apply in_seq. lia.
Qed.

Lemma range_NoDup a b : NoDup (range a b).
Proof.
  unfold range. apply Finite.Injective_map_NoDup; [|apply seq_NoDup].
  intros i j Hij. lia.
Qed.

Lemma es_offsets_In k_min k_max omit_k k :
  In k (es_offsets k_min k_max omit_k) <->
  (k_min <= k <= k_max)%Z /\ k <> omit_k.
Proof.
  unfold es_offsets. rewrite filter_In, range_In, negb_true_iff, Z.eqb_neq.
  lia.
Qed.

Lemma es_offsets_NoDup k_min k_max omit_k :
  NoDup (es_offsets k_min k_max omit_k).
Proof. apply NoDup_filter, range_NoDup. Qed.

Lemma index_of_In name names :
  In name names ->
  exists i, index_of name names = Return i /\ (i < length names)%nat.
Proof.
  induction names as [|n names IH]; simpl; [tauto|].
  intros Hin. destruct (String.eqb_spec n name) as [->|Hne].
  - exists 0%nat. split; [reflexivity | lia].
  - destruct Hin as [->|Hin]; [congruence|].
    destruct (IH Hin) as [i [-> Hi]]. exists (S i). split; [reflexivity | lia].
Qed.

Lemma ols_fixed_effects_names `{RegressionBackbone} d numeric name :
  In name (map fst numeric) ->
  In name (exog_names (ols_fixed_effects d numeric)).
Proof.
  intros Hin. unfold ols_fixed_effects. cbn [exog_names OLS_fit].
  right. apply in_or_app. right. apply in_or_app. now right.
Qed.

Lemma with_cluster_names `{RegressionBackbone} d c m :
  exog_names (with_cluster d c m) = exog_names m.
Proof. destruct c; reflexivity. Qed.

Lemma with_cluster_params `{RegressionBackbone} d c m :
  params (with_cluster d c m) = params m.
Proof. destruct c; reflexivity. Qed.

Lemma fixed_effects_lengths `{RegressionBackbone} d c numeric :
  let m := with_cluster d c (ols_fixed_effects d numeric) in
  length (params m) = length (exog_names m) /\
  length (pvalues m) = length (exog_names m).
Proof.
  cbv zeta. rewrite with_cluster_names, with_cluster_params. split.
  - apply OLS_fit_params_length.
  - destruct c; simpl; now rewrite sm_pvalues_length.
Qed.

(** The collecting loop succeeds when every offset has its column, and it
    adds exactly the offsets, in order, to both mappings. *)
Lemma es_collect_keys (m : OLSResults) ks acc :
  length (params m) = length (exog_names m) ->
  length (pvalues m) = length (exog_names m) ->
  (forall k, In k ks -> In (_kname k) (exog_names m)) ->
  NoDup ks ->
  (forall k, In k ks -> ~ In k (keys (fst acc)) /\ ~ In k (keys (snd acc))) ->
  exists acc',
    es_collect m ks acc = Return acc' /\
    keys (fst acc') = keys (fst acc) ++ ks /\
    keys (snd acc') = keys (snd acc) ++ ks.
Proof.
  intros Hp Hq. revert acc.
  induction ks as [|k ks IH]; intros acc Hnames Hnd Hfresh.
  - exists acc. simpl. now rewrite !app_nil_r.
  - inversion Hnd as [|? ? Hk Hnd']; subst.
    destruct (index_of_In (_kname k) (exog_names m)) as [i [Hi Hlt]];
      [apply Hnames; now left|].
    cbn [es_collect]. rewrite Hi. cbn [bind].
    rewrite !nth_error_nth_total by lia. cbn [bind].
    destruct (Hfresh k (or_introl eq_refl)) as [Hf1 Hf2].
    destruct (IH (dict_set Z.eqb k (nth i (params m) 0) (fst acc),
                  dict_set Z.eqb k (nth i (pvalues m) 0) (snd acc)))
      as [acc' [Hacc [K1 K2]]].
    + intros k' Hk'. apply Hnames. now right.
    + assumption.
    + intros k' Hk'. cbn [fst snd].
      rewrite !(dict_set_keys _ Z.eqb_spec).
      destruct (Hfresh k' (or_intror Hk')) as [G1 G2].
      split; intros [->|G]; tauto.
    + exists acc'. split; [exact Hacc|].
      cbn [fst snd] in K1, K2.
      rewrite (dict_set_fresh _ Z.eqb_spec) in K1, K2 by assumption.
      unfold keys in *. rewrite map_app in K1, K2. cbn [map fst] in K1, K2.
      rewrite <- !app_assoc in K1, K2. split; assumption.
Qed.

Lemma event_study_returns `{RegressionBackbone}
    df k_min k_max omit_k x_cols cluster_col :
  exists r,
    event_study df k_min k_max omit_k x_cols cluster_col = Return r /\
    keys (coef_by_k r) = es_offsets k_min k_max omit_k /\
    keys (p_by_k r) = es_offsets k_min k_max omit_k.
Proof.
  unfold event_study. fold (es_offsets k_min k_max omit_k).
  set (ks := es_offsets k_min k_max omit_k).
  set (rhs := [("treated", _)] ++ _ ++ covariates x_cols).
  destruct (fixed_effects_lengths df cluster_col rhs) as [Hp Hq].
  destruct (es_collect_keys
              (with_cluster df cluster_col (ols_fixed_effects df rhs))
              ks ([], []) Hp Hq) as [acc' [Hacc [K1 K2]]].
  - intros k Hk. rewrite with_cluster_names.
    apply ols_fixed_effects_names. subst rhs.
    rewrite !map_app. apply in_or_app. right. apply in_or_app. left.
    rewrite map_map. cbn [fst]. now apply in_map.
  - apply es_offsets_NoDup.
  - intros k _. simpl. tauto.
  - cbv zeta. rewrite Hacc. cbn [bind]. eexists. split; [reflexivity|].
    cbn [coef_by_k p_by_k]. simpl in K1, K2. split; assumption.
Qed.

(** C6.  Whenever [event_study] returns, both mappings have the same keys:
    the integers of [k_min, k_max] other than [omit_k], each once.  So
    [omit_k] is never a key, and if [omit_k] lies outside the window every
    integer of the window is a key. *)
Theorem event_study_keys `{RegressionBackbone}
    df k_min k_max omit_k x_cols cluster_col r :
  event_study df k_min k_max omit_k x_cols cluster_col = Return r ->
  keys (p_by_k r) = keys (coef_by_k r) /\
  NoDup (keys (coef_by_k r)) /\
  (forall k, In k (keys (coef_by_k r)) <->
             (k_min <= k <= k_max)%Z /\ k <> omit_k) /\
  ~ In omit_k (keys (coef_by_k r)) /\
  (~ (k_min <= omit_k <= k_max)%Z ->
   forall k, (k_min <= k <= k_max)%Z -> In k (keys (coef_by_k r))).
Proof.
  intros Hr.
  destruct (event_study_returns df k_min k_max omit_k x_cols cluster_col)
    as [r' [Hr' [K1 K2]]].
  rewrite Hr in Hr'.
  assert (r = r') by congruence. subst r'.
  rewrite K1, K2.
  split; [reflexivity|].
  split; [apply es_offsets_NoDup|].
  split; [apply es_offsets_In|].
  split.
  - rewrite es_offsets_In. tauto.
  - intros Hout k Hk. apply es_offsets_In. split; [assumption|].
    intros ->. tauto.
Qed.

(** C6, witness: the default baseline [-1] inside the window [-2, 1]. *)
Lemma event_study_keys_witness :
  exists r,
    event_study demo_did (-2) 1 (-1) [] None = Return r /\
    keys (coef_by_k r) = [(-2)%Z; 0%Z; 1%Z] /\
    keys (p_by_k r) = keys (coef_by_k r) /\
    ~ In (-1)%Z (keys (coef_by_k r)).
Proof.
  destruct (event_study_returns demo_did (-2) 1 (-1) [] None)
    as [r [Hr [K1 _]]].
  exists r. split; [exact Hr|]. split; [exact K1|].
  destruct (event_study_keys demo_did (-2) 1 (-1) [] None r Hr)
    as [Hp [_ [_ [Hom _]]]].
  split; assumption.
Defined.

(** ** Row order and the fixed-effects design *)

Lemma ascii_compare_lt_trans a b c :
  Ascii.compare a b = Lt -> Ascii.compare b c = Lt -> Ascii.compare a c = Lt.
Proof.
  unfold Ascii.compare. rewrite !N.compare_lt_iff. lia.
Qed.

Lemma string_leb_trans s1 s2 s3 :
  String.leb s1 s2 = true -> String.leb s2 s3 = true -> String.leb s1 s3 = true.
Proof.
  unfold String.leb. revert s2 s3.
  induction s1 as [|a s1 IH]; intros [|b s2] [|c s3]; simpl; try congruence.
  destruct (Ascii.compare a b) eqn:Eab; try congruence;
    destruct (Ascii.compare b c) eqn:Ebc; try congruence.
  - apply Ascii.compare_eq_iff in Eab, Ebc. subst.
    unfold Ascii.compare. rewrite N.compare_refl. apply IH.
  - apply Ascii.compare_eq_iff in Eab. subst. now rewrite Ebc.
  - apply Ascii.compare_eq_iff in Ebc. subst. now rewrite Eab.
  - now rewrite (ascii_compare_lt_trans a b c Eab Ebc).
Qed.

Section CanonicalSort.
Context {A : Type} (le : A -> A -> bool).
Hypothesis le_total : forall x y, le x y = true \/ le y x = true.
Hypothesis le_antisym : forall x y, le x y = true -> le y x = true -> x = y.
Hypothesis le_trans :
  forall x y z, le x y = true -> le y z = true -> le x z = true.

Lemma strongly_sorted_perm_eq l l' :
  StronglySorted (fun a b => le a b = true) l ->
  StronglySorted (fun a b => le a b = true) l' ->
  Permutation l l' -> l = l'.
Proof.
  intros Hl. revert l'.
  induction Hl as [|x xs Hxs IH Hx]; intros l' Hl' Hp.
  - apply Permutation_nil in Hp. now subst.
  - destruct Hl' as [|y ys Hys Hy].
    + symmetry in Hp. apply Permutation_nil in Hp. discriminate.
    + assert (x = y).
      { assert (Hxin : In x (y :: ys))
          by (apply (Permutation_in _ Hp); now left).
        assert (Hyin : In y (x :: xs))
          by (apply (Permutation_in _ (Permutation_sym Hp)); now left).
        destruct Hxin as [->|Hxin]; [reflexivity|].
        destruct Hyin as [->|Hyin]; [reflexivity|].
        rewrite Forall_forall in Hx, Hy.
        apply le_antisym; [now apply Hx | now apply Hy]. }
      subst y. f_equal. apply IH; [assumption|].
      now apply Permutation_cons_inv in Hp.
Qed.

Lemma sorted_perm_eq l l' :
  Permutation l l' -> sorted le l = sorted le l'.
Proof.
  intros Hp.
  assert (Htr : RelationClasses.Transitive (fun a b => le a b = true))
    by (intros x y z; apply le_trans).
  apply strongly_sorted_perm_eq.
  - apply Sorted_StronglySorted; [exact Htr | now apply sorted_Sorted].
  - apply Sorted_StronglySorted; [exact Htr | now apply sorted_Sorted].
  - rewrite !sorted_perm. exact Hp.
Qed.

End CanonicalSort.

Lemma categories_perm (l l' : list string) :
  Permutation l l' -> categories l = categories l'.
Proof.
  intros Hp. unfold categories.
  apply (sorted_perm_eq String.leb String.leb_total String.leb_antisym
           string_leb_trans).
  apply NoDup_Permutation; try apply unique_nodup.
  intros x. rewrite !unique_In.
  split; apply Permutation_in; [assumption | now symmetry].
Qed.

Lemma combine_map {A B C} (f : A -> B) (g : A -> C) (l : list A) :
  combine (map f l) (map g l) = map (fun a => (f a, g a)) l.
Proof. induction l; simpl; congruence. Qed.

Lemma XtX_perm p X X' : Permutation X X' -> XtX p X = XtX p X'.
Proof.
  intros Hp. unfold XtX.
  apply map_ext. intros i. apply map_ext. intros j.
  apply Rsum_perm. now apply Permutation_map.
Qed.

Lemma Xty_perm {A} p (f : A -> list R) (g : A -> R) l l' :
  Permutation l l' ->
  Xty p (map f l) (map g l) = Xty p (map f l') (map g l').
Proof.
  intros Hp. unfold Xty. rewrite !combine_map.
  apply map_ext. intros i. apply Rsum_perm.
  now apply Permutation_map, Permutation_map.
Qed.

(** A fit on rows computed one by one from a frame: reordering the frame
    reorders the observations, and leaves the coefficients of an
    order-independent routine unchanged. *)
Lemma OLS_fit_row_order `{RegressionBackbone} {A} names
    (f : A -> list R) (g : A -> R) l l' :
  row_order_independent -> Permutation l l' ->
  params (OLS_fit names (map f l) (map g l))
  = params (OLS_fit names (map f l') (map g l')).
Proof.
  intros Hroi Hp. cbn [params OLS_fit].
  specialize (Hroi (length names) (map (fun a => (f a, g a)) l)
                   (map (fun a => (f a, g a)) l')
                   (Permutation_map _ Hp)).
  rewrite !map_map in Hroi. exact Hroi.
Qed.

(** The column names and the observations of the fixed-effects fit do not
    depend on the order of the rows, apart from the order of the
    observations themselves. *)
Lemma ols_fixed_effects_design `{RegressionBackbone} d d' numeric :
  Permutation d d' ->
  exog_names (ols_fixed_effects d numeric)
    = exog_names (ols_fixed_effects d' numeric) /\
  Permutation (observations (ols_fixed_effects d numeric))
              (observations (ols_fixed_effects d' numeric)).
Proof.
  intros Hp. unfold ols_fixed_effects, observations.
  cbn [exog_names exog endog OLS_fit].
  rewrite (categories_perm (map d_unit d) (map d_unit d'))
    by now apply Permutation_map.
  rewrite (categories_perm (map d_time d) (map d_time d'))
    by now apply Permutation_map.
  split; [reflexivity|].
  rewrite !combine_map. now apply Permutation_map.
Qed.

Lemma ols_fixed_effects_perm `{RegressionBackbone} d d' numeric :
  row_order_independent -> Permutation d d' ->
  exog_names (ols_fixed_effects d numeric)
    = exog_names (ols_fixed_effects d' numeric) /\
  params (ols_fixed_effects d numeric)
    = params (ols_fixed_effects d' numeric).
Proof.
  intros Hroi Hp.
  split; [now apply ols_fixed_effects_design|].
  unfold ols_fixed_effects.
  rewrite (categories_perm (map d_unit d) (map d_unit d'))
    by now apply Permutation_map.
  rewrite (categories_perm (map d_time d) (map d_time d'))
    by now apply Permutation_map.
  now apply OLS_fit_row_order.
Qed.

(** The normal equations are sums over the rows, so a routine that solves
    them does not depend on the order of the rows. *)
Lemma diagonal_row_order_independent :
  @row_order_independent diagonal_backbone.
Proof.
  intros p obs obs' Hp. cbn [sm_params diagonal_backbone].
  unfold diagonal_params. f_equal.
  - apply XtX_perm. now apply Permutation_map.
  - now apply Xty_perm.
Qed.

Lemma difference_in_differences_returns `{RegressionBackbone}
    df x_cols cluster_col :
  let rhs := did_terms x_cols in
  let m := with_cluster df cluster_col (ols_fixed_effects df rhs) in
  exists i,
    index_of "_int" (exog_names (ols_fixed_effects df rhs)) = Return i /\
    difference_in_differences df x_cols cluster_col =
    Return {| att := nth i (params (ols_fixed_effects df rhs)) 0;
              did_p_value := nth i (pvalues m) 0;
              did_model_summary := [("n", INR (nobs m)); ("r2", rsquared m)] |}.
Proof.
  intros rhs m.
  destruct (fixed_effects_lengths df cluster_col rhs) as [Hp Hq].
  fold m in Hp, Hq.
  destruct (index_of_In "_int" (exog_names (ols_fixed_effects df rhs)))
    as [i [Hi Hlt]].
  { apply ols_fixed_effects_names. simpl. tauto. }
  exists i. split; [exact Hi|].
  unfold difference_in_differences. cbv zeta.
  change ([("treated", fun r => b2r (d_treated r));
           ("post", fun r => b2r (d_post r));
           ("_int", fun r => b2r (d_treated r) * b2r (d_post r))]
            ++ covariates x_cols) with rhs.
  fold m.
  assert (Hn : exog_names m = exog_names (ols_fixed_effects df rhs))
    by apply with_cluster_names.
  assert (Hpm : params m = params (ols_fixed_effects df rhs))
    by apply with_cluster_params.
  rewrite Hn, Hi. cbn [bind].
  rewrite !nth_error_nth_total by (rewrite ?Hp, ?Hq, ?Hn; exact Hlt).
  cbn [bind]. now rewrite Hpm.
Qed.




(** ** BIC weights *)

Lemma fold_min_spec (l : list R) (x : R) :
  let m := fold_left (fun m y => if Rlt_dec y m then y else m) l x in
  In m (x :: l) /\ forall y, In y (x :: l) -> m <= y.
Proof.
  revert x. induction l as [|a l IH]; intros x; cbn [fold_left].
  - split; [now left|]. intros y [<-|[]]. lra.
  - destruct (Rlt_dec a x) as [Hlt|Hge].
    + destruct (IH a) as [Hin Hle]. split.
      * destruct Hin as [Hin|Hin]; [right; now left | right; now right].
      * intros y [<-|[<-|Hy]].
        -- specialize (Hle a (or_introl eq_refl)). lra.
        -- apply Hle. now left.
        -- apply Hle. now right.
    + destruct (IH x) as [Hin Hle]. split.
      * destruct Hin as [Hin|Hin]; [now left | right; now right].
      * intros y [<-|[<-|Hy]].
        -- apply Hle. now left.
        -- specialize (Hle x (or_introl eq_refl)). lra.
        -- apply Hle. now right.
Qed.

Lemma py_min_spec (l : list R) :
  l <> [] ->
  exists m, py_min l = Return m /\ In m l /\ forall y, In y l -> m <= y.
Proof.
  destruct l as [|x l]; [congruence|]. intros _.
  eexists. split; [reflexivity|]. apply fold_min_spec.
Qed.

Lemma Rsum_pos l : l <> [] -> Forall (fun x => 0 < x) l -> 0 < Rsum l.
Proof.
  intros Hne Hall. destruct Hall as [|x l Hx Hl]; [congruence|].
  simpl. assert (0 <= Rsum l); [|lra].
  apply Rsum_nonneg. eapply Forall_impl; [|exact Hl]. simpl. intros; lra.
Qed.

Lemma raw_weight_pos bmin b : 0 < raw_weight bmin b.
Proof. apply exp_pos. Qed.

Lemma raw_weight_antitone bmin b b' :
  b <= b' -> raw_weight bmin b' <= raw_weight bmin b.
Proof.
  intros [Hlt | ->]; [|lra]. left. apply exp_increasing. unfold Rminus; lra.
Qed.

Lemma bic_weights_eq bics bmin :
  bics <> [] -> py_min bics = Return bmin ->
  bic_weights bics =
  Return (map (fun b => raw_weight bmin b / Rsum (map (raw_weight bmin) bics))
              bics).
Proof.
  intros Hne Hmin. unfold bic_weights. rewrite Hmin. cbn [bind].
  rewrite !map_map. fold (raw_weight bmin).
  change (fun x => exp (-0.5 * (x - bmin))) with (raw_weight bmin).
  assert (Hpos : 0 < Rsum (map (raw_weight bmin) bics)).
  { apply Rsum_pos.
    - destruct bics; [congruence | discriminate].
    - apply Forall_forall. intros w Hw. apply in_map_iff in Hw.
      destruct Hw as [b [<- _]]. apply raw_weight_pos. }
  destruct (Req_dec_T _ 0) as [E|_]; [lra|]. reflexivity.
Qed.

Lemma Rle_desc_sorted (scores : list ModelScore) :
  StronglySorted (fun a b => ms_weight b <= ms_weight a)
    (sorted (fun a b => Rleb (ms_weight b) (ms_weight a)) scores).
Proof.
  apply Sorted_StronglySorted.
  - intros x y z Hxy Hyz. lra.
  - eapply Sorted_ind with
      (P := fun l => Sorted (fun a b => ms_weight b <= ms_weight a) l).
    + constructor.
    + intros a l _ IH Hhd. constructor; [exact IH|].
      destruct Hhd as [|b l' Hb]; constructor.
      exact (proj1 (Rleb_true _ _) Hb).
    + apply sorted_Sorted. intros x y.
      destruct (Rle_dec (ms_weight y) (ms_weight x)) as [Hle|Hgt].
      * left. exact (proj2 (Rleb_true _ _) Hle).
      * right. apply (proj2 (Rleb_true _ _)). lra.
Qed.

(** The DiD summary carries neither a BIC nor an AIC entry, so every
    candidate enters the comparison with the fallback value 0. *)
Lemma fit_candidates_bic `{RegressionBackbone} df cl i cands tmp :
  fit_candidates df cl i cands = Return tmp ->
  Forall (fun t => snd (fst t) = 0) tmp.
Proof.
  revert i tmp. induction cands as [|covs rest IH]; intros i tmp; cbn [fit_candidates].
  - intros Hr. assert (tmp = []) by congruence. subst. constructor.
  - destruct (difference_in_differences_returns df covs cl) as [j [_ ->]].
    cbn [bind did_model_summary].
    destruct (fit_candidates df cl (S i) rest) as [tmp'|e] eqn:E;
      [|discriminate].
    cbn [bind]. intros Hr.
    assert (Hinj : forall x y : list (string * R * DiDResult),
              Return x = Return y -> x = y) by (intros x y Hxy; congruence).
    apply Hinj in Hr. subst tmp.
    constructor; [reflexivity | now apply (IH (S i))].
Qed.

Lemma combine_repeat_r {A B} (l : list A) (b : B) :
  combine l (repeat b (length l)) = map (fun a => (a, b)) l.
Proof. induction l; simpl; congruence. Qed.

(** Equal BICs give equal weights. *)
Lemma bic_weights_equal_bics b n :
  n <> 0%nat -> bic_weights (repeat b n) = Return (repeat (1 / INR n) n).
Proof.
  intros Hn.
  assert (Hne : repeat b n <> []) by (destruct n; [congruence | discriminate]).
  destruct (py_min_spec (repeat b n) Hne) as [bmin [Hmin [Hin _]]].
  apply repeat_spec in Hin. subst bmin.
  rewrite (bic_weights_eq _ b Hne Hmin). f_equal.
  assert (H1 : raw_weight b b = 1).
  { unfold raw_weight. replace (-0.5 * (b - b)) with 0 by lra. apply exp_0. }
  rewrite !map_repeat, H1, Rsum_repeat. f_equal.
  assert (0 < INR n) by (apply lt_0_INR; lia).
  field. lra.
Qed.

Lemma fit_candidates_spec `{RegressionBackbone} df cl i cands :
  exists tmp,
    fit_candidates df cl i cands = Return tmp /\
    map (fun t => fst (fst t)) tmp
      = map (fun j => ("did_spec_" ++ str_of_N (N.of_nat j))%string)
            (seq (S i) (length cands)) /\
    map (fun t => snd (fst t)) tmp = repeat 0 (length cands) /\
    map (fun t => Return (snd t)) tmp
      = map (fun covs => difference_in_differences df covs cl) cands.
Proof.
  revert i. induction cands as [|covs rest IH]; intros i.
  - exists []. repeat split; reflexivity.
  - destruct (IH (S i)) as [tmp [E [Hn [Hb Hr]]]].
    destruct (difference_in_differences_returns df covs cl) as [j [_ Ed]].
    cbn [fit_candidates]. rewrite Ed, E. cbn [bind did_model_summary].
    eexists. split; [reflexivity|].
    cbn [map fst snd length seq repeat]. rewrite Hn, Hb, Hr, Ed.
    repeat split; reflexivity.
Qed.

(** The descending sort by weight is stable: scores of one weight keep
    their order. *)
Lemma insert_by_weight_stable w x l :
  filter (has_weight w)
         (insert_sorted (fun a b => Rleb (ms_weight b) (ms_weight a)) x l)
  = filter (has_weight w) (x :: l).
Proof.
  induction l as [|y l IH]; [reflexivity|].
  cbn [insert_sorted].
  destruct (Rleb (ms_weight y) (ms_weight x)) eqn:E; [reflexivity|].
  cbn [filter] in IH |- *. rewrite IH.
  unfold has_weight.
  destruct (Req_dec_T (ms_weight y) w) as [Hy|Hy],
           (Req_dec_T (ms_weight x) w) as [Hx|Hx]; try reflexivity.
  exfalso. unfold Rleb in E.
  destruct (Rle_dec (ms_weight y) (ms_weight x)); [discriminate | lra].
Qed.

Lemma sort_by_weight_stable w l :
  filter (has_weight w)
         (sorted (fun a b => Rleb (ms_weight b) (ms_weight a)) l)
  = filter (has_weight w) l.
Proof.
  induction l as [|x l IH]; [reflexivity|].
  cbn [sorted fold_right].
  fold (sorted (fun a b => Rleb (ms_weight b) (ms_weight a)) l).
  rewrite insert_by_weight_stable. cbn [filter]. now rewrite IH.
Qed.

(** C7.  For a non-empty list of BICs, [bic_weights] returns
    [exp(-0.5 (BIC_i - min BIC))] divided by the sum of these terms; the
    weights sum to 1; a model with a smaller BIC never has a smaller
    weight, so every model attaining the minimum BIC attains the maximum
    weight; and [compare_did_models] returns its scores sorted by weight in
    descending order: for a non-empty candidate list it fits one DiD model
    per candidate, named [did_spec_1], [did_spec_2], ... in the order of
    the candidates, weighs them by [bic_weights], and returns exactly these
    scores, rearranged so that the weights descend while scores of equal
    weight keep the order of the candidates. *)
Theorem bic_weights_normalised `{RegressionBackbone} bics :
  bics <> [] ->
  exists bmin ws,
    In bmin bics /\ (forall b, In b bics -> bmin <= b) /\
    bic_weights bics = Return ws /\
    ws = map (fun b =>
                exp (-0.5 * (b - bmin))
                / Rsum (map (fun b' => exp (-0.5 * (b' - bmin))) bics))
             bics /\
    Rsum ws = 1 /\
    (forall b w b' w',
       In (b, w) (combine bics ws) -> In (b', w') (combine bics ws) ->
       b <= b' -> w' <= w) /\
    (forall w w',
       In (bmin, w) (combine bics ws) -> In w' ws -> w' <= w) /\
    (forall df candidate_covariates cluster_col scores,
       compare_did_models df candidate_covariates cluster_col = Return scores ->
       StronglySorted (fun a b => ms_weight b <= ms_weight a) scores) /\
    (forall df candidate_covariates cluster_col,
       candidate_covariates <> [] ->
       exists tmp ws scores,
         fit_candidates df cluster_col 0 candidate_covariates = Return tmp /\
         map (fun t => fst (fst t)) tmp
           = map (fun j => ("did_spec_" ++ str_of_N (N.of_nat j))%string)
                 (seq 1 (length candidate_covariates)) /\
         map (fun t => Return (snd t)) tmp
           = map (fun covs =>
                    difference_in_differences df covs cluster_col)
                 candidate_covariates /\
         bic_weights (map (fun t => snd (fst t)) tmp) = Return ws /\
         length ws = length tmp /\
         compare_did_models df candidate_covariates cluster_col
           = Return scores /\
         Permutation scores (candidate_scores tmp ws) /\
         StronglySorted (fun a b => ms_weight b <= ms_weight a) scores /\
         (forall w, filter (has_weight w) scores
                    = filter (has_weight w) (candidate_scores tmp ws))).
Proof.
  intros Hne.
  destruct (py_min_spec bics Hne) as [bmin [Hmin [Hin Hle]]].
  exists bmin. eexists.
  split; [exact Hin|]. split; [exact Hle|].
  split; [exact (bic_weights_eq bics bmin Hne Hmin)|].
  split; [reflexivity|].
  set (S := Rsum (map (fun b' => exp (-0.5 * (b' - bmin))) bics)).
  assert (HS : 0 < S).
  { apply Rsum_pos.
    - destruct bics; [congruence | discriminate].
    - apply Forall_forall. intros w Hw. apply in_map_iff in Hw.
      destruct Hw as [b [<- _]]. apply exp_pos. }
  assert (Hmono : forall b w b' w',
    In (b, w) (combine bics (map (fun b => raw_weight bmin b / S) bics)) ->
    In (b', w') (combine bics (map (fun b => raw_weight bmin b / S) bics)) ->
    b <= b' -> w' <= w).
  { intros b w b' w' H1 H2 Hbb.
    rewrite <- (map_id bics) in H1 at 1. rewrite <- (map_id bics) in H2 at 1.
    rewrite combine_map in H1, H2.
    apply in_map_iff in H1, H2.
    destruct H1 as [x [E1 _]], H2 as [x' [E2 _]].
    inversion E1; inversion E2; subst.
    unfold Rdiv. apply Rmult_le_compat_r.
    - left. now apply Rinv_0_lt_compat.
    - now apply raw_weight_antitone. }
  split; [|split; [exact Hmono|split; [|split]]].
  - change (fun b => exp (-0.5 * (b - bmin)) / S)
      with (fun b => raw_weight bmin b / S).
    rewrite <- (map_map (raw_weight bmin) (fun w => w / S)).
    rewrite Rsum_scale. unfold S.
    change (fun b' => exp (-0.5 * (b' - bmin))) with (raw_weight bmin).
    field. fold (raw_weight bmin) in S. 
    change (Rsum (map (raw_weight bmin) bics)) with S. lra.
  - intros w w' Hw Hw'.
    change (fun b => exp (-0.5 * (b - bmin)) / S)
      with (fun b => raw_weight bmin b / S) in Hw, Hw'.
    apply in_map_iff in Hw'. destruct Hw' as [b' [<- Hb']].
    apply (Hmono bmin w b' (raw_weight bmin b' / S) Hw).
    + rewrite <- (map_id bics) at 1. rewrite combine_map.
      apply in_map_iff. exists b'. split; [reflexivity | exact Hb'].
    + now apply Hle.
  - intros df cands cl scores Hs. unfold compare_did_models in Hs.
    destruct (fit_candidates df cl 0 cands) as [tmp|e]; [|discriminate].
    cbn [bind] in Hs.
    destruct (bic_weights (map (fun t => snd (fst t)) tmp)) as [ws|e];
      [|discriminate].
    cbn [bind] in Hs.
    assert (Hinj : forall x y : list ModelScore, Return x = Return y -> x = y)
      by (intros x y Hxy; congruence).
    apply Hinj in Hs. subst scores. apply Rle_desc_sorted.
  - intros df cands cl Hcands.
    destruct (fit_candidates_spec df cl 0 cands) as [tmp [E [Hn [Hb Hr]]]].
    assert (Hlen : length tmp = length cands).
    { rewrite <- (length_map (fun t => snd (fst t)) tmp), Hb.
      apply repeat_length. }
    assert (Hw : bic_weights (map (fun t => snd (fst t)) tmp)
                 = Return (repeat (1 / INR (length cands)) (length cands))).
    { rewrite Hb. apply bic_weights_equal_bics.
      destruct cands; [congruence | discriminate]. }
    exists tmp, (repeat (1 / INR (length cands)) (length cands)).
    exists (sorted (fun a b => Rleb (ms_weight b) (ms_weight a))
              (candidate_scores tmp
                 (repeat (1 / INR (length cands)) (length cands)))).
    split; [exact E|]. split; [exact Hn|]. split; [exact Hr|].
    split; [exact Hw|]. split; [now rewrite repeat_length|]. split.
    { unfold compare_did_models. rewrite E. cbn [bind]. rewrite Hw.
      cbn [bind]. reflexivity. }
    split; [apply sorted_perm|]. split; [apply Rle_desc_sorted|].
    intros w. apply sort_by_weight_stable.
Qed.

(** C7, witness: two candidate models with BIC 10 and 12. *)
Lemma bic_weights_normalised_witness :
  exists ws, bic_weights [10; 12] = Return ws /\ Rsum ws = 1.
Proof.
  destruct (bic_weights_normalised [10; 12]) as [bmin [ws [_ [_ [Hw [_ [Hs _]]]]]]].
  - discriminate.
  - exists ws. split; assumption.
Defined.

(** ** Fisher combination of pre-period p-values *)

Lemma clamp_p_id p : 1e-12 <= p <= 1 -> clamp_p p = p.
Proof.
  intros [H1 H2]. unfold clamp_p.
  rewrite (Rmin_right 1 p) by lra. now rewrite Rmax_right by lra.
Qed.

Lemma clamped_pvalues_spec p_by_k ks ps' :
  clamped_pvalues p_by_k ks = Return ps' ->
  exists ps,
    Forall2 (fun k p => dict_get Z.eqb k p_by_k = Some p) ks ps /\
    ps' = map clamp_p ps.
Proof.
  revert ps'. induction ks as [|k ks IH]; intros ps'; cbn [clamped_pvalues].
  - intros Hr. assert (ps' = []) by congruence. subst.
    exists []. split; [constructor | reflexivity].
  - destruct (dict_get Z.eqb k p_by_k) as [p|] eqn:E; [|discriminate].
    destruct (clamped_pvalues p_by_k ks) as [qs|e]; [|discriminate].
    cbn [bind]. intros Hr.
    destruct (IH qs eq_refl) as [ps [Hf ->]].
    exists (p :: ps). split; [now constructor|].
    simpl. change (Rmax 1e-12 (Rmin 1 p)) with (clamp_p p) in Hr. congruence.
Qed.

Lemma Rsum_map_scale {A} c (f : A -> R) l :
  c * Rsum (map f l) = Rsum (map (fun x => c * f x) l).
Proof. induction l as [|x l IH]; simpl; [lra | rewrite <- IH; lra]. Qed.

Lemma joint_test_inv chi2_cdf coef_by_k p_by_k k_pre_max r :
  event_study_preperiod_joint_test chi2_cdf coef_by_k p_by_k k_pre_max
    = Return r ->
  exists ps',
    clamped_pvalues p_by_k
      (sorted Z.leb (filter (fun k => (k <=? k_pre_max)%Z) (keys coef_by_k)))
      = Return ps' /\
    r = {| k_values :=
             sorted Z.leb
               (filter (fun k => (k <=? k_pre_max)%Z) (keys coef_by_k));
           f_stat := -2 * Rsum (map ln ps');
           jt_p_value :=
             1 - chi2_cdf (-2 * Rsum (map ln ps')) (2 * INR (length ps'));
           df_denom := NaN;
           df_num := 2 * INR (length ps') |}.
Proof.
  unfold event_study_preperiod_joint_test.
  destruct (sorted Z.leb _) as [|k ks] eqn:E; [discriminate|].
  destruct (clamped_pvalues p_by_k (k :: ks)) as [ps'|e]; [|discriminate].
  cbn [bind]. intros Hr. exists ps'. split; [reflexivity|]. congruence.
Qed.

(** C8 (as amended).  Whenever the joint test returns, it has combined
    exactly the p-values of the offsets [k <= k_pre_max] that are keys of
    [coef_by_k]; its statistic is the sum of [-2 log] of these p-values
    after each has been clamped to [1e-12, 1], hence the plain sum of
    [-2 log p] whenever every combined p-value lies in that range; its
    p-value is one minus the chi-squared distribution function at the
    statistic with twice as many degrees of freedom as combined p-values;
    and a second evaluation on the same inputs gives the same statistic and
    p-value. *)
Theorem event_study_preperiod_joint_test_fisher
    chi2_cdf coef_by_k p_by_k k_pre_max r :
  event_study_preperiod_joint_test chi2_cdf coef_by_k p_by_k k_pre_max
    = Return r ->
  (forall k, In k (k_values r) <->
             In k (keys coef_by_k) /\ (k <= k_pre_max)%Z) /\
  (exists ps,
     Forall2 (fun k p => dict_get Z.eqb k p_by_k = Some p) (k_values r) ps /\
     f_stat r = Rsum (map (fun p => -2 * ln (Rmax 1e-12 (Rmin 1 p))) ps) /\
     (Forall (fun p => 1e-12 <= p <= 1) ps ->
      f_stat r = Rsum (map (fun p => -2 * ln p) ps)) /\
     df_num r = 2 * INR (length ps)) /\
  jt_p_value r = 1 - chi2_cdf (f_stat r) (df_num r) /\
  (forall r',
     event_study_preperiod_joint_test chi2_cdf coef_by_k p_by_k k_pre_max
       = Return r' ->
     f_stat r' = f_stat r /\ jt_p_value r' = jt_p_value r).
Proof.
  intros Hr.
  destruct (joint_test_inv _ _ _ _ _ Hr) as [ps' [Hc ->]].
  cbn [k_values f_stat jt_p_value df_num].
  destruct (clamped_pvalues_spec _ _ _ Hc) as [ps [Hf ->]].
  split; [|split; [|split]].
  - intros k. rewrite sorted_In, filter_In, Z.leb_le. tauto.
  - exists ps. split; [exact Hf|].
    assert (Hstat : -2 * Rsum (map ln (map clamp_p ps))
                    = Rsum (map (fun p => -2 * ln (Rmax 1e-12 (Rmin 1 p))) ps)).
    { rewrite map_map. apply Rsum_map_scale. }
    split; [exact Hstat|]. split.
    + intros Hall. rewrite Hstat. f_equal. apply map_ext_in.
      intros p Hp. rewrite Forall_forall in Hall.
      change (Rmax 1e-12 (Rmin 1 p)) with (clamp_p p).
      now rewrite clamp_p_id by now apply Hall.
    + now rewrite length_map.
  - reflexivity.
  - intros r' Hr'. rewrite Hr in Hr'.
    assert (Hinj : forall x y : PrePeriodJointTestResult,
              Return x = Return y -> x = y) by (intros x y Hxy; congruence).
    apply Hinj in Hr'. subst r'. split; reflexivity.
Qed.

(** C8, counterexample: a p-value of [1e-13] enters the statistic as
    [1e-12]. *)
Lemma joint_test_clamp_counterexample :
  ~ (forall chi2_cdf r,
       event_study_preperiod_joint_test chi2_cdf
         [((-2)%Z, 0.1)] [((-2)%Z, 1e-13)] (-2) = Return r ->
       f_stat r = Rsum (map (fun p => -2 * ln p) [1e-13])).
Proof.
  intros H. specialize (H chi2_cdf_df2 _ eq_refl).
  cbn [f_stat map Rsum fold_right] in H.
  rewrite (Rmin_right 1 1e-13) in H by lra.
  rewrite (Rmax_left 1e-12 1e-13) in H by lra.
  assert (Hln : ln 1e-12 = ln 1e-13) by lra.
  apply ln_inv in Hln; lra.
Qed.

(** C8, witness: one pre-period offset with p-value 0.2. *)
Lemma event_study_preperiod_joint_test_fisher_witness :
  exists r,
    event_study_preperiod_joint_test chi2_cdf_df2
      [((-2)%Z, 0.3); (0%Z, 1.5)] [((-2)%Z, 0.2); (0%Z, 0.01)] (-2)
      = Return r /\
    f_stat r = Rsum (map (fun p => -2 * ln p) [0.2]) /\
    jt_p_value r = 1 - chi2_cdf_df2 (f_stat r) (df_num r).
Proof.
  eexists. split; [reflexivity|].
  match goal with
  | |- context [f_stat ?r] =>
      destruct (event_study_preperiod_joint_test_fisher chi2_cdf_df2
                  [((-2)%Z, 0.3); (0%Z, 1.5)] [((-2)%Z, 0.2); (0%Z, 0.01)]
                  (-2) r eq_refl)
        as [_ [_ [Hp _]]]
  end.
  split; [|exact Hp].
  cbn [f_stat map Rsum fold_right].
  rewrite (Rmin_right 1 0.2) by lra.
  rewrite (Rmax_right 1e-12 0.2) by lra. lra.
Defined.

(** ** Placebo sweep *)

Lemma synthetic_control_placebos_units df it tu :
  map placebo_unit (synthetic_control_placebos df it tu)
  = sorted String.leb (unique (map p_unit df)).
Proof.
  unfold synthetic_control_placebos. rewrite map_map.
  rewrite <- (map_id (sorted String.leb (unique (map p_unit df)))) at 2.
  apply map_ext. intros u.
  now destruct (synthetic_control df u it None).
Qed.

(** A trial that fails is logged and the sweep goes on: with a single unit
    there is no donor, and the sweep returns one error record. *)
Lemma synthetic_control_placebos_error_entry :
  synthetic_control_placebos
    [ {| p_unit := "A"; p_time := "2020-01"; p_y := Some 1 |} ] "2020-01" "A"
  = [ PlaceboError "A" "need at least one array to concatenate" ].
Proof. reflexivity. Qed.

(** C3, the code at the failing input.  The sweep visits every distinct
    unit of the panel and never consults its argument [treated_unit]: on
    the two-unit panel with treated unit [A] it returns two records, the
    first of which treats [A] itself as the placebo unit. *)
Theorem synthetic_control_placebos_includes_treated :
  (forall tu,
     map placebo_unit
         (synthetic_control_placebos (demo_panel 1 1) "2020-02" tu)
     = ["A"; "B"]) /\
  In "A" (map placebo_unit
              (synthetic_control_placebos (demo_panel 1 1) "2020-02" "A")) /\
  length (synthetic_control_placebos (demo_panel 1 1) "2020-02" "A") = 2%nat.
Proof.
  assert (Hall : forall tu,
            map placebo_unit
                (synthetic_control_placebos (demo_panel 1 1) "2020-02" tu)
            = ["A"; "B"]).
  { intros tu. now rewrite synthetic_control_placebos_units. }
  split; [exact Hall|]. split.
  - rewrite Hall. now left.
  - rewrite <- (length_map placebo_unit). now rewrite Hall.
Qed.

(** ** Donor-pool search *)

Lemma Rltb_irrefl x : Rltb x x = false.
Proof. apply Rltb_false. lra. Qed.

Lemma Rltb_sqrt a b : 0 <= a < b -> Rltb (sqrt a) (sqrt b) = true.
Proof. intros H. apply Rltb_true. apply sqrt_lt_1; lra. Qed.

Lemma sorted_all_le {A} (le : A -> A -> bool) l :
  (forall x y, In x l -> In y l -> le x y = true) -> sorted le l = l.
Proof.
  induction l as [|x l IH]; intros H; [reflexivity|].
  simpl. rewrite IH by (intros; apply H; now right).
  destruct l as [|y l]; [reflexivity|].
  simpl. rewrite H; [reflexivity | now left | right; now left].
Qed.

(** The early-stop test reads [best_rmse] after the step has already
    stored its own RMSE there.  So from the third step on, a step that
    improves on the best RMSE, by however much, ends the search. *)
Lemma greedy_stops_when_step_improves
    d tu it cands step rest selected best_res y tried u x res tried' :
  (2 <= step)%nat ->
  try_candidates d tu it cands selected step (None, PInf, None, tried)
    = Return (Some u, Fin x, Some res, tried') ->
  x < y ->
  greedy d tu it cands (step :: rest) (selected, best_res, Fin y, tried)
  = Return (selected ++ [u], Some res, Fin x, tried').
Proof.
  intros Hstep Htry Hlt. cbn [greedy]. rewrite Htry. cbn [bind flt].
  rewrite (proj2 (Rltb_true x y) Hlt).
  destruct (Nat.leb_spec 2 step) as [_|]; [|lia].
  cbn [andb fsub fabs flt].
  replace (x - x) with 0 by lra. rewrite Rabs_R0.
  now rewrite (proj2 (Rltb_true 0 1e-6)) by lra.
Qed.

(** Consequently, whatever [max_donors] and the number of candidates: if
    each of the first three steps finds a candidate that lowers the best
    RMSE, the loop returns after the third step with three donors. *)
Lemma greedy_returns_after_third_improving_step
    d tu it cands rest u0 x0 r0 t0 u1 x1 r1 t1 u2 x2 r2 t2 :
  try_candidates d tu it cands [] 0 (None, PInf, None, [])
    = Return (Some u0, Fin x0, Some r0, t0) ->
  try_candidates d tu it cands [u0] 1 (None, PInf, None, t0)
    = Return (Some u1, Fin x1, Some r1, t1) ->
  try_candidates d tu it cands [u0; u1] 2 (None, PInf, None, t1)
    = Return (Some u2, Fin x2, Some r2, t2) ->
  x1 < x0 -> x2 < x1 ->
  greedy d tu it cands (0 :: 1 :: 2 :: rest)%nat ([], None, PInf, [])
  = Return ([u0; u1; u2], Some r2, Fin x2, t2).
Proof.
  intros H0 H1 H2 L1 L2.
  cbn [greedy]. rewrite H0. cbn [bind flt Nat.leb andb app].
  rewrite H1. cbn [bind flt Nat.leb andb app].
  rewrite (proj2 (Rltb_true x1 x0) L1).
  apply (greedy_stops_when_step_improves d tu it cands 2 rest [u0; u1]
           (Some r1) x1 t1 u2 x2 r2 t2); [lia | exact H2 | exact L2].
Qed.

Lemma sc_fit_weights_uniform d tu it donors pre XT Y z :
  filter (fun t => String.ltb t it) (all_times d) = pre ->
  map (fun u => _series d u pre) donors = XT ->
  _series d tu pre = Y ->
  repeat (1 / INR (length donors)) (length donors) = z ->
  sc_step XT (transpose (length pre) XT) Y z = z ->
  sc_fit_weights d tu it donors = z.
Proof.
  intros H1 H2 H3 H4 H5. eapply sc_fit_weights_eval; eauto. now rewrite H4.
Qed.

(** A fit whose uniform start is a fixed point of the pass: the weights
    stay uniform and the pre-period RMSE is read off directly. *)
Lemma synthetic_control_eval d tu it u us pre XT Y y ys z q :
  (duplicate_labels d tu || existsb (duplicate_labels d) (u :: us))%bool
    = false ->
  filter (fun t => String.ltb t it) (all_times d) = pre ->
  map (fun v => _series d v pre) (u :: us) = XT ->
  _series d tu pre = Y ->
  Y = y :: ys ->
  repeat (1 / INR (length (u :: us))) (length (u :: us)) = z ->
  sc_step XT (transpose (length pre) XT) Y z = z ->
  mean (map (fun e => e * e) (vsub Y (matvec (transpose (length pre) XT) z)))
    = q ->
  exists r,
    synthetic_control d tu it (Some (u :: us)) = Return r /\
    sc_pre_rmse r = Fin (sqrt q) /\
    sc_donor_units r = u :: us.
Proof.
  intros H0 H1 H2 H3 H4 H5 H6 H7.
  unfold synthetic_control. cbn [sc_donors]. rewrite H0.
  eexists. split; [reflexivity|].
  cbn [sc_pre_rmse sc_donor_units sc_donors]. split; [|reflexivity].
  rewrite (sc_fit_weights_uniform d tu it (u :: us) pre XT Y z H1 H2 H3 H5 H6).
  rewrite H1, H2, H3, H7. rewrite H4. reflexivity.
Qed.

Ltac fit_calc :=
  eapply synthetic_control_eval;
  [ vm_compute; reflexivity
  | reflexivity | reflexivity | reflexivity | reflexivity
  | cbn; reflexivity
  | sc_step_calc
  | unfold mean, transpose, vsub, matvec, dot, Rsum; cbn; first [lra | field] ].

Arguments synthetic_control : simpl never.

Lemma spike_fit_1 : spike_fit ["D1"] 5. Proof. fit_calc. Qed.
Lemma spike_fit_2 : spike_fit ["D2"] 5. Proof. fit_calc. Qed.
Lemma spike_fit_3 : spike_fit ["D3"] 5. Proof. fit_calc. Qed.
Lemma spike_fit_4 : spike_fit ["D4"] 5. Proof. fit_calc. Qed.
Lemma spike_fit_12 : spike_fit ["D1"; "D2"] 2. Proof. fit_calc. Qed.
Lemma spike_fit_13 : spike_fit ["D1"; "D3"] 2. Proof. fit_calc. Qed.
Lemma spike_fit_14 : spike_fit ["D1"; "D4"] 2. Proof. fit_calc. Qed.
Lemma spike_fit_123 : spike_fit ["D1"; "D2"; "D3"] 1. Proof. fit_calc. Qed.
Lemma spike_fit_124 : spike_fit ["D1"; "D2"; "D4"] 1. Proof. fit_calc. Qed.
Lemma spike_fit_1234 : spike_fit ["D1"; "D2"; "D3"; "D4"] (1 / 2).
Proof. fit_calc. Qed.

Ltac use_fit H :=
  let r := fresh "r" in
  let Hr := fresh "Hr" in
  let Hq := fresh "Hq" in
  let Hd := fresh "Hd" in
  destruct H as [r [Hr [Hq Hd]]];
  rewrite Hr; cbn [bind]; rewrite Hq.

(** The greedy loop on the spike panel: the best RMSE falls from [sqrt 5]
    to [sqrt 2] to [sqrt 1] over the first three steps, and the third step
    ends the loop. *)
Lemma spike_greedy :
  exists r tr,
    greedy spike_panel "T" "2020-07" ["D1"; "D2"; "D3"; "D4"]
      [0; 1; 2; 3]%nat ([], None, PInf, [])
    = Return (["D1"; "D2"; "D3"], Some r, Fin (sqrt 1), tr) /\
    sc_donor_units r = ["D1"; "D2"; "D3"] /\
    sc_pre_rmse r = Fin (sqrt 1) /\
    length tr = 9%nat.
Proof.
  cbn -[spike_panel].
  use_fit spike_fit_1. cbn -[spike_panel].
  use_fit spike_fit_2. cbn -[spike_panel]. rewrite Rltb_irrefl.
  use_fit spike_fit_3. cbn -[spike_panel]. rewrite Rltb_irrefl.
  use_fit spike_fit_4. cbn -[spike_panel]. rewrite Rltb_irrefl.
  cbn -[spike_panel].
  use_fit spike_fit_12. cbn -[spike_panel].
  use_fit spike_fit_13. cbn -[spike_panel]. rewrite Rltb_irrefl.
  use_fit spike_fit_14. cbn -[spike_panel]. rewrite Rltb_irrefl.
  cbn -[spike_panel]. rewrite (Rltb_sqrt 2 5) by lra. cbn -[spike_panel].
  use_fit spike_fit_123. cbn -[spike_panel].
  use_fit spike_fit_124. cbn -[spike_panel]. rewrite Rltb_irrefl.
  cbn -[spike_panel]. rewrite (Rltb_sqrt 1 2) by lra. cbn -[spike_panel].
  replace (sqrt 1 - sqrt 1) with 0 by lra. rewrite Rabs_R0.
  replace (Rltb 0 (1 / 1000000)) with true
    by (symmetry; apply Rltb_true; lra).
  exists r6. eexists. split; [reflexivity|].
  split; [assumption|]. split; [assumption | reflexivity].
Qed.

Lemma std_spike_treated : std [1; 1; 1; 1; 1; 1] = 0.
Proof.
  unfold std.
  replace (mean _) with 0; [apply sqrt_0|].
  unfold mean. cbn. field.
Qed.

(** C2, the code at the failing input.  On the spike panel there are four
    candidates and [max_donors] is 15, and every greedy step lowers the
    best pre-period RMSE by far more than the tolerance: [sqrt 5], [sqrt 2],
    [sqrt 1], and a fourth donor would give [sqrt (1/2)].  The search
    nevertheless stops after its third step: the result has three donors
    and the trial log the 4 + 3 + 2 trials of three steps. *)
Theorem donor_pool_search_stops_after_three :
  exists res r4,
    donor_pool_search spike_panel "T" "2020-07" 15 30 = Return res /\
    sc_donor_units (best res) = ["D1"; "D2"; "D3"] /\
    sc_pre_rmse (best res) = Fin (sqrt 1) /\
    length (tried res) = 9%nat /\
    synthetic_control spike_panel "T" "2020-07"
      (Some ["D1"; "D2"; "D3"; "D4"]) = Return r4 /\
    sc_pre_rmse r4 = Fin (sqrt (1 / 2)).
Proof.
  destruct spike_fit_1234 as [r4 [Hr4 [Hq4 _]]].
  assert (Hsearch : exists res,
    donor_pool_search spike_panel "T" "2020-07" 15 30 = Return res /\
    sc_donor_units (best res) = ["D1"; "D2"; "D3"] /\
    sc_pre_rmse (best res) = Fin (sqrt 1) /\
    length (tried res) = 9%nat).
  { unfold donor_pool_search.
    change (sorted String.leb
              (filter (fun u => negb (String.eqb u "T"))
                      (unique (map p_unit spike_panel))))
      with ["D1"; "D2"; "D3"; "D4"].
    change (filter (fun t => String.ltb t "2020-07") (all_times spike_panel))
      with ["2020-01"; "2020-02"; "2020-03"; "2020-04"; "2020-05"; "2020-06"].
    cbn [length Nat.ltb Nat.leb].
    cbv zeta.
    change (_series spike_panel "T"
              ["2020-01"; "2020-02"; "2020-03"; "2020-04"; "2020-05";
               "2020-06"])
      with [1; 1; 1; 1; 1; 1].
    rewrite std_spike_treated.
    replace (Rltb 0 1e-9) with true by (symmetry; apply Rltb_true; lra).
    cbn [map]. rewrite !orb_true_r.
    rewrite sorted_all_le.
    2:{ intros x y Hx Hy. simpl in Hx, Hy.
        repeat (destruct Hx as [<-|Hx]); try contradiction;
        repeat (destruct Hy as [<-|Hy]); try contradiction;
        apply Rleb_true; simpl; lra. }
    change (map fst (firstn _ _)) with ["D1"; "D2"; "D3"; "D4"].
    change (range0 _) with [0; 1; 2; 3]%nat.
    destruct spike_greedy as [r [tr [-> [Hd [Hq Ht]]]]].
    cbn [bind]. eexists. split; [reflexivity|].
    cbn [best tried]. repeat split; assumption. }
  destruct Hsearch as [res [H1 [H2 [H3 H4]]]].
  exists res, r4. repeat split; assumption.
Qed.

(* ================================================================= *)
(** * Part II, continued: properties of the remaining functions       *)
(* ================================================================= *)

(** ** The bandwidth window of the regression discontinuity *)

Lemma filter_length_mono {A} (f g : A -> bool) (l : list A) :
  (forall x, In x l -> f x = true -> g x = true) ->
  (length (filter f l) <= length (filter g l))%nat.
Proof.
  induction l as [|x l IH]; simpl; intros H; [lia|].
  assert (IH' : (length (filter f l) <= length (filter g l))%nat).
  { apply IH. intros y Hy. apply H. now right. }
  destruct (f x) eqn:Ef.
  - rewrite (H x (or_introl eq_refl) Ef). simpl. lia.
  - destruct (g x); simpl; lia.
Qed.

Lemma rdd_returns_iff `{RegressionBackbone} df cutoff bandwidth x_cols :
  (exists r, regression_discontinuity df cutoff bandwidth x_cols = Return r /\
             rdd_n r = length (rdd_window df cutoff bandwidth)) <->
  (20 <= length (rdd_window df cutoff bandwidth))%nat.
Proof.
  unfold regression_discontinuity. cbv zeta.
  destruct (Nat.ltb_spec (length (rdd_window df cutoff bandwidth)) 20)
    as [Hlt|Hge].
  - split; [intros [r [Hr _]]; discriminate | lia].
  - split; [intros _; exact Hge|]. intros _.
    destruct (rdd_model_lengths (rdd_window df cutoff bandwidth) x_cols)
      as [Hp Hq].
    change (index_of "_treat" (rdd_columns x_cols)) with (@Return nat 2%nat).
    cbn [bind]. rewrite !nth_error_nth_total by lia. cbn [bind].
    eexists. split; [reflexivity|].
    cbn [rdd_n rdd_model nobs OLS_fit]. now rewrite length_map.
Qed.

Lemma rdd_raises_iff `{RegressionBackbone} df cutoff bandwidth x_cols :
  regression_discontinuity df cutoff bandwidth x_cols
    = Raise "Not enough observations in bandwidth to fit RDD." <->
  (length (rdd_window df cutoff bandwidth) < 20)%nat.
Proof.
  split.
  - intros Hr.
    destruct (Nat.lt_ge_cases (length (rdd_window df cutoff bandwidth)) 20)
      as [Hlt|Hge]; [exact Hlt|].
    destruct (proj2 (rdd_returns_iff df cutoff bandwidth x_cols) Hge)
      as [r [Hr' _]].
    rewrite Hr in Hr'. discriminate.
  - intros Hlt. unfold regression_discontinuity. cbv zeta.
    destruct (Nat.ltb_spec (length (rdd_window df cutoff bandwidth)) 20);
      [reflexivity | lia].
Qed.

Lemma rdd_window_mono df cutoff b b' :
  b <= b' ->
  (length (rdd_window df cutoff b) <= length (rdd_window df cutoff b'))%nat.
Proof.
  intros Hb. unfold rdd_window. apply filter_length_mono.
  intros x _ Hx. apply (proj1 (Rleb_true _ _)) in Hx.
  apply (proj2 (Rleb_true _ _)). lra.
Qed.

(** X1.  Widening the bandwidth never loses a fit: if
    [regression_discontinuity] returns for a bandwidth, it returns for
    every larger bandwidth, on at least as many observations, each time
    reporting as [n] the number of rows inside the window; and a negative
    bandwidth always raises. *)
Theorem regression_discontinuity_bandwidth_monotone `{RegressionBackbone}
    df cutoff b b' x_cols r :
  regression_discontinuity df cutoff b x_cols = Return r ->
  b <= b' ->
  rdd_n r = length (rdd_window df cutoff b) /\
  (exists r',
     regression_discontinuity df cutoff b' x_cols = Return r' /\
     rdd_n r' = length (rdd_window df cutoff b') /\
     (rdd_n r <= rdd_n r')%nat) /\
  (forall neg, neg < 0 ->
     regression_discontinuity df cutoff neg x_cols
       = Raise "Not enough observations in bandwidth to fit RDD.").
Proof.
  intros Hr Hb.
  assert (Hge : (20 <= length (rdd_window df cutoff b))%nat).
  { destruct (Nat.lt_ge_cases (length (rdd_window df cutoff b)) 20)
      as [Hlt|Hge]; [|exact Hge].
    apply (proj2 (rdd_raises_iff df cutoff b x_cols)) in Hlt.
    rewrite Hr in Hlt. discriminate. }
  destruct (proj2 (rdd_returns_iff df cutoff b x_cols) Hge) as [r0 [Hr0 Hn0]].
  assert (r0 = r) by congruence. subst r0.
  pose proof (rdd_window_mono df cutoff b b' Hb) as Hm.
  destruct (proj2 (rdd_returns_iff df cutoff b' x_cols)) as [r' [Hr' Hn']];
    [lia|].
  split; [exact Hn0|]. split.
  - exists r'. repeat split; [exact Hr' | exact Hn' | lia].
  - intros neg Hneg. apply (proj2 (rdd_raises_iff df cutoff neg x_cols)).
    unfold rdd_window. rewrite filter_none; [simpl; lia|].
    intros x _. unfold Rleb.
    destruct (Rle_dec (Rabs (fst x)) neg) as [Hle|]; [|reflexivity].
    pose proof (Rabs_pos (fst x)). lra.
Qed.

Lemma demo_rd_window n b :
  1 <= b -> n = (if Rleb 9 b then 21 else 20)%nat ->
  length (rdd_window demo_rd 0 b) = n.
Proof.
  intros Hb ->. rewrite rdd_window_length. unfold demo_rd.
  rewrite filter_app, length_app, filter_all.
  - rewrite repeat_length. simpl.
    replace (9 - 0) with 9 by lra. rewrite (Rabs_right 9) by lra.
    destruct (Rleb 9 b); reflexivity.
  - intros r Hr. apply repeat_spec in Hr. subst r. simpl.
    apply Rleb_Rabs_true. lra.
Qed.

(** X1, witness: the demo frame at bandwidths 5 and 10. *)
Lemma regression_discontinuity_bandwidth_monotone_witness :
  exists r r',
    regression_discontinuity demo_rd 0 5 [] = Return r /\
    regression_discontinuity demo_rd 0 10 [] = Return r' /\
    (rdd_n r <= rdd_n r')%nat.
Proof.
  destruct (proj2 (rdd_returns_iff demo_rd 0 5 [])) as [r [Hr _]].
  { rewrite (demo_rd_window 20 5); [lia | lra|].
    replace (Rleb 9 5) with false; [reflexivity|].
    symmetry. unfold Rleb. destruct (Rle_dec 9 5); [lra | reflexivity]. }
  destruct (regression_discontinuity_bandwidth_monotone demo_rd 0 5 10 [] r Hr)
    as [_ [[r' [Hr' [_ Hle]]] _]]; [lra|].
  exists r, r'. repeat split; assumption.
Defined.

(** X2.  [rdd_bandwidth_sensitivity] returns one record per requested
    bandwidth, in the requested order.  The record of a bandwidth is a
    result, reporting the number of rows inside that bandwidth, exactly
    when at least 20 rows lie inside it; otherwise it is an error record
    carrying the estimator's message. *)
Theorem rdd_bandwidth_sensitivity_rows `{RegressionBackbone}
    df cutoff bandwidths x_cols :
  Forall2
    (fun bw rec =>
       match rec with
       | BandwidthResult b _ _ n =>
           b = bw /\ n = length (rdd_window df cutoff bw) /\ (20 <= n)%nat
       | BandwidthError b e =>
           b = bw /\ (length (rdd_window df cutoff bw) < 20)%nat /\
           e = "Not enough observations in bandwidth to fit RDD."
       end)
    bandwidths
    (rdd_bandwidth_sensitivity df cutoff bandwidths x_cols).
Proof.
  unfold rdd_bandwidth_sensitivity.
  induction bandwidths as [|bw bws IH]; simpl; constructor; [|exact IH].
  destruct (Nat.lt_ge_cases (length (rdd_window df cutoff bw)) 20)
    as [Hlt|Hge].
  - rewrite (proj2 (rdd_raises_iff df cutoff bw x_cols) Hlt). auto.
  - destruct (proj2 (rdd_returns_iff df cutoff bw x_cols) Hge) as [r [-> Hn]].
    rewrite Hn. auto.
Qed.

(** ** The placebo cutoffs of the interrupted time series *)

Lemma string_ltb_leb_trans a b c :
  String.ltb a b = true -> String.leb b c = true -> String.ltb a c = true.
Proof.
  intros Hab Hbc.
  destruct (String.ltb a c) eqn:E; [reflexivity|].
  apply string_ltb_leb in E.
  pose proof (string_leb_trans b c a Hbc E) as Hba.
  apply string_leb_ltb in Hba. congruence.
Qed.

Lemma its_dichotomy (ts : list TSRow) c :
  (exists r, In r ts /\ String.leb c (ts_time r) = true) \/
  (forall r, In r ts -> String.ltb (ts_time r) c = true).
Proof.
  induction ts as [|r ts IH].
  - right. intros r [].
  - destruct (String.leb c (ts_time r)) eqn:E.
    + left. exists r. split; [now left | exact E].
    + destruct IH as [[r' [Hin Hr']]|Hall].
      * left. exists r'. split; [now right | exact Hr'].
      * right. intros r' [<-|Hin]; [|now apply Hall].
        destruct (String.ltb (ts_time r) c) eqn:E'; [reflexivity|].
        apply string_ltb_leb in E'. congruence.
Qed.

(** X3.  [placebo_its_cutoffs] returns one record per requested cutoff, in
    the requested order.  A cutoff gives an error record exactly when every
    observation lies strictly before it, and then so does every later
    cutoff of the sweep. *)
Theorem placebo_its_cutoffs_rows `{RegressionBackbone} ts cutoffs :
  Forall2
    (fun c rec =>
       match rec with
       | CutoffResult c' _ _ _ _ =>
           c' = c /\ exists r, In r ts /\ String.leb c (ts_time r) = true
       | CutoffError c' e =>
           c' = c /\ (forall r, In r ts -> String.ltb (ts_time r) c = true) /\
           e = "intervention_time is after all observations."
       end)
    cutoffs (placebo_its_cutoffs ts cutoffs) /\
  (forall c e c',
     In (CutoffError c e) (placebo_its_cutoffs ts cutoffs) ->
     In c' cutoffs -> String.leb c c' = true ->
     In (CutoffError c' e) (placebo_its_cutoffs ts cutoffs)).
Proof.
  assert (Hrows : forall cs,
    Forall2
      (fun c rec =>
         match rec with
         | CutoffResult c' _ _ _ _ =>
             c' = c /\ exists r, In r ts /\ String.leb c (ts_time r) = true
         | CutoffError c' e =>
             c' = c /\ (forall r, In r ts -> String.ltb (ts_time r) c = true) /\
             e = "intervention_time is after all observations."
         end)
      cs (placebo_its_cutoffs ts cs)).
  { unfold placebo_its_cutoffs.
    induction cs as [|c cs IH]; simpl; constructor; [|exact IH].
    destruct (its_dichotomy ts c) as [Hex|Hall].
    - rewrite (its_returns ts c [] (Some 3%Z) Hex). auto.
    - rewrite (its_raises ts c [] (Some 3%Z) Hall). auto. }
  split; [apply Hrows|].
  intros c e c' Hin Hc' Hle.
  unfold placebo_its_cutoffs in *.
  apply in_map_iff in Hin. destruct Hin as [c0 [Hrec _]].
  destruct (its_dichotomy ts c0) as [Hex|Hall].
  - rewrite (its_returns ts c0 [] (Some 3%Z) Hex) in Hrec. discriminate.
  - rewrite (its_raises ts c0 [] (Some 3%Z) Hall) in Hrec.
    inversion Hrec; subst.
    apply in_map_iff. exists c'. split; [|exact Hc'].
    rewrite (its_raises ts c' [] (Some 3%Z)); [reflexivity|].
    intros r Hr. apply (string_ltb_leb_trans _ c); auto.
Qed.

(** ** The placebo sweep of the synthetic control *)

Lemma synthetic_control_raises_iff d tu it du :
  (exists e, synthetic_control d tu it du = Raise e)
  <-> ((duplicate_labels d tu
        || existsb (duplicate_labels d) (sc_donors d tu du))%bool = true
       \/ sc_donors d tu du = []).
Proof.
  unfold synthetic_control.
  destruct (duplicate_labels d tu
            || existsb (duplicate_labels d) (sc_donors d tu du))%bool.
  - split; [now left | intros _; eexists; reflexivity].
  - destruct (sc_donors d tu du) as [|u us]; split.
    + now right.
    + intros _. eexists. reflexivity.
    + intros [e He]. discriminate.
    + intros [?|?]; discriminate.
Qed.

(** The error of [reindex] comes before the error of [np.vstack]. *)
Lemma synthetic_control_reindex_error d tu it du :
  (duplicate_labels d tu
   || existsb (duplicate_labels d) (sc_donors d tu du))%bool = true ->
  synthetic_control d tu it du
  = Raise "cannot reindex on an axis with duplicate labels".
Proof. intros G. unfold synthetic_control. now rewrite G. Qed.

Lemma duplicate_labels_absent d u :
  ~ In u (map p_unit d) -> duplicate_labels d u = false.
Proof.
  intros Hn. unfold duplicate_labels.
  replace (filter (fun r => String.eqb (p_unit r) u) d) with (@nil PanelRow);
    [reflexivity|].
  symmetry. induction d as [|r d IH]; [reflexivity|].
  cbn [filter]. destruct (String.eqb_spec (p_unit r) u) as [E|E].
  - exfalso. apply Hn. left. exact E.
  - apply IH. intros Hin. apply Hn. now right.
Qed.

Lemma existsb_false_In {A} (f : A -> bool) l x :
  existsb f l = false -> In x l -> f x = false.
Proof.
  intros E Hin. destruct (f x) eqn:Ef; [|reflexivity].
  assert (existsb f l = true) by (apply existsb_exists; now exists x).
  congruence.
Qed.

(** With the default donors every unit of the panel is read: the fit reads
    no repeated period exactly when the panel is keyed. *)
Lemma default_donors_reindex d tu :
  (duplicate_labels d tu
   || existsb (duplicate_labels d) (sc_donors d tu None))%bool = false
  <-> keyed d.
Proof.
  split; [|apply keyed_reindex].
  intros G. apply orb_false_iff in G. destruct G as [G1 G2].
  apply keyed_duplicate_labels. intros u.
  destruct (String.eqb_spec u tu) as [->|Hne]; [exact G1|].
  destruct (in_dec string_dec u (map p_unit d)) as [Hin|Hnin];
    [|now apply duplicate_labels_absent].
  apply (existsb_false_In _ _ u G2).
  unfold sc_donors. apply sorted_In.
  apply filter_In. split; [now apply unique_In|].
  apply negb_true_iff. now apply String.eqb_neq.
Qed.

Lemma unique_from_seen seen l :
  (forall x, In x l -> In x seen) -> unique_from seen l = [].
Proof.
  induction l as [|x l IH]; intros Hall; [reflexivity|]. simpl.
  rewrite (proj2 (str_mem_In x seen)) by (apply Hall; now left).
  apply IH. intros y Hy. apply Hall. now right.
Qed.

Lemma unique_constant u l :
  l <> [] -> (forall x, In x l -> x = u) -> unique l = [u].
Proof.
  destruct l as [|x l]; [congruence|]. intros _ Hall.
  assert (x = u) by (apply Hall; now left). subst x.
  unfold unique. simpl. f_equal.
  apply unique_from_seen. intros y Hy. left. symmetry. apply Hall. now right.
Qed.

Lemma sorted_nil_inv {A} (le : A -> A -> bool) l : sorted le l = [] -> l = [].
Proof.
  intros E. pose proof (sorted_perm le l) as P. rewrite E in P.
  now apply Permutation_nil.
Qed.

(** The default donor list is empty exactly when every row belongs to the
    treated unit. *)
Lemma sc_donors_default_nil d u :
  sc_donors d u None = [] <-> (forall r, In r d -> p_unit r = u).
Proof.
  unfold sc_donors. split.
  - intros Hnil r Hr. apply sorted_nil_inv in Hnil.
    destruct (String.eqb (p_unit r) u) eqn:Eu; [now apply String.eqb_eq|].
    assert (Hf : In (p_unit r)
              (filter (fun u0 => negb (String.eqb u0 u)) (unique (map p_unit d)))).
    { apply filter_In. split; [|now rewrite Eu].
      apply unique_In, in_map. exact Hr. }
    rewrite Hnil in Hf. destruct Hf.
  - intros Hall. rewrite filter_none; [reflexivity|].
    intros x Hx. apply unique_In, in_map_iff in Hx.
    destruct Hx as [r [<- Hr]]. rewrite (Hall r Hr), String.eqb_refl.
    reflexivity.
Qed.

Lemma synthetic_control_default_reindex_error d u it :
  ~ keyed d ->
  synthetic_control d u it None
  = Raise "cannot reindex on an axis with duplicate labels".
Proof.
  intros Hnk. apply synthetic_control_reindex_error.
  destruct (duplicate_labels d u
            || existsb (duplicate_labels d) (sc_donors d u None))%bool eqn:G;
    [reflexivity|].
  exfalso. apply Hnk. now apply (default_donors_reindex d u).
Qed.

Lemma keyed_cases d : keyed d \/ ~ keyed d.
Proof.
  destruct (duplicate_labels d ""
            || existsb (duplicate_labels d) (sc_donors d "" None))%bool eqn:G.
  - right. intros Hk. rewrite (keyed_reindex d "" _ Hk) in G. discriminate.
  - left. now apply (default_donors_reindex d "").
Qed.

(** X4.  [synthetic_control_placebos] returns one record per distinct unit
    of the panel.  It contains an error record exactly when some (unit,
    period) pair occurs on two rows, or the panel is non-empty and all its
    rows belong to one unit.  In the first case every record of the sweep is
    the error of [reindex]; in the second case, on a panel without repeated
    pairs, the sweep is the single error record of [np.vstack]. *)
Theorem synthetic_control_placebos_error_iff df it tu :
  length (synthetic_control_placebos df it tu)
    = length (unique (map p_unit df)) /\
  ((exists u e, In (PlaceboError u e) (synthetic_control_placebos df it tu))
   <-> (~ keyed df
        \/ (df <> [] /\ exists u, forall r, In r df -> p_unit r = u))) /\
  (~ keyed df ->
     synthetic_control_placebos df it tu
     = map (fun u =>
              PlaceboError u "cannot reindex on an axis with duplicate labels")
           (sorted String.leb (unique (map p_unit df)))) /\
  (forall u, keyed df -> df <> [] -> (forall r, In r df -> p_unit r = u) ->
     synthetic_control_placebos df it tu
     = [PlaceboError u "need at least one array to concatenate"]).
Proof.
  assert (Hunits : forall u, df <> [] ->
            (forall r, In r df -> p_unit r = u) ->
            sorted String.leb (unique (map p_unit df)) = [u]).
  { intros u Hne Hall. rewrite (unique_constant u); [reflexivity| |].
    - destruct df; [congruence | discriminate].
    - intros x Hx. apply in_map_iff in Hx. destruct Hx as [r [<- Hr]].
      now apply Hall. }
  assert (Hsingle : forall u, keyed df -> df <> [] ->
            (forall r, In r df -> p_unit r = u) ->
            synthetic_control_placebos df it tu
            = [PlaceboError u "need at least one array to concatenate"]).
  { intros u Hk Hne Hall. unfold synthetic_control_placebos.
    rewrite (Hunits u Hne Hall). cbn [map].
    unfold synthetic_control.
    rewrite (keyed_reindex df u _ Hk).
    now rewrite (proj2 (sc_donors_default_nil df u) Hall). }
  assert (Hdup : ~ keyed df ->
            synthetic_control_placebos df it tu
            = map (fun u =>
                     PlaceboError u
                       "cannot reindex on an axis with duplicate labels")
                  (sorted String.leb (unique (map p_unit df)))).
  { intros Hnk. unfold synthetic_control_placebos. apply map_ext.
    intros u. now rewrite (synthetic_control_default_reindex_error df u it Hnk). }
  split; [|split; [split|split; [exact Hdup | exact Hsingle]]].
  - rewrite <- (length_map placebo_unit), synthetic_control_placebos_units.
    apply Permutation_length, sorted_perm.
  - intros [u [e Hin]]. unfold synthetic_control_placebos in Hin.
    apply in_map_iff in Hin. destruct Hin as [u0 [Hrec Hu0]].
    destruct (synthetic_control df u0 it None) as [r|e0] eqn:E; [discriminate|].
    inversion Hrec; subst.
    apply sorted_In, unique_In, in_map_iff in Hu0.
    destruct Hu0 as [r0 [Hr0 Hin0]].
    destruct (proj1 (synthetic_control_raises_iff df u it None)
                    (ex_intro _ e E)) as [G|Hnil].
    + left. intros Hk. rewrite (keyed_reindex df u _ Hk) in G. discriminate.
    + right. split; [intros ->; destruct Hin0|].
      exists u. now apply sc_donors_default_nil.
  - intros [Hnk|[Hne [u Hall]]].
    + destruct df as [|r0 df0]; [exfalso; apply Hnk; constructor|].
      exists (p_unit r0). eexists. rewrite (Hdup Hnk).
      apply in_map_iff. exists (p_unit r0). split; [reflexivity|].
      apply sorted_In, unique_In. now left.
    + exists u.
      destruct (duplicate_labels df u
                || existsb (duplicate_labels df) (sc_donors df u None))%bool
        eqn:G.
      * eexists. unfold synthetic_control_placebos.
        rewrite (Hunits u Hne Hall). cbn [map].
        rewrite (synthetic_control_reindex_error df u it None G). now left.
      * eexists. rewrite (Hsingle u (proj1 (default_donors_reindex df u) G)
                                  Hne Hall). now left.
Qed.

(** ** The pre-trends test *)

Lemma with_cluster_nobs `{RegressionBackbone} d c m :
  nobs (with_cluster d c m) = nobs m.
Proof. destruct c; reflexivity. Qed.

Lemma ols_fixed_effects_nobs `{RegressionBackbone} d numeric :
  nobs (ols_fixed_effects d numeric) = length d.
Proof. unfold ols_fixed_effects. cbn [nobs OLS_fit]. apply length_map. Qed.

Lemma parallel_trends_pretest_returns `{RegressionBackbone}
    df it x_cols cluster_col :
  let pre := pre_period df it in
  let m0 := ols_fixed_effects pre (pretest_rhs pre x_cols) in
  let m := with_cluster pre cluster_col m0 in
  (10 <= length pre)%nat ->
  exists i,
    index_of "_int" (exog_names m0) = Return i /\
    parallel_trends_pretest df it x_cols cluster_col =
    Return {| pt_coef := nth i (params m0) 0;
              pt_p_value := nth i (pvalues m) 0;
              pt_n := length pre;
              pt_r2 := rsquared m |}.
Proof.
  intros pre m0 m Hlen.
  destruct (fixed_effects_lengths pre cluster_col (pretest_rhs pre x_cols))
    as [Hp Hq].
  fold m0 in Hp, Hq. fold m in Hp, Hq.
  destruct (index_of_In "_int" (exog_names m0)) as [i [Hi Hlt]].
  { apply ols_fixed_effects_names. simpl. tauto. }
  exists i. split; [exact Hi|].
  unfold parallel_trends_pretest. fold (pre_period df it). fold pre.
  rewrite (proj2 (Nat.ltb_ge (length pre) 10) Hlen).
  cbv zeta. fold (pretest_rhs pre x_cols). fold m0. fold m.
  assert (Hn : exog_names m = exog_names m0) by apply with_cluster_names.
  assert (Hpm : params m = params m0) by apply with_cluster_params.
  assert (Hno : nobs m = length pre).
  { unfold m. rewrite with_cluster_nobs. apply ols_fixed_effects_nobs. }
  rewrite Hn, Hi. cbn [bind].
  rewrite !nth_error_nth_total by (rewrite ?Hp, ?Hq, ?Hn; exact Hlt).
  cbn [bind]. now rewrite Hpm, Hno.
Qed.

(** X5.  [parallel_trends_pretest] raises exactly when fewer than 10 rows
    lie strictly before the intervention period; otherwise it returns, and
    the reported [n] is the number of those pre-period rows. *)
Theorem parallel_trends_pretest_min_observations `{RegressionBackbone}
    df it x_cols cluster_col :
  let n_pre :=
    length (filter (fun r => String.ltb (d_time r) it) df) in
  (parallel_trends_pretest df it x_cols cluster_col
   = Raise "Not enough pre-period observations for parallel trends test."
   <-> (n_pre < 10)%nat) /\
  ((exists r, parallel_trends_pretest df it x_cols cluster_col = Return r /\
              pt_n r = n_pre)
   <-> (10 <= n_pre)%nat).
Proof.
  intros n_pre.
  destruct (Nat.lt_ge_cases n_pre 10) as [Hlt|Hge].
  - assert (E : parallel_trends_pretest df it x_cols cluster_col
       = Raise "Not enough pre-period observations for parallel trends test.").
    { unfold parallel_trends_pretest. fold n_pre.
      now rewrite (proj2 (Nat.ltb_lt n_pre 10) Hlt). }
    split; split; auto.
    + intros [r [Hr _]]. rewrite E in Hr. discriminate.
    + lia.
  - destruct (parallel_trends_pretest_returns df it x_cols cluster_col Hge)
      as [i [_ E]].
    split; split.
    + rewrite E. discriminate.
    + lia.
    + auto.
    + intros _. eexists. split; [exact E | reflexivity].
Qed.

(** X6.  The pre-trend regression depends on the pre-period rows only: for
    two frames whose rows strictly before the intervention period are
    permutations of each other, whatever rows they hold at or after it, the
    test raises on both or on neither, the two designs have the same columns
    and the same observations up to their order, and a least-squares routine
    that does not depend on the order of the observations gives the same
    coefficient. *)
Theorem parallel_trends_pretest_pre_rows_only `{RegressionBackbone}
    df df' it x_cols cluster_col :
  Permutation (filter (fun r => String.ltb (d_time r) it) df)
              (filter (fun r => String.ltb (d_time r) it) df') ->
  let pre := pre_period df it in
  let pre' := pre_period df' it in
  let m := ols_fixed_effects pre (pretest_rhs pre x_cols) in
  let m' := ols_fixed_effects pre' (pretest_rhs pre' x_cols) in
  (forall e, parallel_trends_pretest df it x_cols cluster_col = Raise e
             <-> parallel_trends_pretest df' it x_cols cluster_col = Raise e) /\
  exog_names m = exog_names m' /\
  Permutation (observations m) (observations m') /\
  (row_order_independent ->
   result_map pt_coef (parallel_trends_pretest df it x_cols cluster_col)
   = result_map pt_coef (parallel_trends_pretest df' it x_cols cluster_col)).
Proof.
  intros Hp pre pre' m m'.
  fold (pre_period df it) in Hp. fold (pre_period df' it) in Hp.
  fold pre in Hp. fold pre' in Hp.
  pose proof (Permutation_length Hp) as Hlen.
  assert (Hrhs : pretest_rhs pre x_cols = pretest_rhs pre' x_cols).
  { unfold pretest_rhs.
    fold (categories (map d_time pre)). fold (categories (map d_time pre')).
    rewrite (categories_perm (map d_time pre) (map d_time pre'))
      by now apply Permutation_map.
    reflexivity. }
  destruct (ols_fixed_effects_design pre pre' (pretest_rhs pre' x_cols) Hp)
    as [Hn Hobs].
  assert (Hraise : forall e,
            parallel_trends_pretest df it x_cols cluster_col = Raise e
            <-> parallel_trends_pretest df' it x_cols cluster_col = Raise e).
  { intros e.
    destruct (Nat.lt_ge_cases (length pre) 10) as [Hlt|Hge].
    - unfold parallel_trends_pretest.
      fold (pre_period df it). fold (pre_period df' it). fold pre. fold pre'.
      rewrite <- Hlen. rewrite (proj2 (Nat.ltb_lt _ 10) Hlt). reflexivity.
    - destruct (parallel_trends_pretest_returns df it x_cols cluster_col Hge)
        as [i [_ ->]].
      fold pre' in Hlen. rewrite Hlen in Hge.
      destruct (parallel_trends_pretest_returns df' it x_cols cluster_col Hge)
        as [i' [_ ->]].
      split; discriminate. }
  split; [exact Hraise|]. unfold m, m'. rewrite Hrhs.
  split; [exact Hn|]. split; [exact Hobs|].
  intros Hroi.
  destruct (Nat.lt_ge_cases (length pre) 10) as [Hlt|Hge].
  - unfold parallel_trends_pretest.
    fold (pre_period df it). fold (pre_period df' it). fold pre. fold pre'.
    rewrite <- Hlen. now rewrite (proj2 (Nat.ltb_lt _ 10) Hlt).
  - destruct (parallel_trends_pretest_returns df it x_cols cluster_col Hge)
      as [i [Hi ->]].
    rewrite Hlen in Hge.
    destruct (parallel_trends_pretest_returns df' it x_cols cluster_col Hge)
      as [i' [Hi' ->]].
    cbn [result_map pt_coef]. fold pre in Hi |- *. fold pre' in Hi' |- *.
    rewrite Hrhs in Hi |- *.
    destruct (ols_fixed_effects_perm pre pre' (pretest_rhs pre' x_cols)
                Hroi Hp) as [_ Hpar].
    rewrite Hn in Hi. rewrite Hi in Hi'.
    assert (i = i') by congruence. subst i'.
    now rewrite Hpar.
Qed.

(** X6, witness: the two-unit frame against its reversal with the rows of
    the intervention month removed, fitted through the normal equations. *)
Lemma parallel_trends_pretest_pre_rows_only_witness :
  result_map pt_coef (parallel_trends_pretest pretrend_did "2020-07" [] None)
  = result_map pt_coef
      (parallel_trends_pretest (rev (firstn 12 pretrend_did)) "2020-07" [] None).
Proof.
  assert (Hp : Permutation
                 (filter (fun r => String.ltb (d_time r) "2020-07") pretrend_did)
                 (filter (fun r => String.ltb (d_time r) "2020-07")
                         (rev (firstn 12 pretrend_did)))).
  { simpl. apply Permutation_rev. }
  destruct (@parallel_trends_pretest_pre_rows_only diagonal_backbone
              pretrend_did (rev (firstn 12 pretrend_did)) "2020-07" [] None Hp)
    as [_ [_ [_ Hcoef]]].
  apply Hcoef. apply diagonal_row_order_independent.
Defined.

(** ** The covariate-set sweep *)

Lemma sensitivity_runs_returns `{RegressionBackbone} df cluster_col cov_sets :
  exists rs,
    sensitivity_runs df cluster_col cov_sets = Return rs /\
    map run_covariates rs = cov_sets.
Proof.
  induction cov_sets as [|cs rest [rs [IH Hm]]].
  - exists []. split; reflexivity.
  - destruct (difference_in_differences_returns df cs cluster_col)
      as [i [_ E]].
    cbn [sensitivity_runs]. rewrite E, IH. cbn [bind].
    eexists. split; [reflexivity|]. cbn [map run_covariates]. now rewrite Hm.
Qed.

Lemma slice_to_firstn {A} n (l : list A) :
  exists k, slice_to n l = firstn k l /\ ((0 <= n)%Z -> k = Z.to_nat n).
Proof.
  unfold slice_to. destruct (0 <=? n)%Z eqn:E.
  - eexists. split; reflexivity.
  - eexists. split; [reflexivity|]. apply Z.leb_gt in E. lia.
Qed.

Lemma firstn_In {A} k (l : list A) x : In x (firstn k l) -> In x l.
Proof.
  intros Hin. rewrite <- (firstn_skipn k l). apply in_or_app. now left.
Qed.

Lemma firstn_NoDup {A} k (l : list A) : NoDup l -> NoDup (firstn k l).
Proof.
  intros Hnd. rewrite <- (firstn_skipn k l) in Hnd.
  now apply NoDup_app_remove_r in Hnd.
Qed.

Lemma combinations_spec l r cs :
  In cs (combinations l r) ->
  incl cs l /\ (NoDup l -> NoDup cs) /\ length cs = r.
Proof.
  revert r cs. induction l as [|x l IH]; intros [|r] cs; simpl.
  - intros [<-|[]]. repeat split; [intros y [] | constructor].
  - intros [].
  - intros [<-|[]]. repeat split; [intros y [] | constructor].
  - intros Hin. apply in_app_or in Hin. destruct Hin as [Hin|Hin].
    + apply in_map_iff in Hin. destruct Hin as [cs' [<- Hin]].
      destruct (IH r cs' Hin) as [Hi [Hn Hl]]. repeat split.
      * intros y [<-|Hy]; [now left | right; now apply Hi].
      * intros Hnd. inversion Hnd; subst. constructor; [|now apply Hn].
        intros Hx. now apply Hi in Hx.
      * simpl. now rewrite Hl.
    + destruct (IH (S r) cs Hin) as [Hi [Hn Hl]]. repeat split.
      * intros y Hy. right. now apply Hi.
      * intros Hnd. inversion Hnd; subst. now apply Hn.
      * exact Hl.
Qed.

Lemma append_until_In combs cov_sets max_models cs :
  In cs (append_until combs cov_sets max_models) ->
  In cs cov_sets \/ In cs combs.
Proof.
  revert cov_sets. induction combs as [|c combs IH]; intros cov_sets; simpl.
  - now left.
  - destruct (max_models <=? _)%Z.
    + intros Hin. apply in_app_or in Hin.
      destruct Hin as [Hin|[<-|[]]]; [now left | right; now left].
    + intros Hin. apply IH in Hin. destruct Hin as [Hin|Hin]; [|right; now right].
      apply in_app_or in Hin.
      destruct Hin as [Hin|[<-|[]]]; [now left | right; now left].
Qed.

Lemma append_sizes_In sizes base cov_sets max_models cs :
  In cs (append_sizes sizes base cov_sets max_models) ->
  In cs cov_sets \/ exists r, In cs (combinations base r).
Proof.
  revert cov_sets. induction sizes as [|r sizes IH]; intros cov_sets; simpl.
  - now left.
  - destruct (max_models <=? _)%Z; intros Hin.
    + apply append_until_In in Hin.
      destruct Hin as [Hin|Hin]; [now left | right; now exists r].
    + apply IH in Hin. destruct Hin as [Hin|Hin]; [|now right].
      apply append_until_In in Hin.
      destruct Hin as [Hin|Hin]; [now left | right; now exists r].
Qed.

Lemma list_string_eqb_false key seen :
  existsb (list_string_eqb key) seen = false -> ~ In key seen.
Proof.
  intros E Hin.
  assert (Ht : existsb (list_string_eqb key) seen = true).
  { apply existsb_exists. exists key. split; [exact Hin|].
    unfold list_string_eqb. destruct (list_eq_dec string_dec key key); congruence. }
  congruence.
Qed.

Lemma list_string_eqb_true key seen :
  existsb (list_string_eqb key) seen = true -> In key seen.
Proof.
  intros E. apply existsb_exists in E. destruct E as [k [Hin Hk]].
  unfold list_string_eqb in Hk.
  destruct (list_eq_dec string_dec key k); [now subst | discriminate].
Qed.

Lemma uniq_cov_sets_In seen l cs : In cs (uniq_cov_sets seen l) -> In cs l.
Proof.
  revert seen. induction l as [|c l IH]; intros seen; simpl; [tauto|].
  destruct (existsb _ seen).
  - intros Hin. right. now apply (IH seen).
  - intros [<-|Hin]; [now left | right; now apply (IH _ Hin)].
Qed.

Lemma uniq_cov_sets_fresh seen l cs :
  In cs (uniq_cov_sets seen l) -> ~ In (sorted String.leb cs) seen.
Proof.
  revert seen. induction l as [|c l IH]; intros seen; simpl; [tauto|].
  destruct (existsb _ seen) eqn:E.
  - apply IH.
  - intros [<-|Hin]; [now apply list_string_eqb_false|].
    intros Hs. apply (IH _ Hin). now right.
Qed.

Lemma uniq_cov_sets_keys seen l :
  NoDup (map (sorted String.leb) (uniq_cov_sets seen l)).
Proof.
  revert seen. induction l as [|c l IH]; intros seen; simpl; [constructor|].
  destruct (existsb _ seen) eqn:E; [apply IH|].
  simpl. constructor; [|apply IH].
  intros Hin. apply in_map_iff in Hin. destruct Hin as [cs [Hk Hcs]].
  apply uniq_cov_sets_fresh in Hcs. apply Hcs. left. now symmetry.
Qed.

Lemma candidate_cov_sets_In base_covariates max_models cs :
  In cs (candidate_cov_sets base_covariates max_models) ->
  NoDup cs /\ incl cs base_covariates.
Proof.
  unfold candidate_cov_sets.
  destruct (slice_to_firstn max_models
    (uniq_cov_sets []
       (if (Z.of_nat (length ([[]; unique base_covariates] ++
              map (fun drop => filter (fun c => negb (String.eqb c drop))
                                       (unique base_covariates))
                  (unique base_covariates))) <? max_models)%Z
        then append_sizes (seq 1 (Nat.min 3 (length (unique base_covariates))))
               (unique base_covariates)
               ([[]; unique base_covariates] ++
                map (fun drop => filter (fun c => negb (String.eqb c drop))
                                        (unique base_covariates))
                    (unique base_covariates)) max_models
        else [[]; unique base_covariates] ++
             map (fun drop => filter (fun c => negb (String.eqb c drop))
                                     (unique base_covariates))
                 (unique base_covariates)))) as [k [-> _]].
  intros Hin. apply firstn_In, uniq_cov_sets_In in Hin.
  assert (Hbase : forall cs,
            In cs ([[]; unique base_covariates] ++
                   map (fun drop => filter (fun c => negb (String.eqb c drop))
                                           (unique base_covariates))
                       (unique base_covariates)) ->
            NoDup cs /\ incl cs base_covariates).
  { intros c [<-|[<-|Hc]].
    - split; [constructor | intros y []].
    - split; [apply unique_nodup | intros y Hy; now apply unique_In].
    - apply in_map_iff in Hc. destruct Hc as [drop [<- _]]. split.
      + apply NoDup_filter, unique_nodup.
      + intros y Hy. apply filter_In in Hy. now apply unique_In. }
  destruct (Z.of_nat _ <? max_models)%Z; [|now apply Hbase].
  apply append_sizes_In in Hin. destruct Hin as [Hin|[r Hin]].
  - now apply Hbase.
  - apply combinations_spec in Hin. destruct Hin as [Hi [Hn _]]. split.
    + apply Hn, unique_nodup.
    + intros y Hy. apply unique_In. now apply Hi.
Qed.

(** X7.  [covariate_set_sensitivity] always returns.  Every run uses a
    duplicate-free list of covariates drawn from [base_covariates], and no
    two runs use the same set of covariates: the sorted covariate lists of
    the runs are pairwise distinct. *)
Theorem covariate_set_sensitivity_distinct_subsets `{RegressionBackbone}
    df base_covariates0 cluster_col max_models :
  exists r,
    covariate_set_sensitivity df base_covariates0 cluster_col max_models
      = Return r /\
    base_covariates r = unique base_covariates0 /\
    (forall run, In run (runs r) ->
       NoDup (run_covariates run) /\
       incl (run_covariates run) base_covariates0) /\
    NoDup (map (fun run => sorted String.leb (run_covariates run)) (runs r)).
Proof.
  unfold covariate_set_sensitivity.
  destruct (sensitivity_runs_returns df cluster_col
              (candidate_cov_sets base_covariates0 max_models))
    as [rs [-> Hm]].
  cbn [bind]. eexists. split; [reflexivity|]. cbn [base_covariates runs].
  split; [reflexivity|]. split.
  - intros run Hin.
    apply (candidate_cov_sets_In base_covariates0 max_models).
    rewrite <- Hm. now apply in_map.
  - rewrite <- (map_map run_covariates (sorted String.leb)), Hm.
    unfold candidate_cov_sets.
    match goal with
    | |- NoDup (map _ (slice_to _ ?l)) =>
        destruct (slice_to_firstn max_models l) as [k [-> _]]
    end.
    rewrite <- firstn_map. apply firstn_NoDup, uniq_cov_sets_keys.
Qed.

Lemma append_until_prefix combs cov_sets max_models :
  exists extra, append_until combs cov_sets max_models = cov_sets ++ extra.
Proof.
  revert cov_sets. induction combs as [|c combs IH]; intros cov_sets; simpl.
  - exists []. now rewrite app_nil_r.
  - destruct (max_models <=? _)%Z.
    + now exists [c].
    + destruct (IH (cov_sets ++ [c])) as [extra ->].
      exists (c :: extra). now rewrite <- app_assoc.
Qed.

Lemma append_sizes_prefix sizes base cov_sets max_models :
  exists extra,
    append_sizes sizes base cov_sets max_models = cov_sets ++ extra.
Proof.
  revert cov_sets. induction sizes as [|r sizes IH]; intros cov_sets; simpl.
  - exists []. now rewrite app_nil_r.
  - destruct (append_until_prefix (combinations base r) cov_sets max_models)
      as [e1 ->].
    destruct (max_models <=? _)%Z.
    + now exists e1.
    + destruct (IH (cov_sets ++ e1)) as [e2 ->].
      exists (e1 ++ e2). now rewrite <- app_assoc.
Qed.

Lemma uniq_cov_sets_app seen l1 l2 :
  exists tail,
    uniq_cov_sets seen (l1 ++ l2) = uniq_cov_sets seen l1 ++ tail.
Proof.
  revert seen. induction l1 as [|c l1 IH]; intros seen; simpl.
  - now exists (uniq_cov_sets seen l2).
  - destruct (existsb _ seen); [apply IH|].
    destruct (IH (sorted String.leb c :: seen)) as [tail ->].
    now exists tail.
Qed.

Lemma uniq_cov_sets_length seen l :
  (length (uniq_cov_sets seen l) <= length l)%nat.
Proof.
  revert seen. induction l as [|c l IH]; intros seen; simpl; [lia|].
  destruct (existsb _ seen).
  - specialize (IH seen). lia.
  - specialize (IH (sorted String.leb c :: seen)). simpl. lia.
Qed.

(** Every set offered to the de-duplication loop is represented in its
    output, unless its key had been seen before. *)
Lemma uniq_cov_sets_represents seen l cs :
  In cs l ->
  In (sorted String.leb cs) seen \/
  exists cs', In cs' (uniq_cov_sets seen l) /\
              sorted String.leb cs' = sorted String.leb cs.
Proof.
  revert seen. induction l as [|c l IH]; intros seen; simpl; [tauto|].
  intros [->|Hin].
  - destruct (existsb _ seen) eqn:E.
    + left. now apply list_string_eqb_true.
    + right. exists cs. split; [now left | reflexivity].
  - destruct (existsb _ seen) eqn:E.
    + destruct (IH seen Hin) as [Hs|[cs' [Hc Hk]]]; [now left|].
      right. now exists cs'.
    + destruct (IH (sorted String.leb c :: seen) Hin)
        as [[Hs|Hs]|[cs' [Hc Hk]]].
      * right. exists c. split; [now left | exact Hs].
      * now left.
      * right. exists cs'. split; [now right | exact Hk].
Qed.

Lemma sorted_eq_perm (a b : list string) :
  sorted String.leb a = sorted String.leb b -> Permutation a b.
Proof.
  intros E.
  rewrite <- (sorted_perm String.leb a), E. apply sorted_perm.
Qed.

Lemma candidate_cov_sets_shape base_covariates max_models :
  exists tail k,
    candidate_cov_sets base_covariates max_models
    = firstn k (uniq_cov_sets [] (core_cov_sets (unique base_covariates))
                ++ tail) /\
    ((0 <= max_models)%Z -> k = Z.to_nat max_models).
Proof.
  unfold candidate_cov_sets. fold (core_cov_sets (unique base_covariates)).
  set (core := core_cov_sets (unique base_covariates)).
  assert (Hpre : exists extra,
            (if (Z.of_nat (length core) <? max_models)%Z
             then append_sizes
                    (seq 1 (Nat.min 3 (length (unique base_covariates))))
                    (unique base_covariates) core max_models
             else core) = core ++ extra).
  { destruct (Z.of_nat (length core) <? max_models)%Z.
    - apply append_sizes_prefix.
    - exists []. now rewrite app_nil_r. }
  destruct Hpre as [extra ->].
  destruct (uniq_cov_sets_app [] core extra) as [tail ->].
  destruct (slice_to_firstn max_models (uniq_cov_sets [] core ++ tail))
    as [k [-> Hk]].
  now exists tail, k.
Qed.

(** X8.  For a non-negative budget [max_models] the sweep fits at most
    [max_models] models.  With a budget of at least one, the first run is
    the model without covariates.  With a budget of at least
    [len(base) + 2], where [base] is the de-duplicated covariate list, the
    runs include the full covariate set and, for every covariate, the set
    that leaves it out. *)
Theorem covariate_set_sensitivity_budget `{RegressionBackbone}
    df base_covariates0 cluster_col max_models :
  (0 <= max_models)%Z ->
  exists r,
    covariate_set_sensitivity df base_covariates0 cluster_col max_models
      = Return r /\
    (Z.of_nat (length (runs r)) <= max_models)%Z /\
    ((1 <= max_models)%Z ->
       exists run rest, runs r = run :: rest /\ run_covariates run = []) /\
    ((Z.of_nat (length (unique base_covariates0)) + 2 <= max_models)%Z ->
       (exists run, In run (runs r) /\
          Permutation (run_covariates run) (unique base_covariates0)) /\
       (forall drop, In drop base_covariates0 ->
          exists run, In run (runs r) /\
            Permutation (run_covariates run)
              (filter (fun c => negb (String.eqb c drop))
                      (unique base_covariates0)))).
Proof.
  intros Hmax. unfold covariate_set_sensitivity.
  destruct (sensitivity_runs_returns df cluster_col
              (candidate_cov_sets base_covariates0 max_models))
    as [rs [-> Hm]].
  cbn [bind]. eexists. split; [reflexivity|]. cbn [runs].
  destruct (candidate_cov_sets_shape base_covariates0 max_models)
    as [tail [k [Hshape Hk]]].
  specialize (Hk Hmax). subst k. rewrite Hshape in Hm.
  set (base := unique base_covariates0) in *.
  split; [|split].
  - rewrite <- (length_map run_covariates), Hm, length_firstn. lia.
  - intros H1.
    destruct (Z.to_nat max_models) as [|k] eqn:Ek; [lia|].
    simpl in Hm. destruct rs as [|run rest]; [discriminate|].
    exists run, rest. split; [reflexivity|].
    simpl in Hm. congruence.
  - intros Hbudget.
    assert (Hkeep : forall cs,
              In cs (uniq_cov_sets [] (core_cov_sets base)) ->
              exists run, In run rs /\ run_covariates run = cs).
    { intros cs Hcs.
      assert (Hin : In cs (map run_covariates rs)).
      { rewrite Hm, firstn_app.
        apply in_or_app. left.
        rewrite firstn_all2; [exact Hcs|].
        pose proof (uniq_cov_sets_length [] (core_cov_sets base)) as Hl.
        assert (Hc : length (core_cov_sets base) = S (S (length base))).
        { unfold core_cov_sets. rewrite length_app, length_map. reflexivity. }
        rewrite Hc in Hl. lia. }
      apply in_map_iff in Hin. destruct Hin as [run [Hr Hin]].
      now exists run. }
    assert (Hrep : forall cs, In cs (core_cov_sets base) ->
              exists run, In run rs /\ Permutation (run_covariates run) cs).
    { intros cs Hcs.
      destruct (uniq_cov_sets_represents [] _ cs Hcs) as [[]|[cs' [Hc Hkey]]].
      destruct (Hkeep cs' Hc) as [run [Hin Hr]].
      exists run. split; [exact Hin|]. rewrite Hr.
      now apply sorted_eq_perm. }
    split.
    + apply Hrep. right. now left.
    + intros drop Hdrop. apply Hrep. right. right.
      apply in_map_iff. exists drop. split; [reflexivity|].
      now apply unique_In.
Qed.

(** X8, witness: two covariates and the default budget of 25 models. *)
Lemma covariate_set_sensitivity_budget_witness :
  exists r,
    covariate_set_sensitivity demo_did ["x"; "z"] None 25 = Return r /\
    (Z.of_nat (length (runs r)) <= 25)%Z.
Proof.
  destruct (covariate_set_sensitivity_budget demo_did ["x"; "z"] None 25)
    as [r [Hr [Hlen _]]]; [lia|].
  exists r. split; assumption.
Defined.

(** ** Model comparison *)

(** X9.  The DiD summary carries neither a BIC nor an AIC, so
    [compare_did_models] scores every candidate with BIC 0: for a
    non-empty candidate list it returns one score per candidate, in the
    order of the candidates, named [did_spec_1], [did_spec_2], ..., each
    with weight [1 / n] and with the ATT of the DiD fit on that candidate's
    covariates.  For an empty candidate list it raises. *)
Theorem compare_did_models_uniform_weights `{RegressionBackbone}
    df candidate_covariates cluster_col :
  (candidate_covariates = [] ->
   compare_did_models df candidate_covariates cluster_col
   = Raise "min() arg is an empty sequence") /\
  (candidate_covariates <> [] ->
   exists scores,
     compare_did_models df candidate_covariates cluster_col = Return scores /\
     map ms_name scores
       = map (fun j => ("did_spec_" ++ str_of_N (N.of_nat j))%string)
             (seq 1 (length candidate_covariates)) /\
     Forall (fun s => ms_bic s = 0 /\
                      ms_weight s = 1 / INR (length candidate_covariates))
            scores /\
     map (fun s => Return (ms_att s)) scores
       = map (fun covs =>
                result_map att
                  (difference_in_differences df covs cluster_col))
             candidate_covariates).
Proof.
  split.
  - intros ->. reflexivity.
  - intros Hne.
    destruct (fit_candidates_spec df cluster_col 0 candidate_covariates)
      as [tmp [E [Hn [Hb Hr]]]].
    unfold compare_did_models. rewrite E. cbn [bind]. rewrite Hb.
    rewrite bic_weights_equal_bics
      by (destruct candidate_covariates; [congruence | discriminate]).
    cbn [bind].
    assert (Hlen : length tmp = length candidate_covariates).
    { rewrite <- (length_map (fun t => snd (fst t)) tmp), Hb.
      apply repeat_length. }
    set (w := 1 / INR (length candidate_covariates)).
    rewrite <- Hlen in Hn |- *. rewrite combine_repeat_r, map_map.
    rewrite sorted_all_le.
    + eexists. split; [reflexivity|]. rewrite !map_map. split; [|split].
      * rewrite <- Hn. apply map_ext. now intros [[name bic] res].
      * apply Forall_forall. intros s Hs. apply in_map_iff in Hs.
        destruct Hs as [[[name bic] res] [<- Hin]]. cbn [ms_bic ms_weight].
        split; [|reflexivity].
        assert (Hin' : In bic (map (fun t => snd (fst t)) tmp)).
        { apply in_map_iff. now exists (name, bic, res). }
        rewrite Hb in Hin'. now apply repeat_spec in Hin'.
      * rewrite <- (map_map (fun covs => difference_in_differences df covs cluster_col)
                            (result_map att)).
        rewrite <- Hr, map_map. apply map_ext. now intros [[name bic] res].
    + intros x y Hx Hy. apply in_map_iff in Hx, Hy.
      destruct Hx as [[[n1 b1] r1] [<- _]], Hy as [[[n2 b2] r2] [<- _]].
      cbn [ms_weight]. apply (proj2 (Rleb_true _ _)). lra.
Qed.

Lemma py_min_shift c bics bmin :
  py_min bics = Return bmin ->
  py_min (map (fun b => b + c) bics) = Return (bmin + c).
Proof.
  intros Hmin.
  assert (Hne : bics <> []) by (intros ->; discriminate).
  destruct (py_min_spec bics Hne) as [m [Hm [Hin Hle]]].
  assert (m = bmin) by congruence. subst m.
  assert (Hne' : map (fun b => b + c) bics <> [])
    by (destruct bics; [congruence | discriminate]).
  destruct (py_min_spec _ Hne') as [m' [Hm' [Hin' Hle']]].
  rewrite Hm'. f_equal.
  apply in_map_iff in Hin'. destruct Hin' as [b [<- Hb]].
  specialize (Hle b Hb).
  specialize (Hle' (bmin + c) (in_map (fun b => b + c) _ _ Hin)).
  lra.
Qed.

(** X10.  BIC weights depend on BIC differences only: adding the same
    constant to every BIC leaves the result of [bic_weights] unchanged
    (and the empty list raises either way). *)
Theorem bic_weights_shift_invariant c bics :
  bic_weights (map (fun b => b + c) bics) = bic_weights bics.
Proof.
  destruct bics as [|b0 bics]; [reflexivity|].
  assert (Hne : b0 :: bics <> []) by discriminate.
  destruct (py_min_spec _ Hne) as [bmin [Hmin _]].
  rewrite (bic_weights_eq _ bmin Hne Hmin).
  rewrite (bic_weights_eq _ (bmin + c)); [|discriminate|].
  - f_equal. rewrite !map_map.
    assert (Hw : forall b, raw_weight (bmin + c) (b + c) = raw_weight bmin b).
    { intros b. unfold raw_weight. f_equal. lra. }
    rewrite (map_ext (fun b => raw_weight (bmin + c) (b + c))
                     (raw_weight bmin)) by exact Hw.
    apply map_ext. intros b. now rewrite Hw.
  - now apply py_min_shift.
Qed.

(** ** Symmetries of the regression discontinuity *)

Lemma rdd_eval `{RegressionBackbone} df cutoff bandwidth x_cols :
  let d := rdd_window df cutoff bandwidth in
  let m := rdd_model d x_cols in
  regression_discontinuity df cutoff bandwidth x_cols =
  if (length d <? 20)%nat then
    Raise "Not enough observations in bandwidth to fit RDD."
  else
    Return {| discontinuity := nth 2 (params m) 0;
              rdd_p_value := nth 2 (pvalues m) 0;
              rdd_bandwidth := bandwidth;
              rdd_n := length d;
              rdd_r2 := rsquared m;
              rdd_aic := aic m;
              rdd_bic := bic m |}.
Proof.
  intros d m. unfold regression_discontinuity. cbv zeta. fold d.
  destruct (length d <? 20)%nat; [reflexivity|]. fold m.
  destruct (rdd_model_lengths d x_cols) as [Hp Hq]. fold m in Hp, Hq.
  change (index_of "_treat" (rdd_columns x_cols)) with (@Return nat 2%nat).
  cbn [bind]. rewrite !nth_error_nth_total by lia. cbn [bind].
  do 2 f_equal. unfold m, rdd_model. cbn [nobs OLS_fit]. apply length_map.
Qed.

Lemma rdd_window_shift c df cutoff bandwidth :
  rdd_window (map (shift_running c) df) (cutoff + c) bandwidth
  = map (fun rr => (fst rr, shift_running c (snd rr)))
        (rdd_window df cutoff bandwidth).
Proof.
  unfold rdd_window. induction df as [|r df IH]; [reflexivity|].
  cbn [map filter fst]. cbn [map] in IH. rewrite IH.
  replace (rd_running (shift_running c r) - (cutoff + c))
    with (rd_running r - cutoff) by (cbn [rd_running shift_running]; lra).
  destruct (Rleb (Rabs (rd_running r - cutoff)) bandwidth); reflexivity.
Qed.

(** X11.  The regression discontinuity sees the running variable only
    through its distance to the cutoff: moving every running value and the
    cutoff by the same amount changes nothing in the result. *)
Theorem regression_discontinuity_translation `{RegressionBackbone}
    c df cutoff bandwidth x_cols :
  regression_discontinuity (map (shift_running c) df) (cutoff + c)
                           bandwidth x_cols
  = regression_discontinuity df cutoff bandwidth x_cols.
Proof.
  rewrite !rdd_eval. cbv zeta. rewrite rdd_window_shift, length_map.
  assert (Hm : rdd_model
                 (map (fun rr => (fst rr, shift_running c (snd rr)))
                      (rdd_window df cutoff bandwidth)) x_cols
               = rdd_model (rdd_window df cutoff bandwidth) x_cols).
  { unfold rdd_model. cbv zeta. rewrite !map_map. reflexivity. }
  now rewrite Hm.
Qed.

Lemma rdd_window_perm df df' cutoff bandwidth :
  Permutation df df' ->
  Permutation (rdd_window df cutoff bandwidth)
              (rdd_window df' cutoff bandwidth).
Proof.
  intros Hp. unfold rdd_window.
  induction Hp; simpl.
  - constructor.
  - destruct (Rleb _ _); [now constructor | assumption].
  - destruct (Rleb (Rabs (rd_running x - cutoff)) bandwidth),
             (Rleb (Rabs (rd_running y - cutoff)) bandwidth);
      try reflexivity; try constructor; reflexivity.
  - etransitivity; eassumption.
Qed.

(** X12.  The regression discontinuity does not depend on the order of the
    rows of the frame except through the least-squares routine: on a
    permutation of the rows it raises on both frames or on neither, it uses
    the same number of observations, the observations inside the bandwidth
    are the same up to their order, and a routine that does not depend on
    the order of the observations gives the same discontinuity. *)
Theorem regression_discontinuity_row_order `{RegressionBackbone}
    df df' cutoff bandwidth x_cols :
  Permutation df df' ->
  let m := rdd_model (rdd_window df cutoff bandwidth) x_cols in
  let m' := rdd_model (rdd_window df' cutoff bandwidth) x_cols in
  (forall e, regression_discontinuity df cutoff bandwidth x_cols = Raise e
             <-> regression_discontinuity df' cutoff bandwidth x_cols
                 = Raise e) /\
  result_map rdd_n (regression_discontinuity df cutoff bandwidth x_cols)
  = result_map rdd_n (regression_discontinuity df' cutoff bandwidth x_cols) /\
  exog_names m = exog_names m' /\
  Permutation (observations m) (observations m') /\
  (row_order_independent ->
   result_map (fun r => (discontinuity r, rdd_n r))
              (regression_discontinuity df cutoff bandwidth x_cols)
   = result_map (fun r => (discontinuity r, rdd_n r))
                (regression_discontinuity df' cutoff bandwidth x_cols)).
Proof.
  intros Hp m m'.
  pose proof (rdd_window_perm df df' cutoff bandwidth Hp) as Hw.
  rewrite !rdd_eval. cbv zeta.
  rewrite (Permutation_length Hw).
  split; [|split; [|split; [|split]]].
  - intros e.
    destruct (length (rdd_window df' cutoff bandwidth) <? 20)%nat;
      [reflexivity | split; discriminate].
  - destruct (length (rdd_window df' cutoff bandwidth) <? 20)%nat;
      reflexivity.
  - reflexivity.
  - unfold m, m', rdd_model, observations. cbv zeta.
    cbn [exog endog OLS_fit]. rewrite !combine_map.
    now apply Permutation_map.
  - intros Hroi.
    destruct (length (rdd_window df' cutoff bandwidth) <? 20)%nat;
      [reflexivity|].
    cbn [result_map discontinuity rdd_n]. do 3 f_equal.
    unfold rdd_model. cbv zeta. now apply OLS_fit_row_order.
Qed.

(** X12, witness: the demo frame and the frame with its rows reversed,
    fitted through the normal equations. *)
Lemma regression_discontinuity_row_order_witness :
  result_map (fun r => (discontinuity r, rdd_n r))
             (regression_discontinuity demo_rd 0 5 [])
  = result_map (fun r => (discontinuity r, rdd_n r))
               (regression_discontinuity (rev demo_rd) 0 5 []).
Proof.
  destruct (@regression_discontinuity_row_order diagonal_backbone
              demo_rd (rev demo_rd) 0 5 [] (Permutation_rev _))
    as [_ [_ [_ [_ Hdisc]]]].
  apply Hdisc. apply diagonal_row_order_independent.
Defined.

(** ** Row order and the interrupted time series *)

Section SortOnKeys.
Context {A : Type} (le : A -> A -> bool).
Hypothesis le_total : forall x y, le x y = true \/ le y x = true.
Hypothesis le_trans :
  forall x y z, le x y = true -> le y z = true -> le x z = true.

Lemma strongly_sorted_perm_eq_on l l' :
  (forall x y, In x l -> In y l -> le x y = true -> le y x = true -> x = y) ->
  StronglySorted (fun a b => le a b = true) l ->
  StronglySorted (fun a b => le a b = true) l' ->
  Permutation l l' -> l = l'.
Proof.
  intros Hanti Hl. revert l' Hanti.
  induction Hl as [|x xs Hxs IH Hx]; intros l' Hanti Hl' Hp.
  - apply Permutation_nil in Hp. now subst.
  - destruct Hl' as [|y ys Hys Hy].
    + symmetry in Hp. apply Permutation_nil in Hp. discriminate.
    + assert (x = y).
      { assert (Hxin : In x (y :: ys))
          by (apply (Permutation_in _ Hp); now left).
        assert (Hyin : In y (x :: xs))
          by (apply (Permutation_in _ (Permutation_sym Hp)); now left).
        destruct Hxin as [->|Hxin]; [reflexivity|].
        destruct Hyin as [->|Hyin]; [reflexivity|].
        rewrite Forall_forall in Hx, Hy.
        apply Hanti; [now left | now right | now apply Hx | now apply Hy]. }
      subst y. f_equal. apply IH; [|assumption|].
      * intros a b Ha Hb. apply Hanti; now right.
      * now apply Permutation_cons_inv in Hp.
Qed.

Lemma sorted_perm_eq_on l l' :
  (forall x y, In x l -> In y l -> le x y = true -> le y x = true -> x = y) ->
  Permutation l l' -> sorted le l = sorted le l'.
Proof.
  intros Hanti Hp.
  assert (Htr : RelationClasses.Transitive (fun a b => le a b = true))
    by (intros x y z; apply le_trans).
  apply strongly_sorted_perm_eq_on.
  - intros x y Hx Hy. apply Hanti; now apply (sorted_In le l).
  - apply Sorted_StronglySorted; [exact Htr | now apply sorted_Sorted].
  - apply Sorted_StronglySorted; [exact Htr | now apply sorted_Sorted].
  - rewrite !sorted_perm. exact Hp.
Qed.

End SortOnKeys.

Lemma NoDup_map_eq {A B} (f : A -> B) l x y :
  NoDup (map f l) -> In x l -> In y l -> f x = f y -> x = y.
Proof.
  induction l as [|a l IH]; simpl; [tauto|].
  intros Hnd Hx Hy E. inversion Hnd as [|? ? Hnot Hnd']; subst.
  destruct Hx as [->|Hx], Hy as [->|Hy]; auto.
  - exfalso. apply Hnot. rewrite E. now apply in_map.
  - exfalso. apply Hnot. rewrite <- E. now apply in_map.
Qed.

Lemma its_sorted_perm (df df' : list TSRow) :
  NoDup (map ts_time df) -> Permutation df df' ->
  sorted (fun a b => String.leb (ts_time a) (ts_time b)) df
  = sorted (fun a b => String.leb (ts_time a) (ts_time b)) df'.
Proof.
  intros Hnd Hp. apply sorted_perm_eq_on.
  - intros x y. apply String.leb_total.
  - intros x y z. apply string_leb_trans.
  - intros x y Hx Hy Hxy Hyx.
    apply (NoDup_map_eq ts_time df x y Hnd Hx Hy).
    now apply String.leb_antisym.
  - exact Hp.
Qed.

(** X13.  On a series with one row per period, the result of
    [interrupted_time_series] does not depend on the order of the rows:
    the function sorts by period before it numbers the observations. *)
Theorem interrupted_time_series_row_order `{RegressionBackbone}
    df df' intervention_time x_cols hac_lags :
  NoDup (map ts_time df) ->
  Permutation df df' ->
  interrupted_time_series df intervention_time x_cols hac_lags
  = interrupted_time_series df' intervention_time x_cols hac_lags.
Proof.
  intros Hnd Hp. unfold interrupted_time_series.
  now rewrite (its_sorted_perm df df' Hnd Hp).
Qed.

(** X13, witness: the three-month demo series and its reversal. *)
Lemma interrupted_time_series_row_order_witness :
  interrupted_time_series demo_ts "2020-02" [] None
  = interrupted_time_series (rev demo_ts) "2020-02" [] None.
Proof.
  apply interrupted_time_series_row_order.
  - simpl. repeat constructor; simpl; intuition discriminate.
  - apply Permutation_rev.
Defined.

(** ** Names of the event-time dummies *)

Lemma str_of_N_inj n n' : str_of_N n = str_of_N n' -> n = n'.
Proof.
  unfold str_of_N. intros E.
  apply (f_equal NilEmpty.uint_of_string) in E.
  rewrite !NilEmpty.usu in E.
  apply DecimalN.Unsigned.to_uint_inj. congruence.
Qed.

Lemma append_inj_l (p s s' : string) :
  (p ++ s)%string = (p ++ s')%string -> s = s'.
Proof. induction p as [|c p IH]; simpl; [auto|]. intros E. apply IH. congruence. Qed.

(** X14.  [_kname] never gives two offsets the same column name, so no
    event-time dummy of [event_study] overwrites another. *)
Theorem kname_injective k k' : _kname k = _kname k' <-> k = k'.
Proof.
  split; [|now intros ->].
  unfold _kname.
  destruct (Z.ltb_spec k 0), (Z.ltb_spec 0 k), (Z.ltb_spec k' 0),
           (Z.ltb_spec 0 k'); try lia; intros E;
    try (simpl in E; discriminate E).
  - apply (append_inj_l "k_m") in E. apply str_of_N_inj in E. lia.
  - apply (append_inj_l "k_p") in E. apply str_of_N_inj in E. lia.
Qed.

(** ** Row order and the synthetic control *)

Lemma lookup_y_perm d d' u t :
  keyed d -> Permutation d d' -> lookup_y d u t = lookup_y d' u t.
Proof.
  intros Hk Hp. unfold lookup_y.
  set (f := fun r => (String.eqb (p_unit r) u && String.eqb (p_time r) t)%bool).
  assert (Hkey : forall r, f r = true -> (p_unit r, p_time r) = (u, t)).
  { intros r Hr. unfold f in Hr. apply andb_prop in Hr. destruct Hr as [H1 H2].
    apply String.eqb_eq in H1, H2. congruence. }
  destruct (find f d) as [r|] eqn:E1, (find f d') as [r'|] eqn:E2.
  - apply find_some in E1, E2. destruct E1 as [Hin Hf], E2 as [Hin' Hf'].
    apply (Permutation_in _ (Permutation_sym Hp)) in Hin'.
    f_equal.
    apply (NoDup_map_eq (fun r => (p_unit r, p_time r)) d r r' Hk Hin Hin').
    rewrite (Hkey r Hf), (Hkey r' Hf'). reflexivity.
  - apply find_some in E1. destruct E1 as [Hin Hf].
    pose proof (find_none _ _ E2 r (Permutation_in _ Hp Hin)) as Hn.
    congruence.
  - apply find_some in E2. destruct E2 as [Hin Hf].
    pose proof (find_none _ _ E1 r' (Permutation_in _ (Permutation_sym Hp) Hin))
      as Hn.
    congruence.
  - reflexivity.
Qed.

Lemma series_perm d d' u times :
  keyed d -> Permutation d d' -> _series d u times = _series d' u times.
Proof.
  intros Hk Hp. unfold _series. do 2 f_equal.
  apply map_ext. intros t. now apply lookup_y_perm.
Qed.

Lemma all_times_perm d d' : Permutation d d' -> all_times d = all_times d'.
Proof.
  intros Hp. apply (categories_perm (map p_time d) (map p_time d')).
  now apply Permutation_map.
Qed.

Lemma sc_donors_perm d d' tu du :
  Permutation d d' -> sc_donors d tu du = sc_donors d' tu du.
Proof.
  intros Hp. unfold sc_donors.
  assert (E : sorted String.leb
                (filter (fun u => negb (String.eqb u tu)) (unique (map p_unit d)))
              = sorted String.leb
                  (filter (fun u => negb (String.eqb u tu))
                          (unique (map p_unit d')))).
  { apply (sorted_perm_eq String.leb String.leb_total String.leb_antisym
             string_leb_trans).
    apply NoDup_Permutation; try (apply NoDup_filter, unique_nodup).
    intros x. rewrite !filter_In, !unique_In.
    split; intros [Hin Hx]; (split; [|exact Hx]);
      [ apply (Permutation_in _ (Permutation_map p_unit Hp) Hin)
      | apply (Permutation_in _ (Permutation_map p_unit (Permutation_sym Hp)) Hin) ]. }
  destruct du as [[|u us]|]; [exact E | reflexivity | exact E].
Qed.

(** X15.  On a panel with at most one row per (unit, period) the result of
    [synthetic_control] does not depend on the order of the rows. *)
Theorem synthetic_control_row_order d d' tu it du :
  keyed d -> Permutation d d' ->
  synthetic_control d tu it du = synthetic_control d' tu it du.
Proof.
  intros Hk Hp.
  assert (Hs : forall u times, _series d u times = _series d' u times)
    by (intros; now apply series_perm).
  assert (Hk' : keyed d').
  { unfold keyed in *.
    eapply Permutation_NoDup; [apply Permutation_map; exact Hp | exact Hk]. }
  unfold synthetic_control, sc_fit_weights.
  rewrite (keyed_reindex d tu _ Hk), (keyed_reindex d' tu _ Hk').
  rewrite (sc_donors_perm d d' tu du Hp), (all_times_perm d d' Hp).
  rewrite !Hs.
  rewrite (map_ext (fun u => _series d u
             (filter (fun t => String.ltb t it) (all_times d')))
           (fun u => _series d' u
             (filter (fun t => String.ltb t it) (all_times d'))))
    by (intros; apply Hs).
  rewrite (map_ext (fun u => _series d u
             (filter (fun t => String.leb it t) (all_times d')))
           (fun u => _series d' u
             (filter (fun t => String.leb it t) (all_times d'))))
    by (intros; apply Hs).
  reflexivity.
Qed.

(** X15, witness: the two-unit demo panel and its reversal. *)
Lemma synthetic_control_row_order_witness :
  synthetic_control (demo_panel 1 1) "A" "2020-02" None
  = synthetic_control (rev (demo_panel 1 1)) "A" "2020-02" None.
Proof.
  apply synthetic_control_row_order.
  - apply demo_panel_keyed.
  - apply Permutation_rev.
Defined.

(** ** Invariants of the donor-pool search *)

Lemma series_length d u times : length (_series d u times) = length times.
Proof.
  unfold _series, fillna. rewrite length_map.
  generalize (@None R).
  induction (map (lookup_y d u) times) as [|o l IH] eqn:E in times |- *;
    intros last.
  - destruct times; [reflexivity | discriminate].
  - destruct times as [|t times]; [discriminate|].
    simpl in E. injection E as _ E.
    destruct o; simpl; f_equal; now apply IH.
Qed.

(** A fit on an explicit, non-empty donor list returns and keeps the
    list; with a non-empty pre-period its RMSE is a number. *)
Lemma synthetic_control_some d tu it donors :
  keyed d -> donors <> [] ->
  exists r,
    synthetic_control d tu it (Some donors) = Return r /\
    sc_donor_units r = donors /\
    (filter (fun t => String.ltb t it) (all_times d) <> [] ->
     exists x, sc_pre_rmse r = Fin x).
Proof.
  intros Hk Hne. destruct donors as [|u us]; [congruence|].
  unfold synthetic_control. cbn [sc_donors].
  rewrite (keyed_reindex d tu _ Hk).
  eexists. split; [reflexivity|]. cbn [sc_donor_units sc_pre_rmse].
  split; [reflexivity|]. intros Hpre.
  pose proof (series_length d tu
                (filter (fun t => String.ltb t it) (all_times d))) as Hl.
  destruct (_series d tu (filter (fun t => String.ltb t it) (all_times d))).
  - destruct (filter (fun t => String.ltb t it) (all_times d));
      [congruence | discriminate].
  - eexists. reflexivity.
Qed.

Lemma str_mem_false s l : str_mem s l = false -> ~ In s l.
Proof.
  intros E Hin. apply (proj2 (str_mem_In s l)) in Hin. congruence.
Qed.

Section DonorSearchFacts.
Variable d : Panel.
Variables tu it : string.
Variable has_pre : Prop.
Hypothesis d_keyed : keyed d.
Hypothesis has_pre_spec :
  has_pre -> filter (fun t => String.ltb t it) (all_times d) <> [].

Lemma try_candidates_spec allc cands selected step bs rm br tr :
  incl cands allc ->
  step_ok has_pre allc selected (bs, rm, br, tr) ->
  exists bs' rm' br' tr',
    try_candidates d tu it cands selected step (bs, rm, br, tr)
      = Return (bs', rm', br', tr') /\
    step_ok has_pre allc selected (bs', rm', br', tr') /\
    (length tr' <= length tr + length cands)%nat /\
    (bs <> None -> bs' <> None) /\
    (has_pre -> rm = PInf ->
     (exists u, In u cands /\ ~ In u selected) -> bs' <> None).
Proof.
  revert bs rm br tr.
  induction cands as [|u rest IH]; intros bs rm br tr Hincl Hok.
  - exists bs, rm, br, tr. cbn [try_candidates length].
    repeat split; auto; try lia.
    intros _ _ [u [[] _]].
  - assert (Hincl' : incl rest allc) by (intros x Hx; apply Hincl; now right).
    cbn [try_candidates].
    destruct (str_mem u selected) eqn:Emem.
    + destruct (IH bs rm br tr Hincl' Hok)
        as [bs' [rm' [br' [tr' [E [Hok' [Hlen [Hkeep Hfirst]]]]]]]].
      exists bs', rm', br', tr'. split; [exact E|]. split; [exact Hok'|].
      split; [cbn [length]; lia|]. split; [exact Hkeep|].
      intros Hp Hrm [v [[<-|Hv] Hnv]].
      * exfalso. apply Hnv. now apply str_mem_In.
      * apply Hfirst; auto. now exists v.
    + destruct (synthetic_control_some d tu it (selected ++ [u]) d_keyed)
        as [res [Eres [Hdon Hfin]]].
      { intros E. now apply app_eq_nil in E as [_ E]. }
      rewrite Eres. cbn [bind].
      destruct (flt (sc_pre_rmse res) rm) eqn:Eflt.
      * destruct (IH (Some u) (sc_pre_rmse res) (Some res)
                     (tr ++ [Trial (step + 1) (length (selected ++ [u])) u
                                   (sc_pre_rmse res) (sc_post_gap_mean res)])
                     Hincl')
          as [bs' [rm' [br' [tr' [E [Hok' [Hlen [Hkeep Hfirst]]]]]]]].
        { cbn [step_ok]. split; [apply Hincl; now left|].
          split; [now apply str_mem_false|]. split; [exact Hdon|].
          intros Hp. apply Hfin. now apply has_pre_spec. }
        exists bs', rm', br', tr'. split; [exact E|]. split; [exact Hok'|].
        rewrite length_app in Hlen. cbn [length] in Hlen |- *.
        split; [lia|].
        split; intros; apply Hkeep; discriminate.
      * destruct (IH bs rm br
                     (tr ++ [Trial (step + 1) (length (selected ++ [u])) u
                                   (sc_pre_rmse res) (sc_post_gap_mean res)])
                     Hincl')
          as [bs' [rm' [br' [tr' [E [Hok' [Hlen [Hkeep Hfirst]]]]]]]].
        { exact Hok. }
        exists bs', rm', br', tr'. split; [exact E|]. split; [exact Hok'|].
        rewrite length_app in Hlen. cbn [length] in Hlen |- *.
        split; [lia|]. split; [exact Hkeep|].
        intros Hp Hrm _. exfalso.
        destruct (Hfin (has_pre_spec Hp)) as [x Hx].
        rewrite Hx, Hrm in Eflt. discriminate.
Qed.

Lemma search_ok_mono allc k k' st :
  (k <= k')%nat -> search_ok has_pre allc k st -> search_ok has_pre allc k' st.
Proof.
  intros Hk. destruct st as [[[sel br] rm] tr]. cbn [search_ok].
  intros [H1 [H2 [H3 [H4 H5]]]].
  split; [exact H1|]. split; [exact H2|]. split; [lia|]. split; [nia|].
  destruct br as [r|]; [|exact H5].
  destruct H5 as [G1 [G2 [G3 G4]]]. repeat split; auto. lia.
Qed.

Lemma greedy_spec cands a n sel br rm tr :
  search_ok has_pre cands a (sel, br, rm, tr) ->
  exists sel' br' rm' tr',
    greedy d tu it cands (seq a n) (sel, br, rm, tr)
      = Return (sel', br', rm', tr') /\
    search_ok has_pre cands (a + n) (sel', br', rm', tr') /\
    (br <> None -> br' <> None) /\
    (has_pre -> n <> 0%nat -> (exists u, In u cands /\ ~ In u sel) ->
     br' <> None).
Proof.
  revert a sel br rm tr.
  induction n as [|n IH]; intros a sel br rm tr Hok.
  - exists sel, br, rm, tr. cbn [seq greedy].
    split; [reflexivity|]. split; [now rewrite Nat.add_0_r|].
    split; [auto|]. intros _ Hn. congruence.
  - cbn [seq greedy].
    destruct (try_candidates_spec cands cands sel a None PInf None tr)
      as [bs' [rm' [br' [tr' [E [Hok' [Hlen [_ Hfirst]]]]]]]].
    { intros x Hx. exact Hx. }
    { exact I. }
    rewrite E. cbn [bind].
    pose proof Hok as Hok0.
    cbn [search_ok] in Hok. destruct Hok as [H1 [H2 [H3 [H4 H5]]]].
    destruct bs' as [u|].
    + cbn [step_ok] in Hok'. destruct br' as [r|]; [|contradiction].
      destruct Hok' as [Hu [Hnu [Hdon Hfin]]].
      assert (Hnd : NoDup (sel ++ [u])).
      { apply NoDup_app; [exact H1 | repeat constructor; intros [] |].
        intros x Hx [<-|[]]. contradiction. }
      assert (Hinc : incl (sel ++ [u]) cands).
      { intros x Hx. apply in_app_or in Hx.
        destruct Hx as [Hx|[<-|[]]]; [now apply H2 | exact Hu]. }
      assert (Hl : (length (sel ++ [u]) <= S a)%nat).
      { rewrite length_app. cbn [length]. lia. }
      assert (Hnew : forall br1 rm1,
                (br1, rm1) = (if flt rm' rm then (Some r, rm') else (br, rm)) ->
                search_ok has_pre cands (S a) (sel ++ [u], br1, rm1, tr') /\
                (br <> None -> br1 <> None) /\
                (has_pre -> br1 <> None)).
      { intros br1 rm1 Eb.
        destruct (flt rm' rm) eqn:Eflt; inversion Eb; subst br1 rm1.
        - split; [|split; intros; discriminate].
          cbn [search_ok]. split; [exact Hnd|]. split; [exact Hinc|].
          split; [exact Hl|]. split; [cbn [length] in Hlen; nia|].
          rewrite Hdon. split; [exact Hnd|]. split; [exact Hinc|].
          split; [|exact Hl].
          intros En. now apply app_eq_nil in En as [_ En].
        - assert (Hbr : has_pre -> br <> None).
          { intros Hp ->. destruct H5 as [-> _].
            destruct (Hfin Hp) as [x ->]. discriminate. }
          split; [|split; auto].
          cbn [search_ok]. split; [exact Hnd|]. split; [exact Hinc|].
          split; [exact Hl|]. split; [cbn [length] in Hlen; nia|].
          destruct br as [r0|].
          + destruct H5 as [G1 [G2 [G3 G4]]]. repeat split; auto.
          + destruct H5 as [G1 _]. split; [exact G1|].
            intros Hp. exfalso. now apply (Hbr Hp). }
      destruct (if flt rm' rm then (Some r, rm') else (br, rm))
        as [br1 rm1] eqn:Eb.
      destruct (Hnew br1 rm1 eq_refl) as [Hs [Hk1 Hk2]].
      assert (Eb' : (if flt rm' rm then (rm', Some r) else (rm, br))
                    = (rm1, br1)).
      { destruct (flt rm' rm); inversion Eb; reflexivity. }
      rewrite Eb'.
      destruct ((2 <=? a)%nat && flt (fabs (fsub rm' rm1)) (Fin 1e-6))%bool.
      * exists (sel ++ [u]), br1, rm1, tr'. split; [reflexivity|].
        split; [apply (search_ok_mono cands (S a)); [lia | exact Hs]|].
        split; [exact Hk1|]. intros Hp _ _. now apply Hk2.
      * destruct (IH (S a) (sel ++ [u]) br1 rm1 tr' Hs)
          as [sel2 [br2 [rm2 [tr2 [E2 [Hok2 [Hk3 _]]]]]]].
        exists sel2, br2, rm2, tr2. split; [exact E2|].
        split; [now replace (a + S n)%nat with (S a + n)%nat by lia|].
        split; [auto|]. intros Hp _ _. apply Hk3. now apply Hk2.
    + exists sel, br, rm, tr'. split; [reflexivity|].
      split.
      { cbn [search_ok]. split; [exact H1|]. split; [exact H2|].
        split; [lia|]. split; [nia|].
        destruct br as [r0|]; [|exact H5].
        destruct H5 as [G1 [G2 [G3 G4]]]. repeat split; auto. lia. }
      split; [auto|].
      intros Hp _ Hex. exfalso. now apply (Hfirst Hp eq_refl Hex).
Qed.

End DonorSearchFacts.

Lemma top_candidates_spec (scores : list (string * R)) n :
  NoDup (map fst scores) ->
  let c :=
    map fst (firstn n (sorted (fun a b => Rleb (snd b) (snd a)) scores)) in
  NoDup c /\ incl c (map fst scores) /\ (length c <= n)%nat /\
  (length c <= length scores)%nat /\
  (scores <> [] -> n <> 0%nat -> c <> []).
Proof.
  intros Hnd c.
  set (s := sorted (fun a b => Rleb (snd b) (snd a)) scores) in *.
  assert (Hp : Permutation (map fst s) (map fst scores))
    by (apply Permutation_map, sorted_perm).
  subst c. rewrite <- firstn_map. split; [|split; [|split; [|split]]].
  - apply firstn_NoDup.
    apply (Permutation_NoDup (Permutation_sym Hp) Hnd).
  - intros x Hx. apply firstn_In in Hx. now apply (Permutation_in _ Hp).
  - rewrite length_firstn. lia.
  - rewrite length_firstn, (Permutation_length Hp), length_map. lia.
  - intros Hne Hn.
    assert (Hs : s <> []) by (intros E; apply sorted_nil_inv in E; congruence).
    destruct s as [|x s']; [congruence|].
    destruct n as [|n]; [congruence|]. discriminate.
Qed.

Lemma synthetic_control_default d tu it :
  keyed d ->
  (sc_donors d tu None = [] ->
   synthetic_control d tu it None
   = Raise "need at least one array to concatenate") /\
  (sc_donors d tu None <> [] ->
   exists r, synthetic_control d tu it None = Return r /\
             sc_donor_units r = sc_donors d tu None).
Proof.
  intros Hk. split.
  - intros E. unfold synthetic_control.
    rewrite (keyed_reindex d tu _ Hk). now rewrite E.
  - intros Hne.
    destruct (synthetic_control d tu it None) as [r|e] eqn:E.
    + exists r. split; [reflexivity|].
      now apply synthetic_control_inv in E as [_ [E _]].
    + exfalso.
      destruct (proj1 (synthetic_control_raises_iff d tu it None)
                      (ex_intro _ e E)) as [G|Hnil]; [|now apply Hne].
      rewrite (keyed_reindex d tu _ Hk) in G. discriminate.
Qed.

(** On a panel with a repeated (unit, period) pair the search stops at the
    error of [reindex], in the fallback as in the search proper. *)
Lemma donor_pool_search_reindex_error df tu it max_donors top_k_candidates :
  ~ keyed df ->
  donor_pool_search df tu it max_donors top_k_candidates
  = Raise "cannot reindex on an axis with duplicate labels".
Proof.
  intros Hnk. unfold donor_pool_search. cbv zeta.
  destruct (length (filter (fun t => String.ltb t it) (all_times df)) <? 6)%nat.
  - now rewrite (synthetic_control_default_reindex_error df tu it Hnk).
  - change (sorted String.leb
              (filter (fun u => negb (String.eqb u tu))
                      (unique (map p_unit df))))
      with (sc_donors df tu None).
    destruct (duplicate_labels df tu
              || existsb (duplicate_labels df) (sc_donors df tu None))%bool
      eqn:G; [reflexivity|].
    exfalso. apply Hnk. now apply (default_donors_reindex df tu).
Qed.

(** What [donor_pool_search] does, case by case. *)
Lemma donor_pool_search_spec df tu it max_donors top_k_candidates :
  keyed df ->
  let donors0 := sc_donors df tu None in
  let pre := filter (fun t => String.ltb t it) (all_times df) in
  (donors0 = [] ->
   donor_pool_search df tu it max_donors top_k_candidates
   = Raise "need at least one array to concatenate") /\
  (donors0 <> [] ->
   exists res,
     donor_pool_search df tu it max_donors top_k_candidates = Return res /\
     NoDup (sc_donor_units (best res)) /\
     incl (sc_donor_units (best res)) donors0 /\
     sc_donor_units (best res) <> [] /\
     ((length pre < 6)%nat ->
      sc_donor_units (best res) = donors0 /\
      tried res = [FallbackSmallPrePeriod (length pre)]) /\
     ((6 <= length pre)%nat ->
      (length (tried res)
       <= Z.to_nat max_donors * Z.to_nat (Z.max 1 top_k_candidates))%nat /\
      ((1 <= max_donors)%Z ->
       (length (sc_donor_units (best res)) <= Z.to_nat max_donors)%nat))).
Proof.
  intros Hkeyed donors0 pre.
  unfold donor_pool_search. cbv zeta.
  change (sorted String.leb
            (filter (fun u => negb (String.eqb u tu)) (unique (map p_unit df))))
    with donors0.
  fold pre.
  rewrite (keyed_reindex df tu donors0 Hkeyed).
  destruct (Nat.ltb_spec (length pre) 6) as [Hlt|Hge].
  - destruct (synthetic_control_default df tu it Hkeyed) as [Hraise Hret].
    fold donors0 in Hraise, Hret. split.
    + intros E. now rewrite (Hraise E).
    + intros Hne. destruct (Hret Hne) as [r [-> Hd]]. cbn [bind].
      eexists. split; [reflexivity|]. cbn [best tried]. rewrite Hd.
      split; [apply sc_donors_default_nodup|].
      split; [intros x Hx; exact Hx|]. split; [exact Hne|].
      split; [auto | lia].
  - set (scores :=
           map (fun u =>
                  (u, if (Rltb (std (_series df u pre)) 1e-9
                          || Rltb (std (_series df tu pre)) 1e-9)%bool
                      then 0 else corrcoef (_series df tu pre)
                                           (_series df u pre)))
               donors0).
    assert (Hfst : map fst scores = donors0).
    { unfold scores. rewrite map_map. cbn [fst]. apply map_id. }
    assert (Hlen0 : length scores = length donors0)
      by (unfold scores; apply length_map).
    set (s := sorted (fun a b => Rleb (snd b) (snd a)) scores).
    assert (Hls : length s = length donors0).
    { unfold s. now rewrite (Permutation_length (sorted_perm _ scores)). }
    set (n_keep :=
           Z.to_nat (Z.max 1 (Z.min top_k_candidates (Z.of_nat (length s))))).
    destruct (top_candidates_spec scores n_keep) as [Cnd [Cin [Cn [Cl Cne]]]].
    { rewrite Hfst. apply sc_donors_default_nodup. }
    fold s in Cnd, Cin, Cn, Cl, Cne. rewrite Hfst in Cin.
    set (cands := map fst (firstn n_keep s)) in *.
    set (m := Z.to_nat (Z.min max_donors (Z.of_nat (length cands)))).
    unfold range0. fold m.
    assert (Hpre : True ->
              filter (fun t => String.ltb t it) (all_times df) <> []).
    { intros _ E. unfold pre in Hge. rewrite E in Hge. simpl in Hge. lia. }
    destruct (greedy_spec df tu it True Hkeyed Hpre cands 0 m [] None PInf [])
      as [sel [br [rm [tr [Eg [Hok [_ Hsome]]]]]]].
    { cbn [search_ok]. split; [constructor|]. split; [intros x []|].
      cbn [length]. split; [lia|]. split; [lia|]. split; auto. }
    rewrite Eg. cbn [bind].
    cbn [search_ok] in Hok. destruct Hok as [_ [_ [_ [Htr Hbr]]]].
    assert (Hm1 : (m <= Z.to_nat max_donors)%nat) by (unfold m; lia).
    assert (Hk : (length cands <= Z.to_nat (Z.max 1 top_k_candidates))%nat).
    { unfold n_keep in Cn. lia. }
    assert (Htried : (length tr
              <= Z.to_nat max_donors * Z.to_nat (Z.max 1 top_k_candidates))%nat).
    { cbn [Nat.add] in Htr. nia. }
    split.
    + intros E.
      assert (Ec : cands = []).
      { destruct cands as [|c cs]; [reflexivity|].
        exfalso. rewrite E in Cin. apply (Cin c). now left. }
      assert (Hm0 : m = 0%nat) by (unfold m; rewrite Ec; cbn [length]; lia).
      rewrite Hm0 in Eg. cbn [seq greedy] in Eg.
      assert (Hbr0 : br = None) by congruence. rewrite Hbr0, Ec.
      rewrite firstn_nil.
      destruct (synthetic_control_default df tu it Hkeyed) as [Hraise _].
      fold donors0 in Hraise.
      assert (Esc : synthetic_control df tu it (Some [])
                    = synthetic_control df tu it None) by reflexivity.
      rewrite Esc, (Hraise E). reflexivity.
    + intros Hne.
      assert (Hcne : cands <> []).
      { apply Cne.
        - intros E. apply Hne. rewrite <- Hfst, E. reflexivity.
        - unfold n_keep. lia. }
      destruct br as [r|].
      * destruct Hbr as [G1 [G2 [G3 G4]]].
        eexists. split; [reflexivity|]. cbn [best tried].
        split; [exact G1|].
        split; [intros x Hx; apply Cin; now apply G2|].
        split; [exact G3|]. split; [lia|]. intros _.
        split; [exact Htried|]. intros _. cbn [Nat.add] in G4. lia.
      * set (n5 := Z.to_nat (Z.max 1 (Z.min 5 (Z.of_nat (length cands))))).
        destruct (synthetic_control_some df tu it (firstn n5 cands) Hkeyed)
          as [r [-> [Hd _]]].
        { destruct cands as [|c cs]; [congruence|].
          assert (Hn5 : n5 <> 0%nat) by (unfold n5; lia).
          destruct n5; [congruence | discriminate]. }
        cbn [bind]. eexists. split; [reflexivity|]. cbn [best tried].
        rewrite Hd.
        split; [now apply firstn_NoDup|].
        split; [intros x Hx; apply Cin; now apply firstn_In in Hx|].
        split.
        { destruct cands as [|c cs]; [congruence|].
          assert (Hn5 : n5 <> 0%nat) by (unfold n5; lia).
          destruct n5; [congruence | discriminate]. }
        split; [lia|]. intros _. split; [exact Htried|].
        intros Hmd. exfalso.
        apply Hsome; [exact I | | | reflexivity].
        -- unfold m. destruct cands; [congruence|]. cbn [length]. lia.
        -- destruct cands as [|c cs]; [congruence|].
           exists c. split; [now left | intros []].
Qed.

Lemma sc_donors_default_In d tu u :
  In u (sc_donors d tu None) <-> u <> tu /\ exists r, In r d /\ p_unit r = u.
Proof.
  unfold sc_donors. rewrite sorted_In, filter_In, unique_In, in_map_iff.
  split.
  - intros [[r [Hr Hin]] Hne]. split; [|now exists r].
    intros ->. now rewrite String.eqb_refl in Hne.
  - intros [Hne [r [Hin Hr]]]. split; [now exists r|].
    destruct (String.eqb_spec u tu); [contradiction | reflexivity].
Qed.

Lemma donor_pool_search_returns_keyed
    df tu it max_donors top_k_candidates res :
  donor_pool_search df tu it max_donors top_k_candidates = Return res ->
  keyed df.
Proof.
  intros Hres. destruct (keyed_cases df) as [Hk|Hnk]; [exact Hk|].
  rewrite (donor_pool_search_reindex_error df tu it _ _ Hnk) in Hres.
  discriminate.
Qed.

(** X16.  [donor_pool_search] returns exactly when no (unit, period) pair
    occurs on two rows and the panel holds a unit other than the treated
    one, whatever [max_donors] and [top_k_candidates] are (zero and negative
    values included).  On a panel with a repeated pair it raises the error
    of [reindex]; on a panel without repeated pairs and without another
    unit it raises the error of the empty donor stack. *)
Theorem donor_pool_search_returns_iff
    df tu it max_donors top_k_candidates :
  ((exists res,
      donor_pool_search df tu it max_donors top_k_candidates = Return res)
   <-> (keyed df /\ exists r, In r df /\ p_unit r <> tu)) /\
  (~ keyed df ->
   donor_pool_search df tu it max_donors top_k_candidates
   = Raise "cannot reindex on an axis with duplicate labels") /\
  (keyed df -> (forall r, In r df -> p_unit r = tu) ->
   donor_pool_search df tu it max_donors top_k_candidates
   = Raise "need at least one array to concatenate").
Proof.
  split; [split|split].
  - intros [res Hres].
    pose proof (donor_pool_search_returns_keyed _ _ _ _ _ _ Hres) as Hk.
    split; [exact Hk|].
    destruct (donor_pool_search_spec df tu it max_donors top_k_candidates Hk)
      as [Hraise _].
    cbv zeta in Hraise.
    destruct (sc_donors df tu None) as [|u us] eqn:E.
    + rewrite (Hraise eq_refl) in Hres. discriminate.
    + assert (Hin : In u (sc_donors df tu None)) by (rewrite E; now left).
      apply sc_donors_default_In in Hin. destruct Hin as [Hne [r [Hr Hu]]].
      exists r. split; [exact Hr | congruence].
  - intros [Hk [r [Hr Hne]]].
    destruct (donor_pool_search_spec df tu it max_donors top_k_candidates Hk)
      as [_ Hret].
    cbv zeta in Hret.
    destruct Hret as [res [Hres _]]; [|now exists res].
    intros E. apply Hne.
    now apply (proj1 (sc_donors_default_nil df tu) E).
  - apply donor_pool_search_reindex_error.
  - intros Hk Hall.
    destruct (donor_pool_search_spec df tu it max_donors top_k_candidates Hk)
      as [Hraise _].
    cbv zeta in Hraise. apply Hraise. now apply sc_donors_default_nil.
Qed.

(** X17.  The donor pool that [donor_pool_search] returns is never empty,
    lists no unit twice, never contains the treated unit, and consists of
    units of the panel. *)
Theorem donor_pool_search_best_donors
    df tu it max_donors top_k_candidates res :
  donor_pool_search df tu it max_donors top_k_candidates = Return res ->
  sc_donor_units (best res) <> [] /\
  NoDup (sc_donor_units (best res)) /\
  ~ In tu (sc_donor_units (best res)) /\
  (forall u, In u (sc_donor_units (best res)) ->
     exists r, In r df /\ p_unit r = u).
Proof.
  intros Hres.
  destruct (donor_pool_search_spec df tu it max_donors top_k_candidates
              (donor_pool_search_returns_keyed _ _ _ _ _ _ Hres))
    as [Hraise Hret].
  cbv zeta in Hraise, Hret.
  destruct Hret as [res' [Hres' [Hnd [Hinc [Hne _]]]]].
  { intros E. rewrite (Hraise E) in Hres. discriminate. }
  assert (res' = res) by congruence. subst res'.
  split; [exact Hne|]. split; [exact Hnd|]. split.
  - intros Hin. apply Hinc in Hin.
    now apply (sc_donors_default_excludes df tu).
  - intros u Hu. apply Hinc in Hu.
    now apply sc_donors_default_In in Hu as [_ Hu].
Qed.

Lemma spike_panel_keyed : keyed spike_panel.
Proof.
  apply (default_donors_reindex spike_panel "T"). vm_compute. reflexivity.
Qed.

Lemma spike_panel_search :
  exists res, donor_pool_search spike_panel "T" "2020-07" 15 30 = Return res.
Proof.
  destruct (donor_pool_search_spec spike_panel "T" "2020-07" 15 30
              spike_panel_keyed)
    as [_ Hret].
  cbv zeta in Hret. destruct Hret as [res [Hres _]]; [|now exists res].
  intros E. vm_compute in E. discriminate E.
Qed.

(** X17, witness: the search on the spike panel. *)
Lemma donor_pool_search_best_donors_witness :
  exists res,
    donor_pool_search spike_panel "T" "2020-07" 15 30 = Return res /\
    NoDup (sc_donor_units (best res)) /\
    ~ In "T" (sc_donor_units (best res)).
Proof.
  destruct spike_panel_search as [res Hres].
  destruct (donor_pool_search_best_donors spike_panel "T" "2020-07" 15 30
              res Hres) as [_ [Hnd [Hnt _]]].
  exists res. repeat split; assumption.
Defined.

(** X18.  With fewer than six pre-intervention periods the search is
    skipped: every other unit of the panel is a donor and the log holds the
    single fallback note.  With six or more, the number of fits logged is
    at most [max_donors * max(1, top_k_candidates)], and for
    [max_donors >= 1] the returned pool has at most [max_donors] donors. *)
Theorem donor_pool_search_budget
    df tu it max_donors top_k_candidates res :
  donor_pool_search df tu it max_donors top_k_candidates = Return res ->
  let n_pre :=
    length (filter (fun t => String.ltb t it) (all_times df)) in
  ((n_pre < 6)%nat ->
   sc_donor_units (best res) = sc_donors df tu None /\
   tried res = [FallbackSmallPrePeriod n_pre]) /\
  ((6 <= n_pre)%nat ->
   (length (tried res)
    <= Z.to_nat max_donors * Z.to_nat (Z.max 1 top_k_candidates))%nat /\
   ((1 <= max_donors)%Z ->
    (length (sc_donor_units (best res)) <= Z.to_nat max_donors)%nat)).
Proof.
  intros Hres n_pre.
  destruct (donor_pool_search_spec df tu it max_donors top_k_candidates
              (donor_pool_search_returns_keyed _ _ _ _ _ _ Hres))
    as [Hraise Hret].
  cbv zeta in Hraise, Hret.
  destruct Hret as [res' [Hres' [_ [_ [_ [Hshort Hlong]]]]]].
  { intros E. rewrite (Hraise E) in Hres. discriminate. }
  assert (res' = res) by congruence. subst res'.
  split; assumption.
Qed.

(** X18, witness: six pre-intervention months on the spike panel. *)
Lemma donor_pool_search_budget_witness :
  exists res,
    donor_pool_search spike_panel "T" "2020-07" 15 30 = Return res /\
    (length (tried res) <= 15 * 30)%nat /\
    (length (sc_donor_units (best res)) <= 15)%nat.
Proof.
  destruct spike_panel_search as [res Hres].
  destruct (donor_pool_search_budget spike_panel "T" "2020-07" 15 30
              res Hres) as [_ Hlong].
  destruct Hlong as [Ht Hd].
  { vm_compute. lia. }
  exists res. split; [exact Hres|]. split.
  - exact Ht.
  - apply Hd. lia.
Defined.

(** ** Outcomes and range of the pre-period joint test *)

Lemma clamped_pvalues_outcome p_by_k ks :
  ((forall k, In k ks -> dict_get Z.eqb k p_by_k <> None) ->
   exists ps, clamped_pvalues p_by_k ks = Return ps /\
              length ps = length ks /\
              Forall (fun p => 1e-12 <= p <= 1) ps) /\
  ((exists k, In k ks /\ dict_get Z.eqb k p_by_k = None) ->
   clamped_pvalues p_by_k ks = Raise "KeyError").
Proof.
  induction ks as [|k ks [IHr IHe]]; split.
  - intros _. exists []. repeat split. constructor.
  - intros [k [[] _]].
  - intros Hall. cbn [clamped_pvalues].
    destruct (dict_get Z.eqb k p_by_k) as [p|] eqn:E.
    + destruct IHr as [ps [-> [Hl Hf]]].
      { intros k' Hk'. apply Hall. now right. }
      cbn [bind]. eexists. split; [reflexivity|].
      split; [cbn [length]; now rewrite Hl|].
      constructor; [|exact Hf].
      split; [apply Rmax_l|].
      apply Rmax_lub; [lra | apply Rmin_l].
    + exfalso. apply (Hall k); [now left | exact E].
  - intros [k' [[<-|Hin] Hk']]; cbn [clamped_pvalues].
    + now rewrite Hk'.
    + destruct (dict_get Z.eqb k p_by_k) as [p|]; [|reflexivity].
      rewrite IHe by (now exists k'). reflexivity.
Qed.

Lemma filter_sorted_nil (l : list Z) : sorted Z.leb l = [] <-> l = [].
Proof.
  split; [apply sorted_nil_inv | now intros ->].
Qed.

(** X19.  The three outcomes of [event_study_preperiod_joint_test].  It
    raises the no-coefficient error exactly when no key of [coef_by_k] is
    at most [k_pre_max]; it raises [KeyError] exactly when there is such a
    key and one of them is missing from [p_by_k]; and it returns exactly
    when there is such a key and all of them are keys of [p_by_k]. *)
Theorem event_study_preperiod_joint_test_outcomes
    chi2_cdf coef_by_k0 p_by_k0 k_pre_max :
  let ks := filter (fun k => (k <=? k_pre_max)%Z) (keys coef_by_k0) in
  (event_study_preperiod_joint_test chi2_cdf coef_by_k0 p_by_k0 k_pre_max
   = Raise "No pre-period coefficients available for joint test."
   <-> ks = []) /\
  (event_study_preperiod_joint_test chi2_cdf coef_by_k0 p_by_k0 k_pre_max
   = Raise "KeyError"
   <-> exists k, In k ks /\ dict_get Z.eqb k p_by_k0 = None) /\
  ((exists r,
      event_study_preperiod_joint_test chi2_cdf coef_by_k0 p_by_k0 k_pre_max
      = Return r)
   <-> ks <> [] /\ forall k, In k ks -> dict_get Z.eqb k p_by_k0 <> None).
Proof.
  intros ks. unfold event_study_preperiod_joint_test. fold ks.
  destruct (clamped_pvalues_outcome p_by_k0 (sorted Z.leb ks)) as [Hret Hkey].
  assert (Hdec : (forall k, In k ks -> dict_get Z.eqb k p_by_k0 <> None) \/
                 (exists k, In k ks /\ dict_get Z.eqb k p_by_k0 = None)).
  { clear. induction ks as [|k ks [IH|[k' [Hin Hk']]]].
    - left. intros k [].
    - destruct (dict_get Z.eqb k p_by_k0) eqn:E.
      + left. intros k' [<-|Hin]; [congruence | now apply IH].
      + right. exists k. split; [now left | exact E].
    - right. exists k'. split; [now right | exact Hk']. }
  destruct (sorted Z.leb ks) as [|k0 ks0] eqn:Es.
  - apply sorted_nil_inv in Es. rewrite Es.
    split; [tauto|]. split.
    + split; [discriminate | intros [k [[] _]]].
    + split; [intros [r Hr]; discriminate | intros [Hne _]; congruence].
  - assert (Hne : ks <> []) by (intros E; rewrite E in Es; discriminate).
    assert (Hin : forall k, In k (k0 :: ks0) <-> In k ks)
      by (intros k; rewrite <- Es; apply sorted_In).
    destruct Hdec as [Hall|Hmiss].
    + destruct Hret as [ps [-> _]].
      { intros k Hk. apply Hall. now apply Hin. }
      cbn [bind]. split; [split; [discriminate | contradiction]|].
      split.
      * split; [discriminate|]. intros [k [Hk E]]. now apply Hall in Hk.
      * split; [auto|]. intros _. eexists. reflexivity.
    + rewrite Hkey.
      2:{ destruct Hmiss as [k [Hk E]]. exists k. split; [now apply Hin | exact E]. }
      cbn [bind]. split; [split; [discriminate | contradiction]|].
      split; [tauto|].
      split; [intros [r Hr]; discriminate|].
      intros [_ Hall]. destruct Hmiss as [k [Hk E]]. now apply Hall in Hk.
Qed.

Lemma Rsum_bounds lo hi (l : list R) :
  Forall (fun x => lo <= x <= hi) l ->
  INR (length l) * lo <= Rsum l <= INR (length l) * hi.
Proof.
  induction 1 as [|x l Hx Hl IH].
  - simpl. lra.
  - change (length (x :: l)) with (S (length l)). rewrite S_INR.
    simpl. lra.
Qed.

(** X20.  Whenever the joint test returns, the offsets it reports are in
    ascending order, the degrees of freedom are twice their number, and
    the statistic lies between 0 and [-2 log(1e-12)] times their number:
    a single p-value cannot contribute more than [-2 log(1e-12)]. *)
Theorem event_study_preperiod_joint_test_range
    chi2_cdf coef_by_k0 p_by_k0 k_pre_max r :
  event_study_preperiod_joint_test chi2_cdf coef_by_k0 p_by_k0 k_pre_max
    = Return r ->
  Sorted (fun a b => (a <= b)%Z) (k_values r) /\
  df_num r = 2 * INR (length (k_values r)) /\
  0 <= f_stat r <= INR (length (k_values r)) * (-2 * ln 1e-12).
Proof.
  intros Hr.
  destruct (joint_test_inv _ _ _ _ _ Hr) as [ps' [Hc ->]].
  cbn [k_values f_stat df_num].
  set (ks := sorted Z.leb
               (filter (fun k => (k <=? k_pre_max)%Z) (keys coef_by_k0))) in *.
  destruct (clamped_pvalues_outcome p_by_k0 ks) as [Hret Hkey].
  destruct Hret as [ps [Hps [Hl Hf]]].
  { intros k Hk E.
    rewrite Hkey in Hc by (now exists k). discriminate. }
  assert (ps' = ps) by congruence. subst ps'.
  split; [|split].
  - assert (Hs : Sorted (fun a b => Z.leb a b = true) ks).
    { apply sorted_Sorted. intros x y.
      destruct (Z.leb_spec x y); [now left|].
      right. apply Z.leb_le. lia. }
    clear -Hs. induction Hs as [|a l _ IH Hhd]; constructor; [exact IH|].
    destruct Hhd as [|b l' Hb]; constructor. now apply Z.leb_le.
  - now rewrite Hl.
  - rewrite <- Hl.
    assert (Hb : Forall (fun x => ln 1e-12 <= x <= 0) (map ln ps)).
    { apply Forall_forall. intros x Hx. apply in_map_iff in Hx.
      destruct Hx as [p [<- Hp]]. rewrite Forall_forall in Hf.
      destruct (Hf p Hp) as [H1 H2]. split.
      - destruct H1 as [H1|H1]; [left; apply ln_increasing; lra | right; now rewrite H1].
      - rewrite <- ln_1.
        destruct H2 as [H2|H2]; [left; apply ln_increasing; lra | right; now rewrite H2]. }
    apply Rsum_bounds in Hb. rewrite length_map in Hb.
    split; nra.
Qed.

(** X20, witness: one pre-period offset with p-value 0.2. *)
Lemma event_study_preperiod_joint_test_range_witness :
  exists r,
    event_study_preperiod_joint_test chi2_cdf_df2
      [((-2)%Z, 0.3); (0%Z, 1.5)] [((-2)%Z, 0.2); (0%Z, 0.01)] (-2)
      = Return r /\
    0 <= f_stat r.
Proof.
  eexists. split; [reflexivity|].
  match goal with
  | |- context [f_stat ?r] =>
      destruct (event_study_preperiod_joint_test_range chi2_cdf_df2
                  [((-2)%Z, 0.3); (0%Z, 1.5)] [((-2)%Z, 0.2); (0%Z, 0.01)]
                  (-2) r eq_refl)
        as [_ [_ [Hp _]]]
  end.
  exact Hp.
Defined.

(** ** From the event study to the joint test *)

Lemma sorted_of_strongly_sorted {A} (le : A -> A -> bool) l :
  StronglySorted (fun a b => le a b = true) l -> sorted le l = l.
Proof.
  induction 1 as [|x l Hl IH Hx]; [reflexivity|].
  cbn [sorted fold_right]. fold (sorted le l). rewrite IH.
  destruct l as [|y l']; [reflexivity|].
  cbn [insert_sorted]. inversion Hx; subst.
  now replace (le x y) with true by (symmetry; assumption).
Qed.

Lemma strongly_sorted_filter {A} (R : A -> A -> Prop) (f : A -> bool) l :
  StronglySorted R l -> StronglySorted R (filter f l).
Proof.
  induction 1 as [|x l Hl IH Hx]; simpl; [constructor|].
  destruct (f x); [|exact IH]. constructor; [exact IH|].
  apply Forall_forall. intros y Hy. apply filter_In in Hy.
  rewrite Forall_forall in Hx. now apply Hx.
Qed.

Lemma range_strongly_sorted a b :
  StronglySorted (fun x y => (x <=? y)%Z = true) (range a b).
Proof.
  unfold range. generalize (Z.to_nat (b - a)) as n. generalize 0%nat as s.
  intros s n. revert s. induction n as [|n IH]; intros s; simpl.
  - constructor.
  - constructor; [apply IH|].
    apply Forall_forall. intros y Hy. apply in_map_iff in Hy.
    destruct Hy as [i [<- Hi]]. apply in_seq in Hi. apply Z.leb_le. lia.
Qed.

Lemma dict_get_keys {V} k (d : list (Z * V)) :
  In k (keys d) -> dict_get Z.eqb k d <> None.
Proof.
  induction d as [|[k' v] d IH]; simpl; [tauto|].
  intros [->|Hin].
  - now rewrite Z.eqb_refl.
  - destruct (Z.eqb k k'); [discriminate | now apply IH].
Qed.

(** X21.  The mappings returned by [event_study] can always be handed to
    the joint test: it never fails on a missing key.  It tests exactly the
    offsets of the window, other than [omit_k], that are at most
    [k_pre_max], in ascending order, and raises the no-coefficient error
    when there is none. *)
Theorem event_study_joint_test_composition `{RegressionBackbone}
    chi2_cdf df k_min k_max omit_k x_cols cluster_col k_pre_max :
  exists es,
    event_study df k_min k_max omit_k x_cols cluster_col = Return es /\
    let ks :=
      filter (fun k => (k <=? k_pre_max)%Z)
             (filter (fun k => negb (k =? omit_k)%Z) (range k_min (k_max + 1)))
    in
    (ks = [] ->
     event_study_preperiod_joint_test chi2_cdf (coef_by_k es) (p_by_k es)
                                      k_pre_max
     = Raise "No pre-period coefficients available for joint test.") /\
    (ks <> [] ->
     exists r,
       event_study_preperiod_joint_test chi2_cdf (coef_by_k es) (p_by_k es)
                                        k_pre_max
       = Return r /\
       k_values r = ks).
Proof.
  destruct (event_study_returns df k_min k_max omit_k x_cols cluster_col)
    as [es [Hes [K1 K2]]].
  exists es. split; [exact Hes|]. intros ks.
  unfold event_study_preperiod_joint_test. rewrite K1.
  unfold es_offsets. fold ks.
  assert (Hs : sorted Z.leb ks = ks).
  { apply sorted_of_strongly_sorted.
    do 2 apply strongly_sorted_filter. apply range_strongly_sorted. }
  rewrite Hs. split.
  - intros ->. reflexivity.
  - intros Hne.
    destruct (clamped_pvalues_outcome (p_by_k es) ks) as [Hret _].
    destruct Hret as [ps [Hps _]].
    { intros k Hk. apply dict_get_keys. rewrite K2.
      unfold ks in Hk. apply filter_In in Hk. tauto. }
    destruct ks as [|k0 ks0]; [congruence|].
    rewrite Hps. cbn [bind]. eexists. split; reflexivity.
Qed.

(** ** The regression discontinuity on a position index *)

Lemma Rabs_le_bounds x b : Rabs x <= b -> - b <= x <= b.
Proof. unfold Rabs. destruct (Rcase_abs x); lra. Qed.

(** At most 19 integers lie within distance 9 of a real number. *)
Lemma integers_within (c b : R) (l : list nat) :
  b <= 9 -> NoDup l ->
  (forall i, In i l -> Rabs (INR i - c) <= b) ->
  (length l <= 19)%nat.
Proof.
  intros Hb Hnd Hall.
  set (u := up (c - b)).
  destruct (archimed (c - b)) as [Hu1 Hu2]. fold u in Hu1, Hu2.
  assert (Hrange : forall i, In i l -> (u - 1 <= Z.of_nat i < u + 18)%Z).
  { intros i Hi. specialize (Hall i Hi).
    apply Rabs_le_bounds in Hall. rewrite INR_IZR_INZ in Hall. split.
    - apply le_IZR. rewrite minus_IZR. lra.
    - apply lt_IZR. rewrite plus_IZR. lra. }
  rewrite <- (length_map Z.of_nat).
  replace 19%nat with (length (map (fun k => (u - 1 + Z.of_nat k)%Z) (seq 0 19)))
    by (rewrite length_map, length_seq; reflexivity).
  apply NoDup_incl_length.
  - apply Finite.Injective_map_NoDup; [|exact Hnd].
    intros x y. apply Nat2Z.inj.
  - intros z Hz. apply in_map_iff in Hz. destruct Hz as [i [<- Hi]].
    apply Hrange in Hi. apply in_map_iff.
    exists (Z.to_nat (Z.of_nat i - (u - 1))). split; [lia|].
    apply in_seq. lia.
Qed.

Lemma assign_t_window ts cutoff bandwidth :
  bandwidth <= 9 ->
  (length (rdd_window (assign_t ts) cutoff bandwidth) <= 19)%nat.
Proof.
  intros Hb. rewrite rdd_window_length. unfold assign_t.
  set (f := fun ir : nat * RDRow =>
              {| rd_running := INR (fst ir); rd_y := rd_y (snd ir);
                 rd_cov := rd_cov (snd ir) |}).
  set (P := fun r => Rleb (Rabs (rd_running r - cutoff)) bandwidth).
  assert (E : length (filter P (map f (combine (seq 0 (length ts)) ts)))
              = length (filter (fun i => Rleb (Rabs (INR i - cutoff)) bandwidth)
                               (seq 0 (length ts)))).
  { generalize 0%nat as s. induction ts as [|r ts IH]; intros s;
      [reflexivity|].
    cbn [length seq combine map filter]. unfold P at 1. cbn [f rd_running fst].
    destruct (Rleb (Rabs (INR s - cutoff)) bandwidth);
      cbn [length]; now rewrite IH. }
  rewrite E. apply (integers_within cutoff bandwidth); [exact Hb | |].
  - apply NoDup_filter, seq_NoDup.
  - intros i Hi. apply filter_In in Hi.
    now apply (proj1 (Rleb_true _ _)).
Qed.

(** X22.  When the running variable is the position of the row in the
    frame, as in the orchestrator, a bandwidth of at most 9 can hold at
    most 19 rows: [regression_discontinuity] then raises for every frame
    and every cutoff. *)
Theorem regression_discontinuity_position_index `{RegressionBackbone}
    ts cutoff bandwidth x_cols :
  bandwidth <= 9 ->
  regression_discontinuity (assign_t ts) cutoff bandwidth x_cols
  = Raise "Not enough observations in bandwidth to fit RDD.".
Proof.
  intros Hb. apply (proj2 (rdd_raises_iff _ _ _ _)).
  pose proof (assign_t_window ts cutoff bandwidth Hb). lia.
Qed.

(** X22, witness: the bandwidth 6 of the causal suite on the demo frame. *)
Lemma regression_discontinuity_position_index_witness :
  regression_discontinuity (assign_t demo_rd) 10 6 []
  = Raise "Not enough observations in bandwidth to fit RDD.".
Proof.
  apply regression_discontinuity_position_index. lra.
Defined.

(** X23.  The bandwidth sweep of the orchestrator, with bandwidths 3, 6, 9
    and 12 on the position index, reports an error for the first three
    bandwidths on every frame; only the record of bandwidth 12 can hold an
    estimate. *)
Theorem rdd_bandwidth_sweep_errors `{RegressionBackbone} ts :
  exists rec12,
    rdd_bandwidth_sweep ts
    = [ BandwidthError 3 "Not enough observations in bandwidth to fit RDD.";
        BandwidthError 6 "Not enough observations in bandwidth to fit RDD.";
        BandwidthError 9 "Not enough observations in bandwidth to fit RDD.";
        rec12 ].
Proof.
  unfold rdd_bandwidth_sweep, rdd_bandwidth_sensitivity. cbn [map].
  assert (Hraise : forall b, b <= 9 ->
            regression_discontinuity (assign_t ts) (INR (length ts / 2)) b
              ["unrest_count"; "unrest_intensity"]
            = Raise "Not enough observations in bandwidth to fit RDD.").
  { intros b Hb. apply (proj2 (rdd_raises_iff _ _ _ _)).
    pose proof (assign_t_window ts (INR (length ts / 2)) b Hb). lia. }
  rewrite !Hraise by lra.
  eexists. reflexivity.
Qed.

(** ** Periods and fit statistics of the synthetic control *)

Lemma string_ltb_negb_leb a b : String.ltb a b = negb (String.leb b a).
Proof.
  destruct (String.leb b a) eqn:E.
  - now apply string_leb_ltb.
  - destruct (String.ltb a b) eqn:E'; [reflexivity|].
    apply string_ltb_leb in E'. congruence.
Qed.

Lemma synthetic_control_fields d tu it du r :
  synthetic_control d tu it du = Return r ->
  let pre := filter (fun t => String.ltb t it) (all_times d) in
  let post := filter (fun t => String.leb it t) (all_times d) in
  sc_treated_unit r = tu /\
  sc_n_pre r = length pre /\ sc_n_post r = length post /\
  (pre = [] -> sc_pre_rmse r = NaN) /\
  (pre <> [] -> exists x, sc_pre_rmse r = Fin x /\ 0 <= x) /\
  (post = [] -> sc_post_gap_mean r = NaN) /\
  (post <> [] -> exists x, sc_post_gap_mean r = Fin x).
Proof.
  unfold synthetic_control.
  destruct (duplicate_labels d tu
            || existsb (duplicate_labels d) (sc_donors d tu du))%bool;
    [discriminate|].
  destruct (sc_donors d tu du) as [|u us]; [discriminate|].
  intros H.
  set (pre := filter (fun t => String.ltb t it) (all_times d)) in *.
  set (post := filter (fun t => String.leb it t) (all_times d)) in *.
  assert (Hr : forall x y : SyntheticControlResult, Return x = Return y -> x = y)
    by (intros x y Hxy; congruence).
  apply Hr in H. subst r.
  cbn [sc_treated_unit sc_n_pre sc_n_post sc_pre_rmse sc_post_gap_mean].
  pose proof (series_length d tu pre) as Hl.
  split; [reflexivity|]. split; [reflexivity|]. split; [reflexivity|].
  split; [|split; [|split]].
  - intros E. rewrite E in Hl |- *.
    destruct (_series d tu []); [reflexivity | discriminate].
  - intros Hne. destruct (_series d tu pre) as [|y ys] eqn:Ey.
    + destruct pre; [congruence | discriminate].
    + eexists. split; [reflexivity | apply sqrt_pos].
  - intros E. now rewrite E.
  - intros Hne. destruct post; [congruence|]. eexists. reflexivity.
Qed.

(** X24.  Whenever [synthetic_control] returns, [n_pre] and [n_post] add up
    to the number of distinct periods of the panel; the pre-period RMSE is
    NaN exactly when there is no pre-intervention period and a
    non-negative number otherwise; and the mean post-period gap is NaN
    exactly when no period is at or after the intervention. *)
Theorem synthetic_control_periods d tu it du r :
  synthetic_control d tu it du = Return r ->
  (sc_n_pre r + sc_n_post r = length (unique (map p_time d)))%nat /\
  (sc_pre_rmse r = NaN <-> sc_n_pre r = 0%nat) /\
  (sc_n_pre r <> 0%nat -> exists x, sc_pre_rmse r = Fin x /\ 0 <= x) /\
  (sc_post_gap_mean r = NaN <-> sc_n_post r = 0%nat).
Proof.
  intros H.
  destruct (synthetic_control_fields d tu it du r H)
    as [_ [Hpre [Hpost [P0 [P1 [Q0 Q1]]]]]].
  split; [|split; [|split]].
  - rewrite Hpre, Hpost.
    rewrite (filter_ext (fun t => String.ltb t it)
                        (fun t => negb (String.leb it t)))
      by (intros t; apply string_ltb_negb_leb).
    rewrite Nat.add_comm, filter_length.
    apply Permutation_length, sorted_perm.
  - rewrite Hpre. split.
    + intros E.
      destruct (filter (fun t => String.ltb t it) (all_times d)) eqn:Ef;
        [reflexivity|].
      destruct P1 as [x [Hx _]]; [discriminate | congruence].
    + intros E. apply P0. now apply length_zero_iff_nil.
  - rewrite Hpre. intros Hn. apply P1. intros E. rewrite E in Hn. now apply Hn.
  - rewrite Hpost. split.
    + intros E.
      destruct (filter (fun t => String.leb it t) (all_times d)) eqn:Ef;
        [reflexivity|].
      destruct Q1 as [x Hx]; [discriminate | congruence].
    + intros E. apply Q0. now apply length_zero_iff_nil.
Qed.

(** X24, witness: the two-period demo panel with the intervention in the
    second period. *)
Lemma synthetic_control_periods_witness :
  exists r,
    synthetic_control (demo_panel 1 1) "A" "2020-02" None = Return r /\
    (sc_n_pre r + sc_n_post r = 2)%nat.
Proof.
  destruct (synthetic_control_default (demo_panel 1 1) "A" "2020-02"
              (demo_panel_keyed 1 1))
    as [_ Hret].
  destruct Hret as [r [Hr _]].
  { intros E. vm_compute in E. discriminate E. }
  exists r. split; [exact Hr|].
  destruct (synthetic_control_periods _ _ _ _ r Hr) as [Hn _].
  exact Hn.
Defined.

(** ** Row order and the event study *)

Lemma getitem_outcome (l l' : list R) i :
  length l = length l' ->
  (exists x x', getitem l i = Return x /\ getitem l' i = Return x') \/
  (getitem l i = Raise "IndexError" /\ getitem l' i = Raise "IndexError").
Proof.
  intros Hl. unfold getitem.
  destruct (nth_error l i) as [x|] eqn:E, (nth_error l' i) as [x'|] eqn:E'.
  - left. now exists x, x'.
  - apply nth_error_None in E'.
    assert (Hs : nth_error l i <> None) by congruence.
    apply nth_error_Some in Hs. lia.
  - apply nth_error_None in E.
    assert (Hs : nth_error l' i <> None) by congruence.
    apply nth_error_Some in Hs. lia.
  - now right.
Qed.

(** The coefficient mapping collected from a model depends on its column
    names and coefficients only. *)
Lemma es_collect_coef_ext (m m' : OLSResults) ks acc acc' :
  exog_names m = exog_names m' ->
  params m = params m' ->
  length (pvalues m) = length (pvalues m') ->
  fst acc = fst acc' ->
  result_map fst (es_collect m ks acc) = result_map fst (es_collect m' ks acc').
Proof.
  intros Hn Hp Hq. revert acc acc'.
  induction ks as [|k ks IH]; intros acc acc' Hacc; cbn [es_collect].
  - cbn [result_map]. now rewrite Hacc.
  - rewrite <- Hn, <- Hp.
    destruct (index_of (_kname k) (exog_names m)) as [i|e]; [|reflexivity].
    cbn [bind].
    destruct (getitem (params m) i) as [c|e]; [|reflexivity].
    cbn [bind].
    destruct (getitem_outcome (pvalues m) (pvalues m') i Hq)
      as [[p [p' [-> ->]]]|[-> ->]]; [|reflexivity].
    cbn [bind]. apply IH. cbn [fst]. now rewrite Hacc.
Qed.

(** Whether the collecting loop raises, and with which error, depends on
    the column names and on the number of coefficients only. *)
Lemma es_collect_raise_ext (m m' : OLSResults) ks acc acc' e :
  exog_names m = exog_names m' ->
  length (params m) = length (params m') ->
  length (pvalues m) = length (pvalues m') ->
  es_collect m ks acc = Raise e -> es_collect m' ks acc' = Raise e.
Proof.
  intros Hn Hp Hq. revert acc acc'.
  induction ks as [|k ks IH]; intros acc acc'; cbn [es_collect];
    [discriminate|].
  rewrite <- Hn.
  destruct (index_of (_kname k) (exog_names m)) as [i|e0]; [|exact (fun E => E)].
  cbn [bind].
  destruct (getitem_outcome (params m) (params m') i Hp)
    as [[c [c' [-> ->]]]|[-> ->]]; [|exact (fun E => E)].
  cbn [bind].
  destruct (getitem_outcome (pvalues m) (pvalues m') i Hq)
    as [[p [p' [-> ->]]]|[-> ->]]; [|exact (fun E => E)].
  cbn [bind]. apply IH.
Qed.

(** X25.  The event study does not depend on the order of the rows of the
    frame except through the least-squares routine: on a permutation of the
    rows the two designs have the same columns and the same observations up
    to their order, the function raises on both frames or on neither, and a
    routine that does not depend on the order of the observations gives the
    same coefficients, offset by offset. *)
Theorem event_study_row_order `{RegressionBackbone}
    df df' k_min k_max omit_k x_cols cluster_col :
  Permutation df df' ->
  let rhs := event_terms k_min k_max omit_k x_cols in
  let m := ols_fixed_effects df rhs in
  let m' := ols_fixed_effects df' rhs in
  exog_names m = exog_names m' /\
  Permutation (observations m) (observations m') /\
  (forall e, event_study df k_min k_max omit_k x_cols cluster_col = Raise e
             <-> event_study df' k_min k_max omit_k x_cols cluster_col
                 = Raise e) /\
  (row_order_independent ->
   result_map coef_by_k
     (event_study df k_min k_max omit_k x_cols cluster_col)
   = result_map coef_by_k
       (event_study df' k_min k_max omit_k x_cols cluster_col)).
Proof.
  intros Hp rhs m0 m0'.
  destruct (ols_fixed_effects_design df df' rhs Hp) as [Hn Hobs].
  split; [exact Hn|]. split; [exact Hobs|].
  unfold event_study.
  set (ks := filter (fun k => negb (k =? omit_k)%Z) (range k_min (k_max + 1))).
  change ([("treated", fun r : DidRow => b2r (d_treated r))]
            ++ map (fun k =>
                      (_kname k,
                       fun r : DidRow =>
                         b2r (d_event_time r =? k)%Z * b2r (d_treated r)))
                   ks
            ++ covariates x_cols) with rhs.
  set (m := with_cluster df cluster_col (ols_fixed_effects df rhs)).
  set (m' := with_cluster df' cluster_col (ols_fixed_effects df' rhs)).
  destruct (fixed_effects_lengths df cluster_col rhs) as [Hl Hq].
  destruct (fixed_effects_lengths df' cluster_col rhs) as [Hl' Hq'].
  fold m in Hl, Hq. fold m' in Hl', Hq'.
  assert (Hn' : exog_names m = exog_names m').
  { unfold m, m'. now rewrite !with_cluster_names. }
  assert (Hq2 : length (pvalues m) = length (pvalues m'))
    by (rewrite Hq, Hq'; now rewrite Hn').
  assert (Hl2 : length (params m) = length (params m'))
    by (rewrite Hl, Hl'; now rewrite Hn').
  split.
  - intros e. split; intros E.
    + destruct (es_collect m ks ([], [])) as [cp|e0] eqn:Ec; [discriminate|].
      rewrite (es_collect_raise_ext m m' ks _ ([], []) e0 Hn' Hl2 Hq2 Ec).
      exact E.
    + destruct (es_collect m' ks ([], [])) as [cp|e0] eqn:Ec; [discriminate|].
      rewrite (es_collect_raise_ext m' m ks _ ([], []) e0
                 (eq_sym Hn') (eq_sym Hl2) (eq_sym Hq2) Ec).
      exact E.
  - intros Hroi.
    destruct (ols_fixed_effects_perm df df' rhs Hroi Hp) as [_ Hpar].
    assert (Hp' : params m = params m').
    { unfold m, m'. now rewrite !with_cluster_params. }
    pose proof (es_collect_coef_ext m m' ks ([], []) ([], [])
                  Hn' Hp' Hq2 eq_refl) as Hc.
    destruct (es_collect m ks ([], [])) as [cp|e],
             (es_collect m' ks ([], [])) as [cp'|e'];
      cbn [bind result_map coef_by_k] in *; congruence.
Qed.

(** X25, witness: the demo frame and the frame with its rows reversed,
    fitted through the normal equations. *)
Lemma event_study_row_order_witness :
  result_map coef_by_k (event_study demo_did (-2) 1 (-1) [] None)
  = result_map coef_by_k (event_study (rev demo_did) (-2) 1 (-1) [] None).
Proof.
  destruct (@event_study_row_order diagonal_backbone
              demo_did (rev demo_did) (-2)%Z 1%Z (-1)%Z [] None
              (Permutation_rev _))
    as [_ [_ [_ Hcoef]]].
  apply Hcoef. apply diagonal_row_order_independent.
Defined.

(** ** The month index and the DiD frame of the orchestrators *)

Lemma strongly_sorted_strict (l : list string) :
  NoDup l ->
  StronglySorted (fun a b => String.leb a b = true) l ->
  StronglySorted (fun a b => String.ltb a b = true) l.
Proof.
  intros Hnd Hs. induction Hs as [|x l Hl IH Hx]; [constructor|].
  inversion Hnd as [|? ? Hnot Hnd']; subst.
  constructor; [now apply IH|].
  apply Forall_forall. intros y Hy. rewrite Forall_forall in Hx.
  specialize (Hx y Hy).
  destruct (String.ltb x y) eqn:E; [reflexivity|].
  apply string_ltb_leb in E.
  assert (x = y) by now apply String.leb_antisym. subst. contradiction.
Qed.

Lemma string_ltb_irrefl a : String.ltb a a = false.
Proof.
  apply string_leb_ltb. destruct (String.leb_total a a); assumption.
Qed.

Lemma string_ltb_trans a b c :
  String.ltb a b = true -> String.ltb b c = true -> String.ltb a c = true.
Proof.
  intros Hab Hbc. apply (string_ltb_leb_trans a b c Hab).
  destruct (String.leb b c) eqn:E; [reflexivity|].
  assert (Hcb : String.ltb c b = true)
    by (rewrite string_ltb_negb_leb, E; reflexivity).
  rewrite string_ltb_negb_leb in Hcb.
  apply negb_true_iff in Hcb.
  rewrite string_ltb_negb_leb in Hbc. apply negb_true_iff in Hbc.
  destruct (String.leb_total b c); congruence.
Qed.

(** In a strictly ascending list the position of an entry is the number
    of entries before it. *)
Lemma dict_get_combine_rank (months : list string) s m :
  StronglySorted (fun a b => String.ltb a b = true) months ->
  In m months ->
  dict_get String.eqb m (combine months (seq s (length months)))
  = Some (s + rank months m)%nat.
Proof.
  intros Hs. revert s. induction Hs as [|x l Hl IH Hx]; intros s Hin.
  - destruct Hin.
  - rewrite Forall_forall in Hx. cbn [length seq combine dict_get].
    unfold rank. cbn [filter].
    destruct (String.eqb_spec m x) as [->|Hne].
    + rewrite string_ltb_irrefl.
      rewrite filter_none; [f_equal; simpl; lia|].
      intros y Hy. apply string_leb_ltb.
      specialize (Hx y Hy). rewrite string_ltb_negb_leb in Hx.
      apply negb_true_iff in Hx.
      destruct (String.leb_total x y); congruence.
    + destruct Hin as [->|Hin]; [congruence|].
      rewrite (Hx m Hin). rewrite (IH (S s) Hin). unfold rank.
      cbn [length]. f_equal. lia.
Qed.

Lemma dict_get_combine_none (months : list string) s m :
  ~ In m months ->
  dict_get String.eqb m (combine months (seq s (length months))) = None.
Proof.
  revert s. induction months as [|x months IH]; intros s Hn; [reflexivity|].
  cbn [length seq combine dict_get].
  destruct (String.eqb_spec m x) as [->|Hne]; [exfalso; apply Hn; now left|].
  apply IH. intros Hin. apply Hn. now right.
Qed.

Lemma sorted_unique_strict (l : list string) :
  StronglySorted (fun a b => String.ltb a b = true)
                 (sorted String.leb (unique l)).
Proof.
  apply strongly_sorted_strict.
  - apply sorted_nodup, unique_nodup.
  - apply Sorted_StronglySorted.
    + intros x y z. apply string_leb_trans.
    + apply sorted_Sorted. apply String.leb_total.
Qed.

Lemma enumerate_index_eq (months : list string) :
  NoDup months ->
  enumerate_index months = combine months (seq 0 (length months)).
Proof.
  intros Hnd. unfold enumerate_index.
  apply (dict_of_nodup String.eqb String.eqb_spec).
  rewrite combine_fst; [exact Hnd | now rewrite length_seq].
Qed.

Lemma enumerate_index_get (l : list string) m :
  dict_get String.eqb m (enumerate_index (sorted String.leb (unique l)))
  = if str_mem m l then Some (rank (sorted String.leb (unique l)) m)
    else None.
Proof.
  rewrite enumerate_index_eq by (apply sorted_nodup, unique_nodup).
  destruct (str_mem m l) eqn:E.
  - apply str_mem_In in E.
    rewrite (dict_get_combine_rank _ 0 m (sorted_unique_strict l)).
    + reflexivity.
    + now apply sorted_In, unique_In.
  - apply str_mem_false in E.
    apply dict_get_combine_none.
    rewrite sorted_In, unique_In. exact E.
Qed.

Lemma rank_perm l l' m : Permutation l l' -> rank l m = rank l' m.
Proof.
  intros Hp. unfold rank. apply Permutation_length.
  induction Hp; simpl.
  - constructor.
  - destruct (String.ltb x m); [now constructor | assumption].
  - destruct (String.ltb x m), (String.ltb y m);
      try reflexivity; try constructor; reflexivity.
  - etransitivity; eassumption.
Qed.

Lemma rank_mono months m m' :
  String.leb m m' = true -> (rank months m <= rank months m')%nat.
Proof.
  intros Hle. unfold rank. apply filter_length_mono.
  intros x _ Hx. now apply (string_ltb_leb_trans x m m').
Qed.

Lemma rank_strict months m m' :
  In m months -> String.ltb m m' = true ->
  (rank months m < rank months m')%nat.
Proof.
  intros Hin Hlt. unfold rank.
  induction months as [|x months IH]; [destruct Hin|].
  cbn [filter].
  assert (Hmono : (length (filter (fun y => String.ltb y m) months)
                   <= length (filter (fun y => String.ltb y m') months))%nat).
  { apply filter_length_mono. intros y _ Hy.
    now apply (string_ltb_trans y m m'). }
  destruct Hin as [->|Hin].
  - rewrite string_ltb_irrefl, Hlt. cbn [length]. lia.
  - specialize (IH Hin).
    destruct (String.ltb x m) eqn:E.
    + rewrite (string_ltb_trans x m m' E Hlt). cbn [length]. lia.
    + destruct (String.ltb x m'); cbn [length]; lia.
Qed.

(** X26.  For a list of distinct months, [_month_index] maps every month
    of the list to the number of months of the list strictly before it,
    whatever the order of the list, so the earliest month gets 0 and the
    index respects the order of the months; a month outside the list has
    no index. *)
Theorem month_index_rank months m m' :
  NoDup months ->
  In m months ->
  dict_get String.eqb m (_month_index months) = Some (rank months m) /\
  (In m' months ->
   (String.ltb m m' = true <-> (rank months m < rank months m')%nat)) /\
  (forall x, ~ In x months ->
     dict_get String.eqb x (_month_index months) = None).
Proof.
  intros Hnd Hin.
  assert (Hs : StronglySorted (fun a b => String.ltb a b = true)
                 (sorted String.leb months)).
  { apply strongly_sorted_strict.
    - now apply sorted_nodup.
    - apply Sorted_StronglySorted.
      + intros x y z. apply string_leb_trans.
      + apply sorted_Sorted. apply String.leb_total. }
  assert (Hidx : _month_index months
                 = combine (sorted String.leb months)
                           (seq 0 (length (sorted String.leb months)))).
  { unfold _month_index. apply enumerate_index_eq. now apply sorted_nodup. }
  split; [|split].
  - rewrite Hidx, (dict_get_combine_rank _ 0 m Hs)
      by (now apply sorted_In).
    f_equal. apply rank_perm, sorted_perm.
  - intros Hin'. split.
    + now apply rank_strict.
    + intros Hlt. destruct (String.ltb m m') eqn:E; [reflexivity|].
      apply string_ltb_leb in E.
      pose proof (rank_mono months m' m E). lia.
  - intros x Hx. rewrite Hidx.
    apply dict_get_combine_none. now rewrite sorted_In.
Qed.

(** X26, witness: three months given out of order. *)
Lemma month_index_rank_witness :
  dict_get String.eqb "2020-02" (_month_index ["2020-03"; "2020-01"; "2020-02"])
  = Some 1%nat.
Proof.
  destruct (month_index_rank ["2020-03"; "2020-01"; "2020-02"]
                             "2020-02" "2020-03") as [H _].
  - repeat constructor; simpl; intuition discriminate.
  - simpl. tauto.
  - exact H.
Defined.

Lemma combine_map_r {A B} (f : A -> B) (l : list A) :
  combine l (map f l) = map (fun x => (x, f x)) l.
Proof. induction l; simpl; congruence. Qed.

Lemma map_index_rank (d l : list DidRow) :
  incl l d ->
  let months := sorted String.leb (unique (map d_time d)) in
  map_index (enumerate_index months) (map d_time l)
  = Return (map (fun r => rank months (d_time r)) l).
Proof.
  intros Hincl months. induction l as [|r l IH]; [reflexivity|].
  cbn [map map_index]. unfold months at 1. rewrite enumerate_index_get.
  assert (Hin : str_mem (d_time r) (map d_time d) = true).
  { apply str_mem_In, in_map, Hincl. now left. }
  rewrite Hin. fold months.
  rewrite IH by (intros x Hx; apply Hincl; now right).
  reflexivity.
Qed.

(** The frame in closed form. *)
Lemma did_df_spec d treated_country intervention_month :
  let months := sorted String.leb (unique (map d_time d)) in
  did_df d treated_country intervention_month =
  if str_mem intervention_month (map d_time d) then
    Return
      (map (fun r =>
              {| d_unit := d_unit r;
                 d_time := d_time r;
                 d_y := d_y r;
                 d_treated := String.eqb (d_unit r) treated_country;
                 d_post := String.leb intervention_month (d_time r);
                 d_event_time :=
                   (Z.of_nat (rank months (d_time r))
                    - Z.of_nat (rank months intervention_month))%Z;
                 d_cov := d_cov r |})
           d)
  else Raise "KeyError".
Proof.
  intros months. unfold did_df. fold months.
  pose proof (map_index_rank d d (fun x Hx => Hx)) as Hm.
  cbv zeta in Hm. fold months in Hm. rewrite Hm. cbn [bind].
  unfold months at 1. rewrite enumerate_index_get. fold months.
  destruct (str_mem intervention_month (map d_time d)); [|reflexivity].
  f_equal. rewrite combine_map_r, map_map. reflexivity.
Qed.

(** X27.  Building the DiD frame fails with [KeyError] exactly when no row
    of the panel carries the intervention month; otherwise it returns the
    panel with its rows, units, months and outcomes unchanged and in the
    same order. *)
Theorem did_df_outcome d treated_country intervention_month :
  (did_df d treated_country intervention_month = Raise "KeyError"
   <-> forall r, In r d -> d_time r <> intervention_month) /\
  ((exists rows, did_df d treated_country intervention_month = Return rows)
   <-> exists r, In r d /\ d_time r = intervention_month) /\
  (forall rows,
     did_df d treated_country intervention_month = Return rows ->
     map d_unit rows = map d_unit d /\
     map d_time rows = map d_time d /\
     map d_y rows = map d_y d).
Proof.
  rewrite did_df_spec. cbv zeta.
  destruct (str_mem intervention_month (map d_time d)) eqn:E.
  - apply str_mem_In, in_map_iff in E. destruct E as [r [Hr Hin]].
    split; [|split].
    + split; [discriminate|]. intros Hall. exfalso. now apply (Hall r).
    + split; [intros _; now exists r | intros _; eexists; reflexivity].
    + intros rows Hrows.
      assert (Hinj : forall x y : list DidRow, Return x = Return y -> x = y)
        by (intros x y Hxy; congruence).
      apply Hinj in Hrows. subst rows. rewrite !map_map. cbn [d_unit d_time d_y].
      repeat split; reflexivity.
  - apply str_mem_false in E.
    split; [|split].
    + split; [|reflexivity]. intros _ r Hr Ht. apply E.
      rewrite <- Ht. now apply in_map.
    + split; [intros [rows Hrows]; discriminate|].
      intros [r [Hr Ht]]. exfalso. apply E. rewrite <- Ht. now apply in_map.
    + intros rows Hrows. discriminate.
Qed.

(** X28.  In the DiD frame the three assigned columns agree with each
    other: a row is marked [post] exactly when its event time is not
    negative, its event time is 0 exactly in the intervention month, and
    the event time is the number of distinct months of the panel between
    the intervention month and the row's month (months missing from the
    panel are not counted). *)
Theorem did_df_event_time d treated_country intervention_month rows r :
  did_df d treated_country intervention_month = Return rows ->
  In r rows ->
  d_treated r = String.eqb (d_unit r) treated_country /\
  (d_post r = true <-> (0 <= d_event_time r)%Z) /\
  (d_event_time r = 0%Z <-> d_time r = intervention_month) /\
  d_event_time r
  = (Z.of_nat (rank (unique (map d_time d)) (d_time r))
     - Z.of_nat (rank (unique (map d_time d)) intervention_month))%Z.
Proof.
  rewrite did_df_spec. cbv zeta.
  destruct (str_mem intervention_month (map d_time d)) eqn:E; [|discriminate].
  intros Hrows Hin.
  assert (Hinj : forall x y : list DidRow, Return x = Return y -> x = y)
    by (intros x y Hxy; congruence).
  apply Hinj in Hrows. subst rows.
  apply in_map_iff in Hin. destruct Hin as [r0 [<- Hr0]].
  cbn [d_treated d_unit d_post d_time d_event_time].
  set (months := sorted String.leb (unique (map d_time d))).
  assert (Hm0 : In intervention_month months).
  { unfold months. apply sorted_In, unique_In. now apply str_mem_In. }
  assert (Ht : In (d_time r0) months).
  { unfold months. apply sorted_In, unique_In. now apply in_map. }
  split; [reflexivity|]. split; [|split].
  - split.
    + intros Hle.
      pose proof (rank_mono months _ _ Hle). lia.
    + intros Hk.
      destruct (String.leb intervention_month (d_time r0)) eqn:El;
        [reflexivity|].
      assert (Hlt : String.ltb (d_time r0) intervention_month = true)
        by (rewrite string_ltb_negb_leb, El; reflexivity).
      pose proof (rank_strict months _ _ Ht Hlt). lia.
  - split.
    + intros Hk.
      destruct (String.ltb (d_time r0) intervention_month) eqn:E1.
      { pose proof (rank_strict months _ _ Ht E1). lia. }
      destruct (String.ltb intervention_month (d_time r0)) eqn:E2.
      { pose proof (rank_strict months _ _ Hm0 E2). lia. }
      apply string_ltb_leb in E1, E2. now apply String.leb_antisym.
    + intros ->. lia.
  - unfold months.
    now rewrite !(rank_perm _ _ _ (sorted_perm String.leb _)).
Qed.

(** X28, witness: the demo frame with the intervention in its second
    month. *)
Lemma did_df_event_time_witness :
  exists rows,
    did_df demo_did "A" "2020-02" = Return rows /\
    Forall (fun r => d_post r = true <-> (0 <= d_event_time r)%Z) rows.
Proof.
  eexists. split; [reflexivity|].
  apply Forall_forall. intros r Hr.
  match goal with
  | H : In r ?rows |- _ =>
      destruct (did_df_event_time demo_did "A" "2020-02" rows r eq_refl H)
        as [_ [Hp _]]
  end.
  exact Hp.
Defined.

(** X29.  The trend regressor of [parallel_trends_pretest] is a rank: the
    [_trend] value of a pre-period row is the number of distinct
    pre-period months strictly before the month of the row.  Rows of the
    same month share their trend value, the earliest month has trend 0,
    and a later month has a larger one; months without rows are not
    counted. *)
Theorem parallel_trends_pretest_trend_rank df intervention_time r r' :
  let pre := filter (fun x => String.ltb (d_time x) intervention_time) df in
  let idx := enumerate_index (sorted String.leb (unique (map d_time pre))) in
  In r pre -> In r' pre ->
  trend_of idx r = INR (rank (unique (map d_time pre)) (d_time r)) /\
  (String.ltb (d_time r) (d_time r') = true <->
   trend_of idx r < trend_of idx r').
Proof.
  intros pre idx Hr Hr'.
  set (months := sorted String.leb (unique (map d_time pre))).
  assert (Ht : forall x, In x pre ->
            trend_of idx x = INR (rank months (d_time x))).
  { intros x Hx. unfold trend_of, idx. rewrite enumerate_index_get.
    now rewrite (proj2 (str_mem_In _ _) (in_map d_time _ _ Hx)). }
  assert (Hm : forall x, In x pre -> In (d_time x) months).
  { intros x Hx. unfold months. apply sorted_In, unique_In.
    now apply in_map. }
  split.
  - rewrite (Ht r Hr). f_equal. unfold months.
    apply rank_perm, sorted_perm.
  - rewrite (Ht r Hr), (Ht r' Hr'). split.
    + intros Hlt. apply lt_INR. apply rank_strict; [now apply Hm | exact Hlt].
    + intros Hlt. apply INR_lt in Hlt.
      destruct (String.ltb (d_time r) (d_time r')) eqn:E; [reflexivity|].
      apply string_ltb_leb in E.
      pose proof (rank_mono months _ _ E). lia.
Qed.

(** X29, witness: unit A in the first and in the sixth month of the
    two-unit frame. *)
Lemma parallel_trends_pretest_trend_rank_witness :
  let pre := filter (fun x => String.ltb (d_time x) "2020-07") pretrend_did in
  let idx := enumerate_index (sorted String.leb (unique (map d_time pre))) in
  trend_of idx (pretrend_row "A" "2020-01")
  < trend_of idx (pretrend_row "A" "2020-06").
Proof.
  intros pre idx.
  destruct (parallel_trends_pretest_trend_rank pretrend_did "2020-07"
              (pretrend_row "A" "2020-01") (pretrend_row "A" "2020-06"))
    as [_ Hlt].
  - simpl. left. reflexivity.
  - simpl. do 10 right. left. reflexivity.
  - apply (proj1 Hlt). reflexivity.
Defined.

(** ** Benjamini-Hochberg q-values *)

Lemma minimum_accumulate_from_length m l :
  length (minimum_accumulate_from m l) = length l.
Proof. revert m. induction l as [|x l IH]; intros m; simpl; [|rewrite IH]; reflexivity. Qed.

Lemma minimum_accumulate_length l : length (minimum_accumulate l) = length l.
Proof.
  destruct l as [|x l]; simpl; [|rewrite minimum_accumulate_from_length];
    reflexivity.
Qed.

Lemma minimum_accumulate_from_le m l j :
  (j < length l)%nat ->
  nth j (minimum_accumulate_from m l) 0 <= m /\
  forall k, (k <= j)%nat -> nth j (minimum_accumulate_from m l) 0 <= nth k l 0.
Proof.
  revert m j. induction l as [|x l IH]; intros m j Hj; [simpl in Hj; lia|].
  destruct j as [|j]; cbn [minimum_accumulate_from nth].
  - split; [apply Rmin_l|]. intros k Hk.
    assert (k = 0%nat) by lia. subst k. apply Rmin_r.
  - cbn [length] in Hj.
    destruct (IH (Rmin m x) j ltac:(lia)) as [H1 H2]. split.
    + pose proof (Rmin_l m x). lra.
    + intros [|k] Hk.
      * pose proof (Rmin_r m x). cbn [nth]. lra.
      * cbn [nth]. apply H2. lia.
Qed.

Lemma minimum_accumulate_from_attained m l j :
  (j < length l)%nat ->
  nth j (minimum_accumulate_from m l) 0 = m \/
  exists k, (k <= j)%nat /\
            nth j (minimum_accumulate_from m l) 0 = nth k l 0.
Proof.
  revert m j. induction l as [|x l IH]; intros m j Hj; [simpl in Hj; lia|].
  destruct j as [|j]; cbn [minimum_accumulate_from nth].
  - destruct (Rle_dec m x) as [H|H].
    + left. now apply Rmin_left.
    + right. exists 0%nat. split; [lia|]. cbn [nth]. apply Rmin_right. lra.
  - cbn [length] in Hj.
    destruct (IH (Rmin m x) j ltac:(lia)) as [H|[k [Hk H]]].
    + rewrite H. destruct (Rle_dec m x) as [Hm|Hm].
      * left. now apply Rmin_left.
      * right. exists 0%nat. split; [lia|]. cbn [nth]. apply Rmin_right. lra.
    + right. exists (S k). split; [lia|]. exact H.
Qed.

Lemma minimum_accumulate_le l j k :
  (k <= j < length l)%nat ->
  nth j (minimum_accumulate l) 0 <= nth k l 0.
Proof.
  destruct l as [|x l]; [simpl; lia|]. intros [Hk Hj].
  destruct j as [|j]; cbn [minimum_accumulate nth].
  - assert (k = 0%nat) by lia. subst k. cbn [nth]. lra.
  - cbn [length] in Hj.
    destruct (minimum_accumulate_from_le x l j ltac:(lia)) as [H1 H2].
    destruct k as [|k]; cbn [nth]; [exact H1 | apply H2; lia].
Qed.

Lemma minimum_accumulate_attained l j :
  (j < length l)%nat ->
  exists k, (k <= j)%nat /\ nth j (minimum_accumulate l) 0 = nth k l 0.
Proof.
  destruct l as [|x l]; [simpl; lia|]. intros Hj.
  destruct j as [|j]; cbn [minimum_accumulate nth].
  - exists 0%nat. split; [lia | reflexivity].
  - cbn [length] in Hj.
    destruct (minimum_accumulate_from_attained x l j ltac:(lia))
      as [H|[k [Hk H]]].
    + exists 0%nat. split; [lia | exact H].
    + exists (S k). split; [lia | exact H].
Qed.

(** The reversed running minimum of the reversed vector is the minimum
    over the entries from a position on. *)
Lemma suffix_minimum_le q j k :
  (j <= k < length q)%nat ->
  nth j (rev (minimum_accumulate (rev q))) 0 <= nth k q 0.
Proof.
  intros [Hjk Hk].
  rewrite rev_nth
    by (rewrite minimum_accumulate_length, length_rev; lia).
  rewrite minimum_accumulate_length, length_rev.
  replace (nth k q 0) with (nth (length q - S k) (rev q) 0).
  - apply minimum_accumulate_le. rewrite length_rev. lia.
  - rewrite rev_nth by lia. f_equal. lia.
Qed.

Lemma suffix_minimum_attained q j :
  (j < length q)%nat ->
  exists k, (j <= k < length q)%nat /\
            nth j (rev (minimum_accumulate (rev q))) 0 = nth k q 0.
Proof.
  intros Hj.
  rewrite rev_nth
    by (rewrite minimum_accumulate_length, length_rev; lia).
  rewrite minimum_accumulate_length, length_rev.
  destruct (minimum_accumulate_attained (rev q) (length q - S j))
    as [k [Hk H]]; [rewrite length_rev; lia|].
  exists (length q - S k)%nat. split; [lia|].
  rewrite H. rewrite rev_nth by lia. reflexivity.
Qed.

Lemma list_set_length out i v : length (list_set out i v) = length out.
Proof.
  revert i. induction out as [|x out IH]; intros [|i]; simpl;
    try rewrite IH; reflexivity.
Qed.

Lemma list_set_nth_eq out i v d :
  (i < length out)%nat -> nth i (list_set out i v) d = v.
Proof.
  revert i. induction out as [|x out IH]; intros [|i] Hi; simpl in *;
    try lia; [reflexivity | apply IH; lia].
Qed.

Lemma list_set_nth_neq out i j v d :
  i <> j -> nth j (list_set out i v) d = nth j out d.
Proof.
  revert i j. induction out as [|x out IH]; intros [|i] [|j] Hij; simpl;
    try reflexivity; try congruence.
  apply IH. congruence.
Qed.

Lemma scatter_length out order q :
  length (scatter out order q) = length out.
Proof.
  unfold scatter. revert out.
  induction (combine order q) as [|[i v] l IH]; intros out; simpl;
    [reflexivity|].
  now rewrite IH, list_set_length.
Qed.

Lemma scatter_untouched out order q i d :
  ~ In i order -> nth i (scatter out order q) d = nth i out d.
Proof.
  unfold scatter. revert out q.
  induction order as [|i0 order IH]; intros out q Hn; [reflexivity|].
  destruct q as [|v q]; [reflexivity|].
  cbn [combine fold_left fst snd].
  rewrite IH by (intros H; apply Hn; now right).
  apply list_set_nth_neq. intros ->. apply Hn. now left.
Qed.

Lemma scatter_nth out order q j d :
  NoDup order -> length order = length q ->
  (forall i, In i order -> (i < length out)%nat) ->
  (j < length order)%nat ->
  nth (nth j order 0%nat) (scatter out order q) d = nth j q d.
Proof.
  revert out q j.
  induction order as [|i0 order IH]; intros out q j Hnd Hl Hb Hj;
    [simpl in Hj; lia|].
  destruct q as [|v q]; [simpl in Hl; lia|].
  inversion Hnd as [|? ? Hnot Hnd']; subst.
  assert (Esc : scatter out (i0 :: order) (v :: q)
                = scatter (list_set out i0 v) order q) by reflexivity.
  rewrite Esc.
  destruct j as [|j]; cbn [nth].
  - rewrite scatter_untouched by exact Hnot.
    apply list_set_nth_eq. apply Hb. now left.
  - apply IH.
    + exact Hnd'.
    + simpl in Hl. lia.
    + intros i Hi. rewrite list_set_length. apply Hb. now right.
    + simpl in Hj. lia.
Qed.

Lemma nth_map_combine_seq (l : list R) s c k :
  (k < length l)%nat ->
  nth k (map (fun rk => fst rk * c / INR (snd rk))
             (combine l (seq s (length l)))) 0
  = nth k l 0 * c / INR (s + k).
Proof.
  revert s k. induction l as [|x l IH]; intros s k Hk; [simpl in Hk; lia|].
  cbn [length seq combine map]. destruct k as [|k]; cbn [nth fst snd].
  - now rewrite Nat.add_0_r.
  - rewrite IH by (simpl in Hk; lia). do 2 f_equal. lia.
Qed.

Lemma strongly_sorted_nth (l : list R) j k :
  StronglySorted Rle l -> (j <= k < length l)%nat ->
  nth j l 0 <= nth k l 0.
Proof.
  intros Hs. revert j k. induction Hs as [|x l Hl IH Hx]; intros j k [Hjk Hk];
    [simpl in Hk; lia|].
  destruct j as [|j], k as [|k]; cbn [nth]; try lia.
  - lra.
  - rewrite Forall_forall in Hx. apply Hx. apply nth_In. simpl in Hk. lia.
  - apply IH. simpl in Hk. lia.
Qed.

Lemma clip_range x : 0 <= clip 0 1 x <= 1.
Proof.
  unfold clip. split.
  - apply Rmin_glb; [lra | apply Rmax_l].
  - apply Rmin_l.
Qed.

Lemma clip_mono x y : x <= y -> clip 0 1 x <= clip 0 1 y.
Proof.
  intros H. unfold clip.
  apply Rle_min_compat_l. now apply Rle_max_compat_l.
Qed.

Lemma clip_neg x : x <= 0 -> clip 0 1 x = 0.
Proof.
  intros H. unfold clip. rewrite Rmax_left by lra. apply Rmin_right. lra.
Qed.

Section SortedQ.
Variable ranked : list R.
Hypothesis Hsorted : StronglySorted Rle ranked.

Lemma bh_raw_length :
  length (map (fun rk => fst rk * INR (length ranked) / INR (snd rk))
              (combine ranked (seq 1 (length ranked))))
  = length ranked.
Proof. rewrite length_map, length_combine, length_seq. apply Nat.min_id. Qed.

Lemma bh_sorted_q_length : length (bh_sorted_q ranked) = length ranked.
Proof.
  unfold bh_sorted_q.
  now rewrite length_map, length_rev, minimum_accumulate_length, length_rev,
              bh_raw_length.
Qed.

Lemma bh_sorted_q_nth j :
  (j < length ranked)%nat ->
  exists s,
    nth j (bh_sorted_q ranked) 0 = clip 0 1 s /\
    (forall k, (j <= k < length ranked)%nat ->
       s <= nth k ranked 0 * INR (length ranked) / INR (S k)) /\
    (exists k, (j <= k < length ranked)%nat /\
       s = nth k ranked 0 * INR (length ranked) / INR (S k)).
Proof.
  intros Hj. unfold bh_sorted_q.
  set (q := map (fun rk => fst rk * INR (length ranked) / INR (snd rk))
                (combine ranked (seq 1 (length ranked)))).
  assert (Hq : length q = length ranked) by apply bh_raw_length.
  assert (Hqk : forall k, (k < length ranked)%nat ->
                  nth k q 0 = nth k ranked 0 * INR (length ranked) / INR (S k)).
  { intros k Hk. unfold q. now rewrite nth_map_combine_seq. }
  exists (nth j (rev (minimum_accumulate (rev q))) 0). split; [|split].
  - rewrite (nth_indep _ 0 (clip 0 1 0)).
    + apply map_nth.
    + rewrite length_map, length_rev, minimum_accumulate_length, length_rev.
      lia.
  - intros k Hk. rewrite <- Hqk by lia. apply suffix_minimum_le. lia.
  - destruct (suffix_minimum_attained q j) as [k [Hk H]]; [lia|].
    exists k. split; [lia|]. rewrite H. apply Hqk. lia.
Qed.

Lemma bh_sorted_q_range j :
  (j < length ranked)%nat -> 0 <= nth j (bh_sorted_q ranked) 0 <= 1.
Proof.
  intros Hj. destruct (bh_sorted_q_nth j Hj) as [s [-> _]]. apply clip_range.
Qed.

Lemma bh_sorted_q_mono j j' :
  (j <= j' < length ranked)%nat ->
  nth j (bh_sorted_q ranked) 0 <= nth j' (bh_sorted_q ranked) 0.
Proof.
  intros [Hjj Hj'].
  destruct (bh_sorted_q_nth j ltac:(lia)) as [s [-> [Hle _]]].
  destruct (bh_sorted_q_nth j' Hj') as [s' [-> [_ [k [Hk ->]]]]].
  apply clip_mono. apply Hle. lia.
Qed.

Lemma div_index_antitone x j k :
  0 <= x -> (k <= j)%nat -> x / INR (S j) <= x / INR (S k).
Proof.
  intros Hx Hkj. unfold Rdiv. apply Rmult_le_compat_l; [exact Hx|].
  apply Rinv_le_contravar.
  - apply lt_0_INR. lia.
  - apply le_INR. lia.
Qed.

(** Equal p-values get equal q-values, wherever they stand in the sorted
    order. *)
Lemma bh_sorted_q_tie j j' :
  (j' < j < length ranked)%nat ->
  nth j ranked 0 <= nth j' ranked 0 ->
  nth j (bh_sorted_q ranked) 0 <= nth j' (bh_sorted_q ranked) 0.
Proof.
  intros [Hjj Hj] Htie.
  destruct (bh_sorted_q_nth j Hj) as [s [Es [Hle _]]].
  destruct (bh_sorted_q_nth j' ltac:(lia)) as [s' [Es' [_ [k [Hk Hs']]]]].
  destruct (le_lt_dec j k) as [Hjk|Hkj].
  - rewrite Es, Es'. apply clip_mono. rewrite Hs'. apply Hle. lia.
  - assert (Hrk : nth k ranked 0 = nth j ranked 0).
    { pose proof (strongly_sorted_nth ranked j' k Hsorted ltac:(lia)).
      pose proof (strongly_sorted_nth ranked k j Hsorted ltac:(lia)).
      lra. }
    destruct (Rle_dec 0 (nth j ranked 0)) as [Hpos|Hneg].
    + rewrite Es, Es'. apply clip_mono. rewrite Hs', Hrk.
      apply (Rle_trans _ (nth j ranked 0 * INR (length ranked) / INR (S j))).
      * apply Hle. lia.
      * apply div_index_antitone; [|lia].
        apply Rmult_le_pos; [exact Hpos | apply pos_INR].
    + rewrite Es, Es'. rewrite (clip_neg s); [apply clip_range|].
      apply (Rle_trans _ (nth j ranked 0 * INR (length ranked) / INR (S j))).
      * apply Hle. lia.
      * assert (0 < INR (S j)) by (apply lt_0_INR; lia).
        assert (0 <= INR (length ranked)) by apply pos_INR.
        unfold Rdiv.
        assert (0 < / INR (S j)) by now apply Rinv_0_lt_compat.
        assert (nth j ranked 0 * INR (length ranked) <= 0) by nra.
        nra.
Qed.

Lemma bh_sorted_q_dominates j :
  (j < length ranked)%nat -> 0 <= nth j ranked 0 ->
  Rmin (nth j ranked 0) 1 <= nth j (bh_sorted_q ranked) 0.
Proof.
  intros Hj Hpos.
  destruct (bh_sorted_q_nth j Hj) as [s [-> [_ [k [Hk ->]]]]].
  pose proof (strongly_sorted_nth ranked j k Hsorted ltac:(lia)) as Hjk.
  set (a := nth k ranked 0) in *.
  assert (HK : 0 < INR (S k)) by (apply lt_0_INR; lia).
  assert (HN : INR (S k) <= INR (length ranked)) by (apply le_INR; lia).
  assert (Hone : 1 <= INR (length ranked) / INR (S k)).
  { unfold Rdiv. apply (Rmult_le_reg_r (INR (S k))); [exact HK|].
    rewrite Rmult_assoc, Rinv_l by lra. lra. }
  assert (Ha : a <= a * INR (length ranked) / INR (S k)).
  { replace (a * INR (length ranked) / INR (S k))
      with (a * (INR (length ranked) / INR (S k))) by (unfold Rdiv; ring).
    nra. }
  unfold clip. apply Rmin_glb.
  - apply Rmin_r.
  - apply (Rle_trans _ (nth j ranked 0)); [apply Rmin_l|].
    apply (Rle_trans _ (a * INR (length ranked) / INR (S k))); [lra|].
    apply Rmax_r.
Qed.

End SortedQ.

Lemma map_nth_seq (p : list R) :
  map (fun i => nth i p 0) (seq 0 (length p)) = p.
Proof.
  induction p as [|x p IH]; [reflexivity|].
  cbn [length seq map nth]. f_equal.
  rewrite <- seq_shift, map_map. exact IH.
Qed.

Lemma Rle_sorted_perm_eq (l l' : list R) :
  StronglySorted Rle l -> StronglySorted Rle l' -> Permutation l l' -> l = l'.
Proof.
  intros Hl. revert l'.
  induction Hl as [|x xs Hxs IH Hx]; intros l' Hl' Hp.
  - apply Permutation_nil in Hp. now subst.
  - destruct Hl' as [|y ys Hys Hy].
    + symmetry in Hp. apply Permutation_nil in Hp. discriminate.
    + assert (x = y).
      { assert (Hxin : In x (y :: ys))
          by (apply (Permutation_in _ Hp); now left).
        assert (Hyin : In y (x :: xs))
          by (apply (Permutation_in _ (Permutation_sym Hp)); now left).
        destruct Hxin as [->|Hxin]; [reflexivity|].
        destruct Hyin as [->|Hyin]; [reflexivity|].
        rewrite Forall_forall in Hx, Hy.
        apply Rle_antisym; [now apply Hx | now apply Hy]. }
      subst y. f_equal. apply IH; [assumption|].
      now apply Permutation_cons_inv in Hp.
Qed.

Section ArgsortFacts.
Variable argsort : list R -> list nat.
Variable p : list R.
Hypothesis Hargs : argsorts argsort p.

Lemma argsort_nodup : NoDup (argsort p).
Proof.
  destruct Hargs as [Hp _].
  apply (Permutation_NoDup (Permutation_sym Hp)), seq_NoDup.
Qed.

Lemma argsort_length : length (argsort p) = length p.
Proof.
  destruct Hargs as [Hp _].
  now rewrite (Permutation_length Hp), length_seq.
Qed.

Lemma argsort_In i : In i (argsort p) <-> (i < length p)%nat.
Proof.
  destruct Hargs as [Hp _]. split.
  - intros Hi. apply (Permutation_in _ Hp) in Hi. apply in_seq in Hi. lia.
  - intros Hi. apply (Permutation_in _ (Permutation_sym Hp)).
    apply in_seq. lia.
Qed.

Lemma ranked_sorted : StronglySorted Rle (map (fun i => nth i p 0) (argsort p)).
Proof.
  destruct Hargs as [_ Hs].
  apply Sorted_StronglySorted; [|exact Hs].
  intros x y z. apply Rle_trans.
Qed.

Lemma ranked_perm : Permutation (map (fun i => nth i p 0) (argsort p)) p.
Proof.
  destruct Hargs as [Hp _].
  rewrite <- (map_nth_seq p) at 2. now apply Permutation_map.
Qed.

Lemma ranked_nth j :
  (j < length p)%nat ->
  nth j (map (fun i => nth i p 0) (argsort p)) 0
  = nth (nth j (argsort p) 0%nat) p 0.
Proof.
  intros Hj.
  rewrite (nth_indep _ 0 ((fun i => nth i p 0) 0%nat))
    by (rewrite length_map, argsort_length; exact Hj).
  apply (map_nth (fun i => nth i p 0)).
Qed.

Lemma benjamini_hochberg_unfold :
  p <> [] ->
  benjamini_hochberg argsort p
  = scatter (repeat 0 (length p)) (argsort p)
            (bh_sorted_q (map (fun i => nth i p 0) (argsort p))).
Proof.
  intros Hne. unfold benjamini_hochberg, bh_sorted_q.
  assert (Hn : (length p =? 0)%nat = false).
  { apply Nat.eqb_neq. intros E. apply length_zero_iff_nil in E. congruence. }
  rewrite Hn. now rewrite length_map, argsort_length.
Qed.

Lemma benjamini_hochberg_nth j :
  (j < length p)%nat ->
  nth (nth j (argsort p) 0%nat) (benjamini_hochberg argsort p) 0
  = nth j (bh_sorted_q (map (fun i => nth i p 0) (argsort p))) 0.
Proof.
  intros Hj.
  assert (Hne : p <> []) by (intros E; rewrite E in Hj; simpl in Hj; lia).
  rewrite (benjamini_hochberg_unfold Hne).
  apply scatter_nth.
  - apply argsort_nodup.
  - rewrite bh_sorted_q_length, length_map. reflexivity.
  - intros i Hi. rewrite repeat_length. now apply argsort_In.
  - now rewrite argsort_length.
Qed.

Lemma argsort_position i :
  (i < length p)%nat ->
  exists j, (j < length p)%nat /\ nth j (argsort p) 0%nat = i.
Proof.
  intros Hi. apply argsort_In in Hi.
  destruct (In_nth _ _ 0%nat Hi) as [j [Hj E]].
  exists j. split; [now rewrite <- argsort_length | exact E].
Qed.

Lemma benjamini_hochberg_length :
  length (benjamini_hochberg argsort p) = length p.
Proof.
  destruct (Nat.eq_dec (length p) 0) as [E|E].
  - unfold benjamini_hochberg. rewrite (proj2 (Nat.eqb_eq _ _) E).
    simpl. lia.
  - rewrite benjamini_hochberg_unfold
      by (intros E0; rewrite E0 in E; now apply E).
    now rewrite scatter_length, repeat_length.
Qed.

End ArgsortFacts.

Lemma bh_sorted_q_le ranked j j' :
  StronglySorted Rle ranked ->
  (j < length ranked)%nat -> (j' < length ranked)%nat ->
  nth j ranked 0 <= nth j' ranked 0 ->
  nth j (bh_sorted_q ranked) 0 <= nth j' (bh_sorted_q ranked) 0.
Proof.
  intros Hs Hj Hj' Hle.
  destruct (le_lt_dec j j') as [H|H].
  - apply bh_sorted_q_mono. lia.
  - apply bh_sorted_q_tie; [exact Hs | lia | exact Hle].
Qed.

(** X30.  For any [argsort] that orders the positions by ascending
    p-value, however it orders equal values: [benjamini_hochberg] returns
    one q-value per p-value; every q-value lies in [0, 1]; the q-value of a
    non-negative p-value is never below the smaller of that p-value and 1;
    a p-value that is not larger than another has a q-value that is not
    larger, so equal p-values get equal q-values; and the result is the
    same for every such [argsort]. *)
Theorem benjamini_hochberg_qvalues argsort p :
  argsorts argsort p ->
  length (benjamini_hochberg argsort p) = length p /\
  (forall i, (i < length p)%nat ->
     0 <= nth i (benjamini_hochberg argsort p) 0 <= 1 /\
     (0 <= nth i p 0 ->
      Rmin (nth i p 0) 1 <= nth i (benjamini_hochberg argsort p) 0) /\
     (forall i', (i' < length p)%nat -> nth i p 0 <= nth i' p 0 ->
        nth i (benjamini_hochberg argsort p) 0
        <= nth i' (benjamini_hochberg argsort p) 0)) /\
  (forall argsort', argsorts argsort' p ->
     benjamini_hochberg argsort' p = benjamini_hochberg argsort p).
Proof.
  intros Hargs.
  set (ranked := map (fun i => nth i p 0) (argsort p)).
  assert (Hrs : StronglySorted Rle ranked) by now apply ranked_sorted.
  assert (Hrl : length ranked = length p)
    by (unfold ranked; rewrite length_map; now apply argsort_length).
  split; [now apply benjamini_hochberg_length|]. split.
  - intros i Hi.
    destruct (argsort_position argsort p Hargs i Hi) as [j [Hj Ej]].
    pose proof (benjamini_hochberg_nth argsort p Hargs j Hj) as Eq.
    pose proof (ranked_nth argsort p Hargs j Hj) as Er.
    rewrite Ej in Eq, Er. fold ranked in Eq, Er.
    split; [|split].
    + rewrite Eq. apply bh_sorted_q_range. lia.
    + intros Hpos. rewrite Eq, <- Er.
      apply bh_sorted_q_dominates; [exact Hrs | lia | now rewrite Er].
    + intros i' Hi' Hle.
      destruct (argsort_position argsort p Hargs i' Hi') as [j' [Hj' Ej']].
      pose proof (benjamini_hochberg_nth argsort p Hargs j' Hj') as Eq'.
      pose proof (ranked_nth argsort p Hargs j' Hj') as Er'.
      rewrite Ej' in Eq', Er'. fold ranked in Eq', Er'.
      rewrite Eq, Eq'.
      apply bh_sorted_q_le; [exact Hrs | lia | lia |].
      now rewrite Er, Er'.
  - intros argsort' Hargs'.
    assert (Hsame : map (fun i => nth i p 0) (argsort' p) = ranked).
    { apply Rle_sorted_perm_eq.
      - now apply ranked_sorted.
      - exact Hrs.
      - rewrite (ranked_perm argsort' p Hargs').
        symmetry. now apply ranked_perm. }
    apply (nth_ext _ _ 0 0).
    + now rewrite !benjamini_hochberg_length.
    + intros i Hi. rewrite benjamini_hochberg_length in Hi by assumption.
      destruct (argsort_position argsort p Hargs i Hi) as [j [Hj Ej]].
      destruct (argsort_position argsort' p Hargs' i Hi) as [j' [Hj' Ej']].
      pose proof (benjamini_hochberg_nth argsort p Hargs j Hj) as Eq.
      pose proof (benjamini_hochberg_nth argsort' p Hargs' j' Hj') as Eq'.
      pose proof (ranked_nth argsort p Hargs j Hj) as Er.
      pose proof (ranked_nth argsort' p Hargs' j' Hj') as Er'.
      rewrite Ej in Eq, Er. rewrite Ej' in Eq', Er'.
      rewrite Hsame in Eq', Er'. fold ranked in Eq, Er.
      rewrite Eq, Eq'.
      apply Rle_antisym; (apply bh_sorted_q_le; [exact Hrs | lia | lia |]);
        rewrite Er, Er'; lra.
Qed.

Lemma in_combine_seq_nth (p : list R) s i x :
  In (i, x) (combine (seq s (length p)) p) -> nth (i - s) p 0 = x.
Proof.
  revert s. induction p as [|y p IH]; intros s; [intros []|].
  cbn [length seq combine]. intros [E|Hin].
  - inversion E; subst. now rewrite Nat.sub_diag.
  - pose proof (in_combine_l _ _ _ _ Hin) as Hi. apply in_seq in Hi.
    apply IH in Hin.
    replace (i - s)%nat with (S (i - S s)) by lia. exact Hin.
Qed.

Lemma stable_argsort_argsorts p : argsorts stable_argsort p.
Proof.
  unfold argsorts, stable_argsort.
  set (S := sorted (fun a b => Rleb (snd a) (snd b))
                   (combine (seq 0 (length p)) p)).
  assert (HS : Permutation S (combine (seq 0 (length p)) p))
    by apply sorted_perm.
  split.
  - rewrite (Permutation_map fst HS).
    rewrite combine_fst by now rewrite length_seq. reflexivity.
  - rewrite map_map.
    rewrite (map_ext_in _ snd).
    2:{ intros [i x] Hin. apply (Permutation_in _ HS) in Hin.
        apply in_combine_seq_nth in Hin. cbn [fst snd].
        now rewrite Nat.sub_0_r in Hin. }
    assert (Hs : Sorted (fun a b => Rleb (snd a) (snd b) = true) S).
    { apply sorted_Sorted. intros x y.
      destruct (Rle_dec (snd x) (snd y)) as [H|H].
      - left. now apply Rleb_true.
      - right. apply Rleb_true. lra. }
    clear HS. induction Hs as [|a l _ IH Hhd]; [constructor|].
    cbn [map]. constructor; [exact IH|].
    destruct Hhd as [|b l' Hb]; constructor.
    now apply (proj1 (Rleb_true _ _)).
Qed.

(** X30, witness: three p-values with the stable argsort. *)
Lemma benjamini_hochberg_qvalues_witness :
  length (benjamini_hochberg stable_argsort [0.04; 0.01; 0.03]) = 3%nat /\
  0 <= nth 1 (benjamini_hochberg stable_argsort [0.04; 0.01; 0.03]) 0 <= 1.
Proof.
  destruct (benjamini_hochberg_qvalues stable_argsort [0.04; 0.01; 0.03])
    as [Hlen [Hq _]].
  - apply stable_argsort_argsorts.
  - split; [exact Hlen|]. apply (Hq 1%nat). simpl. lia.
Defined.
